(** * Statistella NBA dashboard: the filter-and-aggregate pipeline

    A shallow embedding of [update_dashboard] in [Code/dashboard.py] and of
    the pandas operations it is written with, followed by the properties of
    the pipeline.

    Modelling conventions.
    - A DataFrame is the list of its rows, in row order; a row is a record
      whose fields carry the column names of the CSV files.
    - A Series produced by an aggregation is the list of its
      (index label, value) pairs, in index order.
    - float64 values are rationals; [None] is NaN.  The cells of the two
      input tables are never missing; NaN only arises from the aggregations
      themselves (mean of nothing, standard deviation of fewer than two
      values, median of nothing).
    - The aggregations whose values the dashboard plots or prints are
      computed exactly: the rounding of binary floating point is not
      modelled there.  The classifier of the player archetypes is different:
      it turns computed values into labels by comparing them with each
      other, so its arithmetic (the averages per player, the points per
      minute and the two medians) rounds to float64 as the code does
      ([round64]).  Only the float64 sum that pandas accumulates for an
      average is left open ([GroupSum]).  There are no infinities.
    - Python dicts are [gmap]s; a raised exception is the [Raise] result and
      [try ... except Exception] is [try_except].
    - Plotly figures are represented by the table they plot; colours and
      layout of a figure are not part of the model, the colour maps are. *)

From Stdlib Require Import ZArith QArith Qround Qpower Qabs Lia Lqa.
From stdpp Require Import base option list sorting strings gmap pretty.

Local Open Scope string_scope.

(** ** Data model *)

(** One row of [Processed_Data/team_game_stats.csv]. *)
Module Team.
Record row : Type := Row {
  SEASON : Z;
  NICKNAME : string;
  CONFERENCE : string;
  GAME_ID : Z;
  PTS : Q;
  WIN : bool;
  HOME_AWAY : string;
  POINT_DIFF : Q
}.
End Team.

(** One row of [Processed_Data/player_game_stats.csv]. *)
Module Player.
Record row : Type := Row {
  SEASON : Z;
  PLAYER_NAME : string;
  NICKNAME : string;
  MINUTES_PLAYED : Q;
  PTS : Q;
  EFFICIENCY_SCORE : Q;
  GAME_ID : Z
}.
End Player.

Abbreviation float64 := (option Q).
Abbreviation NaN := (@None Q).

(** ** Exceptions *)

Inductive exn : Type := ValueError | IndexError | KeyError.

Inductive result (A : Type) : Type :=
  | Ok (a : A)
  | Raise (e : exn).
Arguments Ok {A} a.
Arguments Raise {A} e.

(** [try: c  except Exception: h] *)
Definition try_except {A} (c : result A) (h : A) : A :=
  match c with
  | Ok a => a
  | Raise _ => h
  end.

(** ** Orders on index labels

    [groupby], [sorted] and [mode] order labels: integers numerically,
    strings by code point, tuples lexicographically. *)

Class KeyOrd (K : Type) := key_le : relation K.
#[global] Hint Mode KeyOrd ! : typeclass_instances.

#[global] Instance Z_KeyOrd : KeyOrd Z := Z.le.
#[global] Instance string_KeyOrd : KeyOrd string := String.le.
#[global] Instance prod_KeyOrd `{KeyOrd A, KeyOrd B} : KeyOrd (A * B) :=
  λ p q, key_le p.1 q.1 ∧ (key_le q.1 p.1 → key_le p.2 q.2).

#[global] Instance Z_key_le_dec : RelDecision (@key_le Z _) := Z_le_dec.
#[global] Instance string_key_le_dec : RelDecision (@key_le string _) :=
  String.le_dec.
#[global] Instance prod_key_le_dec `{KeyOrd A, KeyOrd B}
    `{!RelDecision (@key_le A _), !RelDecision (@key_le B _)} :
  RelDecision (@key_le (A * B) _).
Proof. intros p q. unfold key_le, prod_KeyOrd. apply _. Defined.

(** ** Rational arithmetic for float64 columns *)

#[global] Instance Qle_dec' : RelDecision Qle :=
  λ x y, match Qlt_le_dec y x with
         | left H => right (Qlt_not_le _ _ H)
         | right H => left H
         end.
#[global] Instance Qlt_dec' : RelDecision Qlt :=
  λ x y, match Qlt_le_dec x y with
         | left H => left H
         | right H => right (Qle_not_lt _ _ H)
         end.

#[global] Instance Qeq_dec' : RelDecision Qeq := Qeq_dec.

Definition Qsum (l : list Q) : Q := foldr Qplus 0%Q l.

Definition Qlen {A} (l : list A) : Q := inject_Z (Z.of_nat (length l)).

Definition b2q (b : bool) : Q := if b then 1%Q else 0%Q.

(** ** pandas operations *)

(** [Series.isin(values)] used as a boolean row mask. *)
Definition isin {A K} `{EqDecision K} (col : A → K) (values : list K)
    (df : list A) : list A :=
  filter (λ r, col r ∈ values) df.

(** [Series.unique()] followed by [sorted]; also the order in which
    [groupby] (with its default [sort=True]) lists its groups. *)
Definition sorted_unique `{KeyOrd K, EqDecision K, !RelDecision (@key_le K _)}
    (l : list K) : list K :=
  merge_sort key_le (remove_dups l).

(** [Series.nunique()] *)
Definition nunique `{EqDecision K} (l : list K) : nat :=
  length (remove_dups l).

(** [df.groupby(key)]: the groups in sorted key order, each holding its rows
    in the original row order. *)
Definition groupby {A} `{KeyOrd K, EqDecision K, !RelDecision (@key_le K _)}
    (key : A → K) (df : list A) : list (K * list A) :=
  (λ k, (k, filter (λ r, key r = k) df)) <$> sorted_unique (key <$> df).

(** [Series.mean()]: NaN on an empty series. *)
Definition mean (l : list Q) : float64 :=
  match l with
  | [] => None
  | _ => Some (Qred (Qsum l / Qlen l))
  end.

(** [Series.count()] on a column without missing cells. *)
Definition count {A} (l : list A) : nat := length l.

(** [Series.max()]: NaN on an empty series. *)
Definition Qmax (x y : Q) : Q := if decide (x <= y)%Q then y else x.
Definition max (l : list Q) : float64 :=
  match l with
  | [] => None
  | x :: l => Some (foldl Qmax x l)
  end.

(** [Series.dropna()] *)
Definition dropna (l : list float64) : list Q := omap id l.

(** [Series.median()], which skips NaN: the middle value of the sorted
    values, or the mean of the two middle values. *)
Definition median (l : list float64) : float64 :=
  let v := merge_sort Qle (dropna l) in
  let n := length v in
  if Nat.odd n then v !! (n / 2)
  else
    match v !! (n / 2 - 1), v !! (n / 2) with
    | Some a, Some b => Some (Qred ((a + b) / 2))
    | _, _ => None
    end.

(** Sample variance with [ddof=1]: undefined for fewer than two values. *)
Definition var (l : list Q) : float64 :=
  if decide (length l < 2) then None
  else
    let m := (Qsum l / Qlen l)%Q in
    Some (Qred (Qsum ((λ x, (x - m) * (x - m))%Q <$> l) / (Qlen l - 1))).

(** [Series.std()]: the square root of [var]; the square root itself is
    numpy's and is a parameter of the model. *)
Definition std (sqrt : Q → Q) (l : list Q) : float64 := sqrt <$> var l.

(** Descending order on float64 with NaN last, the order of
    [sort_values(ascending=False)]. *)
Definition desc (a b : float64) : Prop :=
  match a, b with
  | _, None => True
  | None, Some _ => False
  | Some x, Some y => (y <= x)%Q
  end.

#[global] Instance desc_dec : RelDecision desc.
Proof. intros [x|] [y|]; simpl; apply _. Defined.

(** [sort_values(by, ascending=False)]; the order among rows with equal
    values is the one the sorting algorithm happens to produce. *)
Definition desc_by {A} (by_ : A → float64) : relation A :=
  λ a b, desc (by_ a) (by_ b).

#[global] Instance desc_by_dec {A} (by_ : A → float64) :
  RelDecision (desc_by by_).
Proof. intros a b. unfold desc_by. apply _. Defined.

Definition sort_values_desc {A} (by_ : A → float64) (df : list A) : list A :=
  merge_sort (desc_by by_) df.

(** [df.head(n)] *)
Definition head {A} (n : nat) (df : list A) : list A := take n df.

(** [Series.idxmax()]: the label of the first occurrence of the largest
    value, NaN skipped; [ValueError] on an empty series.  A non-empty series
    of NaN only, on which the behaviour depends on the pandas version, is
    given the same result; the dashboard never builds one
    ([groupby_mean_Some]). *)
Fixpoint idxmax_from {K} (best : K * Q) (s : list (K * Q)) : K :=
  match s with
  | [] => best.1
  | kv :: s => idxmax_from (if decide (best.2 < kv.2)%Q then kv else best) s
  end.

Definition idxmax {K} (s : list (K * float64)) : result K :=
  match omap (λ kv, (kv.1,.) <$> kv.2) s with
  | [] => Raise ValueError
  | kv :: s => Ok (idxmax_from kv s)
  end.

(** [Series.mode()]: the values of highest count, sorted. *)
Definition occurrences `{EqDecision K} (x : K) (l : list K) : nat :=
  length (filter (x =.) l).

Definition mode `{KeyOrd K, EqDecision K, !RelDecision (@key_le K _)}
    (l : list K) : list K :=
  let top := max_list ((λ x, occurrences x l) <$> l) in
  sorted_unique (filter (λ x, occurrences x l = top) l).

(** [Series.iloc[0]] *)
Definition iloc0 {A} (l : list A) : result A :=
  match l with
  | [] => Raise IndexError
  | x :: _ => Ok x
  end.

(** ** float64 rounding *)

(** [ilog2 x], for a positive [x]: the integer [k] with
    [2^k <= x < 2^(k+1)]. *)
Definition ilog2 (x : Q) : Z :=
  let k := (Z.log2 (Qnum x) - Z.log2 (Z.pos (Qden x)))%Z in
  if Qle_bool (2 ^ k) x then k else (k - 1)%Z.

(** The exponent of the last binary digit that float64 keeps of a positive
    [x]: 53 significant digits, and no digit below [2^-1074]. *)
Definition ulp_exp (x : Q) : Z := Z.max (ilog2 x - 52) (-1074).

(** Rounding to the nearest integer, a tie going to the even one. *)
Definition rne (x : Q) : Z :=
  let f := Qfloor x in
  match (x - inject_Z f ?= 1 # 2)%Q with
  | Lt => f
  | Gt => (f + 1)%Z
  | Eq => if Z.even f then f else (f + 1)%Z
  end.

Definition round_pos (x : Q) : Q :=
  (inject_Z (rne (x / 2 ^ ulp_exp x)) * 2 ^ ulp_exp x)%Q.

(** [round64 x]: the float64 nearest to the real number [x], a tie going to
    the one with an even last digit.  Every IEEE 754 operation returns its
    exact result rounded this way. *)
Definition round64 (x : Q) : Q :=
  let y := Qred x in
  Qred (match (0 ?= y)%Q with
        | Lt => round_pos y
        | Eq => 0
        | Gt => - round_pos (- y)
        end)%Q.

(** The float64 sum of the values of a group.  pandas accumulates it value
    by value in float64; the order of the additions and their compensation
    are internal to pandas and have changed between its versions, so the sum
    is a parameter of the model. *)
Class GroupSum := group_sum : list Q → Q.

(** [groupby(...).agg(NAME=(col, "mean"))] for one group: the accumulated
    sum divided by the number of values, NaN for no values. *)
Definition mean64 `{GroupSum} (l : list Q) : float64 :=
  match l with
  | [] => None
  | _ => Some (round64 (group_sum l / Qlen l))
  end.

(** [Series.median()] in float64: the mean of the two middle values is a
    float64 addition followed by a float64 halving. *)
Definition mid64 (a b : Q) : Q := round64 (round64 (a + b) / 2).

Definition median64 (l : list float64) : float64 :=
  let v := merge_sort Qle (dropna l) in
  let n := length v in
  if Nat.odd n then v !! (n / 2)
  else
    match v !! (n / 2 - 1), v !! (n / 2) with
    | Some a, Some b => Some (mid64 a b)
    | _, _ => None
    end.

(** Elementwise comparison and division of float64 values.  A comparison
    with NaN is false.  [checked_div] is the exact quotient and [fdiv] the
    float64 division, which rounds it.  Division by zero gives an infinity
    or NaN in pandas; the model has no infinities and yields [None] for any
    zero divisor. *)
Definition fge (a b : float64) : bool :=
  match a, b with
  | Some x, Some y => bool_decide (y <= x)%Q
  | _, _ => false
  end.

Definition flt (a b : float64) : bool :=
  match a, b with
  | Some x, Some y => bool_decide (x < y)%Q
  | _, _ => false
  end.

Definition checked_div (x y : Q) : float64 :=
  if decide (y == 0)%Q then None else Some (x / y)%Q.

Definition fdiv (a b : float64) : float64 :=
  match a, b with
  | Some x, Some y => round64 <$> checked_div x y
  | _, _ => None
  end.

(** [df.groupby(key)[col].mean()] and its siblings: one value per group. *)
Definition groupby_agg {A V} `{KeyOrd K, EqDecision K, !RelDecision (@key_le K _)}
    (key : A → K) (agg : list A → V) (df : list A) : list (K * V) :=
  (λ kg, (kg.1, agg kg.2)) <$> groupby key df.

Definition groupby_mean {A} `{KeyOrd K, EqDecision K, !RelDecision (@key_le K _)}
    (key : A → K) (col : A → Q) (df : list A) : list (K * float64) :=
  groupby_agg key (λ g, mean (col <$> g)) df.

(** [s.groupby("SEASON").median()] on a Series indexed by
    (SEASON, second level): the median of each season's values. *)
Definition level0_median {K2} (s : list ((Z * K2) * float64)) :
    list (Z * float64) :=
  groupby_agg (λ e, e.1.1) (λ g, median (snd <$> g)) s.

(** ** The dashboard constants *)

Definition default_team_color : string := "#888888".

Definition TEAM_COLORS : gmap string (string * string) :=
  list_to_map [
    ("Hawks", ("#E03A3E", "#C1D32F"));
    ("Celtics", ("#007A33", "#BA9653"));
    ("Nets", ("#000000", "#FFFFFF"));
    ("Hornets", ("#1D1160", "#00788C"));
    ("Bulls", ("#CE1141", "#000000"));
    ("Cavaliers", ("#860038", "#FDBB30"));
    ("Mavericks", ("#00538C", "#B8C4CA"));
    ("Nuggets", ("#0E2240", "#FEC524"));
    ("Pistons", ("#C8102E", "#1D42BA"));
    ("Warriors", ("#1D428A", "#FFC72C"));
    ("Rockets", ("#CE1141", "#C4CED4"));
    ("Pacers", ("#002D62", "#FDBB30"));
    ("Clippers", ("#C8102E", "#1D428A"));
    ("Lakers", ("#552583", "#FDB927"));
    ("Grizzlies", ("#5D76A9", "#12173F"));
    ("Heat", ("#98002E", "#F9A01B"));
    ("Bucks", ("#00471B", "#EEE1C6"));
    ("Timberwolves", ("#0C2340", "#236192"));
    ("Pelicans", ("#0C2340", "#C8102E"));
    ("Knicks", ("#006BB6", "#F58426"));
    ("Thunder", ("#007AC1", "#EF3B24"));
    ("Magic", ("#0077C0", "#C4CED4"));
    ("76ers", ("#006BB6", "#ED174C"));
    ("Suns", ("#1D1160", "#E56020"));
    ("Trail Blazers", ("#E03A3E", "#000000"));
    ("Kings", ("#5A2D81", "#63727A"));
    ("Spurs", ("#C4CED4", "#000000"));
    ("Raptors", ("#CE1141", "#000000"));
    ("Jazz", ("#002B5C", "#F9A01B"));
    ("Wizards", ("#002B5C", "#E31837"))
  ].

(** ** Row filter (the head of [update_dashboard]) *)

(** Truth value of a dropdown value: [None] and [[]] are false. *)
Definition truthy {A} (v : option (list A)) : bool :=
  match v with
  | Some (_ :: _) => true
  | _ => false
  end.

Definition values {A} (v : option (list A)) : list A := default [] v.

Definition filter_rows (season : option (list Z))
    (team player : option (list string))
    (tables : list Team.row * list Player.row) :
    list Team.row * list Player.row :=
  let df_team := tables.1 in
  let df_player := tables.2 in
  let df_team :=
    if truthy season then isin Team.SEASON (values season) df_team
    else df_team in
  let df_player :=
    if truthy season then isin Player.SEASON (values season) df_player
    else df_player in
  let df_team :=
    if truthy team then isin Team.NICKNAME (values team) df_team
    else df_team in
  let df_player :=
    if truthy team then isin Player.NICKNAME (values team) df_player
    else df_player in
  let df_player :=
    if truthy player then isin Player.PLAYER_NAME (values player) df_player
    else df_player in
  (df_team, df_player).

(** ** KPI cards *)

(** First and last of the sorted seasons; [None] stands for the text
    "All Seasons". *)
Definition seasons_text (df_team : list Team.row) : option (Z * Z) :=
  let seasons := sorted_unique (Team.SEASON <$> df_team) in
  match seasons, last seasons with
  | s0 :: _, Some s1 => Some (s0, s1)
  | _, _ => None
  end.

Definition total_games (df_team : list Team.row) : nat :=
  nunique (Team.GAME_ID <$> df_team).

Definition total_players (df_player : list Player.row) : nat :=
  nunique (Player.PLAYER_NAME <$> df_player).

Definition avg_pts (df_team : list Team.row) : float64 :=
  match df_team with
  | [] => Some 0%Q
  | _ => mean (Team.PTS <$> df_team)
  end.

Definition win (r : Team.row) : Q := b2q (Team.WIN r).

Definition home_rows (df_team : list Team.row) : list Team.row :=
  filter (λ r, Team.HOME_AWAY r = "Home") df_team.

Definition home_win_rate (df_team : list Team.row) : float64 :=
  match home_rows df_team with
  | [] => Some 0%Q
  | home => (λ m, m * 100)%Q <$> mean (win <$> home)
  end.

(** ** Colour maps *)

(** Truth value of a Python string. *)
Definition nonempty (s : string) : bool :=
  match s with
  | "" => false
  | _ => true
  end.

(** The loop over [sorted(df_team["NICKNAME"].dropna().unique())]; the state
    is the pair ([team_primary_map], [team_secondary_map]). *)
Definition team_color_step (maps : gmap string string * gmap string string)
    (t : string) : gmap string string * gmap string string :=
  match TEAM_COLORS !! t with
  | Some cols =>
      let primary := if nonempty cols.1 then cols.1 else default_team_color in
      let secondary := if nonempty cols.2 then cols.2 else primary in
      (<[t := primary]> maps.1, <[t := secondary]> maps.2)
  | None =>
      (<[t := default_team_color]> maps.1, <[t := default_team_color]> maps.2)
  end.

Definition team_color_maps (df_team : list Team.row) :
    gmap string string * gmap string string :=
  foldl team_color_step (∅, ∅) (sorted_unique (Team.NICKNAME <$> df_team)).

Definition team_primary_map (df_team : list Team.row) : gmap string string :=
  (team_color_maps df_team).1.
Definition team_secondary_map (df_team : list Team.row) : gmap string string :=
  (team_color_maps df_team).2.

(** [d.get(key, fallback)] where the key may be Python's [None], which is
    not a key of any of the colour maps. *)
Definition dict_get (d : gmap string string) (key : option string)
    (fallback : string) : string :=
  match key with
  | Some k => default fallback (d !! k)
  | None => fallback
  end.

(** [grp["NICKNAME"].mode().iloc[0]], with [None] if that raises. *)
Definition team_mode (grp : list Player.row) : option string :=
  try_except
    (match iloc0 (mode (Player.NICKNAME <$> grp)) with
     | Ok t => Ok (Some t)
     | Raise e => Raise e
     end)
    None.

(** The loop over [df_player.groupby("PLAYER_NAME")]; the state is the pair
    ([player_primary_map], [player_secondary_map]). *)
Definition player_color_step (team_maps : gmap string string * gmap string string)
    (maps : gmap string string * gmap string string)
    (group : string * list Player.row) :
    gmap string string * gmap string string :=
  let player_name := group.1 in
  let primary := dict_get team_maps.1 (team_mode group.2) default_team_color in
  let secondary := dict_get team_maps.2 (team_mode group.2) primary in
  (<[player_name := primary]> maps.1, <[player_name := secondary]> maps.2).

Definition player_color_maps (df_team : list Team.row)
    (df_player : list Player.row) : gmap string string * gmap string string :=
  foldl (player_color_step (team_color_maps df_team)) (∅, ∅)
        (groupby Player.PLAYER_NAME df_player).

Definition player_primary_map (df_team : list Team.row)
    (df_player : list Player.row) : gmap string string :=
  (player_color_maps df_team df_player).1.
Definition player_secondary_map (df_team : list Team.row)
    (df_player : list Player.row) : gmap string string :=
  (player_color_maps df_team df_player).2.

(** ** Badges *)

Definition top_team (df_team : list Team.row) : string :=
  try_except (idxmax (groupby_mean Team.NICKNAME win df_team)) "N/A".

Definition top_player (df_player : list Player.row) : string :=
  try_except
    (idxmax (groupby_mean Player.PLAYER_NAME Player.EFFICIENCY_SCORE df_player))
    "N/A".

(** ** Grouped trends over the team table *)

Definition season_scoring (df_team : list Team.row) : list (Z * float64) :=
  groupby_mean Team.SEASON Team.PTS df_team.

Definition team_season (r : Team.row) : Z * string :=
  (Team.SEASON r, Team.NICKNAME r).

(** League parity: per (season, team) mean of WIN, then per season median. *)
Definition parity (df_team : list Team.row) : list (Z * float64) :=
  level0_median (groupby_mean team_season win df_team).

Definition home_away (df_team : list Team.row) : list ((Z * string) * float64) :=
  groupby_mean (λ r, (Team.SEASON r, Team.HOME_AWAY r)) win df_team.

Definition team_avg (df_team : list Team.row) : list ((Z * string) * float64) :=
  groupby_mean team_season Team.PTS df_team.

Definition league_avg (df_team : list Team.row) : list (Z * float64) :=
  groupby_mean Team.SEASON Team.PTS df_team.

Definition conf (df_team : list Team.row) : list ((Z * string) * float64) :=
  groupby_mean (λ r, (Team.SEASON r, Team.CONFERENCE r)) Team.PTS df_team.

(** Team consistency.  [consistency] is [None] when the aggregation raised;
    the model of the aggregation raises nothing. *)
Definition consistency (sqrt : Q → Q) (df_team : list Team.row) :
    option (list (Z * float64)) :=
  try_except
    (Ok (Some (level0_median
                 (groupby_agg team_season
                    (λ g, std sqrt (Team.POINT_DIFF <$> g)) df_team))))
    None.

(** [consistency is None or consistency.empty] *)
Definition no_consistency (c : option (list (Z * float64))) : bool :=
  match c with
  | None => true
  | Some [] => true
  | Some (_ :: _) => false
  end.

(** [fig6]: [None] is the empty figure [{}], otherwise the plotted table. *)
Definition fig6 (sqrt : Q → Q) (df_team : list Team.row) :
    option (list (Z * float64)) :=
  if no_consistency (consistency sqrt df_team) then None
  else consistency sqrt df_team.

Definition team_consistency_msg (sqrt : Q → Q) (df_team : list Team.row) :
    string :=
  if no_consistency (consistency sqrt df_team)
  then "No data for selected filters"
  else "".

(** ** Rankings *)

Definition team_success (df_team : list Team.row) : list (string * float64) :=
  head 10 (sort_values_desc snd (groupby_mean Team.NICKNAME win df_team)).

(** A row of [dominant_seasons]: ((SEASON, NICKNAME), WIN), and its LABEL. *)
Definition dominant_seasons (df_team : list Team.row) :
    list ((Z * string) * float64) :=
  head 10 (sort_values_desc snd (groupby_mean team_season win df_team)).

Definition LABEL (row : (Z * string) * float64) : string :=
  row.1.2 +:+ " (" +:+ pretty row.1.1 +:+ ")".

Definition TWENTY_PLUS (r : Player.row) : Q :=
  if decide (20 <= Player.PTS r)%Q then 1%Q else 0%Q.

Definition scorers (df_player : list Player.row) : list (string * float64) :=
  head 10
    (sort_values_desc snd (groupby_mean Player.PLAYER_NAME TWENTY_PLUS df_player)).

(** A row of [player_success]: (PLAYER_NAME, (AVG_EFF, GAMES)). *)
Definition player_success_agg (df_player : list Player.row) :
    list (string * (float64 * nat)) :=
  groupby_agg Player.PLAYER_NAME
    (λ g, (mean (Player.EFFICIENCY_SCORE <$> g),
           count (Player.EFFICIENCY_SCORE <$> g)))
    df_player.

Definition meaningful_careers (rows : list (string * (float64 * nat))) :
    list (string * (float64 * nat)) :=
  filter (λ row : string * (float64 * nat), (100 ≤ row.2.2)%nat) rows.

Definition player_success (df_player : list Player.row) :
    list (string * (float64 * nat)) :=
  head 10
    (sort_values_desc (λ row, row.2.1)
       (meaningful_careers (player_success_agg df_player))).

(** A row of [top_games]: (PLAYER_NAME, (BEST_EFF, BEST_PTS)). *)
Definition top_games_agg (df_player : list Player.row) :
    list (string * (float64 * float64)) :=
  groupby_agg Player.PLAYER_NAME
    (λ g, (max (Player.EFFICIENCY_SCORE <$> g), max (Player.PTS <$> g)))
    df_player.

Definition top_games (df_player : list Player.row) :
    list (string * (float64 * float64)) :=
  head 10 (sort_values_desc (λ row, row.2.1) (top_games_agg df_player)).

(** ** Player archetypes *)

(** A row of [archetype_data] after Step 1. *)
Module Usage.
Record row : Type := Row {
  PLAYER_NAME : string;
  AVG_MIN : float64;
  AVG_PTS : float64;
  GAMES_PLAYED : nat
}.
End Usage.

(** A row of [archetype_data] after Step 5: the Step 1 columns and the two
    columns added by Steps 3 and 5. *)
Module Archetype.
Record row : Type := Row {
  stats : Usage.row;
  PTS_PER_MIN : float64;
  ARCHETYPE : string
}.
End Archetype.

(** Step 1: aggregate per player. *)
Definition archetype_agg `{GroupSum} (df_player : list Player.row) :
    list Usage.row :=
  (λ kg, Usage.Row kg.1
           (mean64 (Player.MINUTES_PLAYED <$> kg.2))
           (mean64 (Player.PTS <$> kg.2))
           (count (Player.PTS <$> kg.2)))
  <$> groupby Player.PLAYER_NAME df_player.

(** Step 2: remove low-sample noise. *)
Definition remove_low_sample (rows : list Usage.row) : list Usage.row :=
  filter (λ r, (30 ≤ Usage.GAMES_PLAYED r)%nat ∧ fge (Usage.AVG_MIN r) (Some 8%Q))
         rows.

(** Step 3: points per minute. *)
Definition pts_per_min (r : Usage.row) : float64 :=
  fdiv (Usage.AVG_PTS r) (Usage.AVG_MIN r).

(** Step 4: league medians. *)
Definition usage_median (rows : list Usage.row) : float64 :=
  median64 (Usage.AVG_MIN <$> rows).
Definition eff_median (rows : list Usage.row) : float64 :=
  median64 (pts_per_min <$> rows).

(** Step 5: [assign_archetype], a closure over the two medians, reading the
    columns AVG_MIN and PTS_PER_MIN of its row. *)
Definition assign_archetype (usage_median eff_median : float64)
    (AVG_MIN PTS_PER_MIN : float64) : string :=
  if fge AVG_MIN usage_median && fge PTS_PER_MIN eff_median
  then "High-Usage Stars"
  else if fge AVG_MIN usage_median && flt PTS_PER_MIN eff_median
  then "Volume Scorers"
  else if flt AVG_MIN usage_median && fge PTS_PER_MIN eff_median
  then "Efficient Role Players"
  else "Low-Impact Bench Players".

Definition retained `{GroupSum} (df_player : list Player.row) :
    list Usage.row :=
  remove_low_sample (archetype_agg df_player).

Definition archetype_data `{GroupSum} (df_player : list Player.row) :
    list Archetype.row :=
  let data := retained df_player in
  (λ r, Archetype.Row r (pts_per_min r)
          (assign_archetype (usage_median data) (eff_median data)
             (Usage.AVG_MIN r) (pts_per_min r)))
  <$> data.

(** The players carrying a given label. *)
Definition archetype_group (label : string) (rows : list Archetype.row) :
    list Archetype.row :=
  filter (λ r, Archetype.ARCHETYPE r = label) rows.

(** ** The callback *)

(** What [update_dashboard] computes, by the names of its local variables. *)
Module Dashboard.
Record t : Type := Make {
  seasons_text : option (Z * Z);
  total_games : nat;
  total_players : nat;
  avg_pts : float64;
  home_win_rate : float64;
  team_primary_map : gmap string string;
  team_secondary_map : gmap string string;
  player_primary_map : gmap string string;
  player_secondary_map : gmap string string;
  top_team : string;
  top_player : string;
  season_scoring : list (Z * float64);
  parity : list (Z * float64);
  home_away : list ((Z * string) * float64);
  team_avg : list ((Z * string) * float64);
  league_avg : list (Z * float64);
  conf : list ((Z * string) * float64);
  fig6 : option (list (Z * float64));
  team_consistency_msg : string;
  team_success : list (string * float64);
  dominant_seasons : list (((Z * string) * float64) * string);
  archetype_data : list Archetype.row;
  scorers : list (string * float64);
  player_success : list (string * (float64 * nat));
  top_games : list (string * (float64 * float64))
}.
End Dashboard.

Section Callback.
(** The two tables loaded at start-up, numpy's square root and pandas's
    float64 sum of a group. *)
Variable team_game_stats : list Team.row.
Variable player_game_stats : list Player.row.
Variable sqrt : Q → Q.
Context `{GroupSum}.

Definition update_dashboard (season : option (list Z))
    (team player : option (list string)) : Dashboard.t :=
  let filtered :=
    filter_rows season team player (team_game_stats, player_game_stats) in
  let df_team := filtered.1 in
  let df_player := filtered.2 in
  {| Dashboard.seasons_text := seasons_text df_team;
     Dashboard.total_games := total_games df_team;
     Dashboard.total_players := total_players df_player;
     Dashboard.avg_pts := avg_pts df_team;
     Dashboard.home_win_rate := home_win_rate df_team;
     Dashboard.team_primary_map := team_primary_map df_team;
     Dashboard.team_secondary_map := team_secondary_map df_team;
     Dashboard.player_primary_map := player_primary_map df_team df_player;
     Dashboard.player_secondary_map := player_secondary_map df_team df_player;
     Dashboard.top_team := top_team df_team;
     Dashboard.top_player := top_player df_player;
     Dashboard.season_scoring := season_scoring df_team;
     Dashboard.parity := parity df_team;
     Dashboard.home_away := home_away df_team;
     Dashboard.team_avg := team_avg df_team;
     Dashboard.league_avg := league_avg df_team;
     Dashboard.conf := conf df_team;
     Dashboard.fig6 := fig6 sqrt df_team;
     Dashboard.team_consistency_msg := team_consistency_msg sqrt df_team;
     Dashboard.team_success := team_success df_team;
     Dashboard.dominant_seasons :=
       (λ row, (row, LABEL row)) <$> dominant_seasons df_team;
     Dashboard.archetype_data := archetype_data df_player;
     Dashboard.scorers := scorers df_player;
     Dashboard.player_success := player_success df_player;
     Dashboard.top_games := top_games df_player |}.
End Callback.

(** The part of the result that the dashboard derives from [df_team]. *)
Module TeamView.
Record t : Type := Make {
  total_games : nat;
  avg_pts : float64;
  home_win_rate : float64;
  season_scoring : list (Z * float64);
  parity : list (Z * float64);
  home_away : list ((Z * string) * float64);
  team_avg : list ((Z * string) * float64);
  league_avg : list (Z * float64);
  conf : list ((Z * string) * float64);
  fig6 : option (list (Z * float64));
  team_consistency_msg : string;
  team_success : list (string * float64);
  dominant_seasons : list (((Z * string) * float64) * string);
  top_team : string
}.
End TeamView.

Definition team_view (d : Dashboard.t) : TeamView.t :=
  {| TeamView.total_games := Dashboard.total_games d;
     TeamView.avg_pts := Dashboard.avg_pts d;
     TeamView.home_win_rate := Dashboard.home_win_rate d;
     TeamView.season_scoring := Dashboard.season_scoring d;
     TeamView.parity := Dashboard.parity d;
     TeamView.home_away := Dashboard.home_away d;
     TeamView.team_avg := Dashboard.team_avg d;
     TeamView.league_avg := Dashboard.league_avg d;
     TeamView.conf := Dashboard.conf d;
     TeamView.fig6 := Dashboard.fig6 d;
     TeamView.team_consistency_msg := Dashboard.team_consistency_msg d;
     TeamView.team_success := Dashboard.team_success d;
     TeamView.dominant_seasons := Dashboard.dominant_seasons d;
     TeamView.top_team := Dashboard.top_team d |}.

(** ** Auxiliary notions used in the statements *)

(** The laws a label order has to satisfy. *)
Class KeyOrdLaws (K : Type) `{KeyOrd K} : Prop := {
  key_le_po :: PartialOrder (@key_le K _);
  key_le_total :: Total (@key_le K _)
}.

(** A value matches a constraint when the constraint has no values or lists
    the value. *)
Definition matches {K} (v : option (list K)) (x : K) : Prop :=
  truthy v = true → x ∈ values v.

(** The team table of the counterexample to "the home win rate is 0 exactly
    when there are no home rows": one home game, lost. *)
Definition lost_at_home : list Team.row :=
  [Team.Row 2020 "Lakers" "West" 1 (98 # 1) false "Home" (-(7 # 1))].

(** League parity in the words of the specification: for each season, the
    median, across the teams of that season, of the team's mean win rate in
    that season. *)
Definition parity_spec (df_team : list Team.row) : list (Z * float64) :=
  (λ s, (s, median
              ((λ t, mean (win <$> filter (λ r, Team.SEASON r = s
                                                ∧ Team.NICKNAME r = t) df_team))
               <$> sorted_unique
                     (Team.NICKNAME <$> filter (λ r, Team.SEASON r = s) df_team))))
  <$> sorted_unique (Team.SEASON <$> df_team).

(** The raw per-season mean of the win flag. *)
Definition raw_season_win_rate (df_team : list Team.row) : list (Z * float64) :=
  groupby_mean Team.SEASON win df_team.

(** Three games of one season: the Lakers beat the Celtics twice and the
    Bulls once. *)
Definition uneven_season : list Team.row :=
  [ Team.Row 2020 "Lakers" "West" 1 (110 # 1) true "Home" (10 # 1);
    Team.Row 2020 "Celtics" "East" 1 (100 # 1) false "Away" (-(10 # 1));
    Team.Row 2020 "Lakers" "West" 2 (105 # 1) true "Away" (4 # 1);
    Team.Row 2020 "Celtics" "East" 2 (101 # 1) false "Home" (-(4 # 1));
    Team.Row 2020 "Lakers" "West" 3 (99 # 1) true "Home" (2 # 1);
    Team.Row 2020 "Bulls" "East" 3 (97 # 1) false "Away" (-(2 # 1)) ].

(** Every (season, team) group of the table holds exactly one game. *)
Definition single_game_groups (df_team : list Team.row) : Prop :=
  Forall (λ kg, length kg.2 = 1%nat) (groupby team_season df_team).

#[global] Instance single_game_groups_dec df_team :
  Decision (single_game_groups df_team).
Proof. unfold single_game_groups. apply _. Defined.

(** A square root to three decimals, to run the model on concrete tables. *)
Definition Qsqrt_approx (q : Q) : Q :=
  Z.sqrt (Qnum q * 1000000 / Z.pos (Qden q)) # 1000.

(** One game of one season, seen from both teams. *)
Definition one_game : list Team.row :=
  [ Team.Row 2020 "Lakers" "West" 1 (110 # 1) true "Home" (10 # 1);
    Team.Row 2020 "Celtics" "East" 1 (100 # 1) false "Away" (-(10 # 1)) ].

(** What a top-10 ranking [result] of the rows [qualifying] by the metric
    [by_] has to satisfy: at most ten rows, as many as qualify up to ten; in
    descending order of a metric that is a number on every row; taken from
    the qualifying rows, the rows left out being no better than any row
    kept; and all qualifying rows when at most ten qualify. *)
Definition is_top10 {A} (by_ : A → float64) (qualifying result : list A) : Prop :=
  (length result ≤ 10)%nat
  ∧ length result = Nat.min 10 (length qualifying)
  ∧ StronglySorted (desc_by by_) result
  ∧ Forall (λ row, is_Some (by_ row)) result
  ∧ (∃ rest, result ++ rest ≡ₚ qualifying
             ∧ Forall (λ out, Forall (λ kept, desc_by by_ kept out) result) rest)
  ∧ ((length qualifying ≤ 10)%nat → result ≡ₚ qualifying).

(** The four archetype labels. *)
Definition archetypes : list string :=
  ["High-Usage Stars"; "Volume Scorers"; "Efficient Role Players";
   "Low-Impact Bench Players"].

(** The label table of the classifier: usage at or above its median or not,
    efficiency at or above its median or not. *)
Definition label_table (usage_ge eff_ge : bool) : string :=
  match usage_ge, eff_ge with
  | true, true => "High-Usage Stars"
  | true, false => "Volume Scorers"
  | false, true => "Efficient Role Players"
  | false, false => "Low-Impact Bench Players"
  end.

(** The rows of one player in the filtered player table. *)
Definition games_of (p : string) (df_player : list Player.row) :
    list Player.row :=
  filter (λ r, Player.PLAYER_NAME r = p) df_player.



(** [v] is a median of the values [l]: at least half of them are at or
    below [v] and at least half are at or above it. *)
Definition is_median (v : Q) (l : list Q) : Prop :=
  (length l ≤ 2 * length (filter (λ x, (x <= v)%Q) l))%nat
  ∧ (length l ≤ 2 * length (filter (λ x, (v <= x)%Q) l))%nat.

(** The values float64 holds: whole multiples of a power of two with at
    most 53 binary digits, the power being no smaller than [2^-1074]. *)
Definition float64_value (b : Q) : Prop :=
  ∃ m e : Z, (-1074 ≤ e)%Z ∧ (Z.abs m ≤ 2 ^ 53)%Z ∧ (b == inject_Z m * 2 ^ e)%Q.

(** [v] is a float64 nearest to the real number [x]: no float64 is nearer. *)
Definition nearest_float64 (x v : Q) : Prop :=
  float64_value v
  ∧ ∀ b, float64_value b → (Qabs (v - x) <= Qabs (b - x))%Q.

Definition player_of (row : Archetype.row) : string :=
  Usage.PLAYER_NAME (Archetype.stats row).

(** The colours the dashboard resolves for a player: the entries of the two
    player colour maps. *)
Definition player_colors (df_team : list Team.row) (df_player : list Player.row)
    (p : string) : option (string * string) :=
  match player_primary_map df_team df_player !! p,
        player_secondary_map df_team df_player !! p with
  | Some primary, Some secondary => Some (primary, secondary)
  | _, _ => None
  end.

(** The colour pair of a team in the words of the specification: its entry
    in the static table, the default gray twice for a team the table does
    not know. *)
Definition team_color_pair (t : string) : string * string :=
  default (default_team_color, default_team_color) (TEAM_COLORS !! t).

(** The most frequent value of a list in the words of the specification:
    the first-encountered one wins a tie. *)
Definition first_most_frequent `{EqDecision K} (l : list K) : option K :=
  let top := max_list ((λ x, occurrences x l) <$> l) in
  filter (λ x, occurrences x l = top) l !! 0%nat.

(** A player with one game for the Lakers followed by one for the Celtics,
    and a team table in which both teams occur. *)
Definition traded_player : list Player.row :=
  [ Player.Row 2020 "A. Guard" "Lakers" (30 # 1) (20 # 1) (18 # 1) 1;
    Player.Row 2020 "A. Guard" "Celtics" (28 # 1) (15 # 1) (12 # 1) 2 ].

Definition both_teams : list Team.row :=
  [ Team.Row 2020 "Lakers" "West" 1 (110 # 1) true "Home" (10 # 1);
    Team.Row 2020 "Celtics" "East" 2 (100 # 1) false "Away" (-(10 # 1)) ].

(** A player whose every game was for the Lakers. *)
Definition one_team_player : list Player.row :=
  [ Player.Row 2020 "B. Center" "Lakers" (25 # 1) (12 # 1) (14 # 1) 1 ].

(** The body of a loop that stores one entry per item in each of two
    dicts, under the same key. *)
Definition store_both {A} (k : A → string) (v1 v2 : A → string)
    (maps : gmap string string * gmap string string) (x : A) :
    gmap string string * gmap string string :=
  (<[k x := v1 x]> maps.1, <[k x := v2 x]> maps.2).

(** ** The filter dropdowns of the layout

    The values offered by the three dropdowns, in the order offered. *)
Definition season_options (team_game_stats : list Team.row) : list Z :=
  sorted_unique (Team.SEASON <$> team_game_stats).

Definition team_options (team_game_stats : list Team.row) : list string :=
  sorted_unique (Team.NICKNAME <$> team_game_stats).

Definition player_options (player_game_stats : list Player.row) : list string :=
  sorted_unique (Player.PLAYER_NAME <$> player_game_stats).

(** Two games of one player: the best efficiency score in the first, the
    most points in the second. *)
Definition two_peaks : list Player.row :=
  [ Player.Row 2020 "C. Wing" "Bulls" (36 # 1) (22 # 1) (40 # 1) 1;
    Player.Row 2020 "C. Wing" "Bulls" (38 # 1) (35 # 1) (31 # 1) 2 ].

(** ** The callback's outputs

    The values of the tuple that [update_dashboard] returns, by the names
    of the local variables returned, each with the table it shows. *)
Module Returned.
Inductive value : Type :=
  | kpi_cards (seasons_text : option (Z * Z)) (total_games total_players : nat)
      (avg_pts home_win_rate : float64)
  | badges (top_team top_player : string)
  | fig1 (season_scoring : list (Z * float64))
  | fig2 (parity : list (Z * float64))
  | fig3 (home_away : list ((Z * string) * float64))
  | fig4 (team_avg : list ((Z * string) * float64))
      (league_avg : list (Z * float64))
  | fig5 (conf : list ((Z * string) * float64))
  | fig6 (consistency : option (list (Z * float64)))
  | team_consistency_msg (text : string)
  | fig_success_teams (team_success : list (string * float64))
  | fig_dominant_seasons
      (dominant_seasons : list (((Z * string) * float64) * string))
  | fig7 (archetype_data : list Archetype.row)
  | fig8 (scorers : list (string * float64))
  | fig_success_players (player_success : list (string * (float64 * nat)))
  | fig9 (top_games : list (string * (float64 * float64))).
End Returned.

(** The component ids of the [Output]s of the callback, in the order of the
    decorator. *)
Definition callback_outputs : list string :=
  [ "kpi_container"; "badges_container"; "season_scoring_trend";
    "league_parity"; "home_away_trend"; "team_vs_league"; "east_west";
    "team_consistency"; "team_consistency_msg"; "player_archetypes";
    "high_scorers"; "top_games"; "most_successful_teams"; "dominant_seasons";
    "most_successful_players" ].

(** The returned tuple, in the order of the [return] statement. *)
Definition returned (d : Dashboard.t) : list Returned.value :=
  [ Returned.kpi_cards (Dashboard.seasons_text d) (Dashboard.total_games d)
      (Dashboard.total_players d) (Dashboard.avg_pts d)
      (Dashboard.home_win_rate d);
    Returned.badges (Dashboard.top_team d) (Dashboard.top_player d);
    Returned.fig1 (Dashboard.season_scoring d);
    Returned.fig2 (Dashboard.parity d);
    Returned.fig3 (Dashboard.home_away d);
    Returned.fig4 (Dashboard.team_avg d) (Dashboard.league_avg d);
    Returned.fig5 (Dashboard.conf d);
    Returned.fig6 (Dashboard.fig6 d);
    Returned.team_consistency_msg (Dashboard.team_consistency_msg d);
    Returned.fig_success_teams (Dashboard.team_success d);
    Returned.fig_dominant_seasons (Dashboard.dominant_seasons d);
    Returned.fig7 (Dashboard.archetype_data d);
    Returned.fig8 (Dashboard.scorers d);
    Returned.fig_success_players (Dashboard.player_success d);
    Returned.fig9 (Dashboard.top_games d) ].

(** Dash hands the i-th value of the returned tuple to the i-th [Output]:
    the component ids with the value each receives. *)
Definition delivered (outputs : list string) (values : list Returned.value) :
    gmap string Returned.value :=
  list_to_map (zip outputs values).

(** ** Two-tone styling

    A Plotly trace, as far as [apply_two_tone] reads and writes it: its
    name, its marker (colour and outline, the outline being a colour and a
    width) when the trace has a [marker] attribute, and its line colour when
    the trace has a [line] attribute. *)
Module Trace.
Record marker : Type := Marker {
  color : option string;
  line : option (string * Z)
}.
Record t : Type := Make {
  name : option string;
  marker_ : option marker;
  line_color : option (option string)
}.
End Trace.

(** [d.get(key)] where the key may be Python's [None]. *)
Definition dict_get_opt (d : gmap string string) (key : option string) :
    option string :=
  match key with
  | Some k => d !! k
  | None => None
  end.

(** The colour [apply_two_tone] settles on for a trace: the entry of the
    primary map, else the marker colour the trace has, else its line colour,
    else the default. *)
Definition two_tone_primary (primary_map : gmap string string) (trace : Trace.t) :
    string :=
  match dict_get_opt primary_map (Trace.name trace) with
  | Some primary => primary
  | None =>
      match Trace.marker_ trace with
      | Some (Trace.Marker (Some c) _) => c
      | _ =>
          match Trace.line_color trace with
          | Some (Some c) => c
          | _ => default_team_color
          end
      end
  end.

Definition two_tone_secondary (primary_map secondary_map : gmap string string)
    (trace : Trace.t) : string :=
  match dict_get_opt secondary_map (Trace.name trace) with
  | Some secondary => secondary
  | None => two_tone_primary primary_map trace
  end.

(** The body of the loop over [fig.data]. *)
Definition two_tone_trace (primary_map secondary_map : gmap string string)
    (trace : Trace.t) : Trace.t :=
  let primary := two_tone_primary primary_map trace in
  let secondary := two_tone_secondary primary_map secondary_map trace in
  {| Trace.name := Trace.name trace;
     Trace.marker_ :=
       (λ _, Trace.Marker (Some primary) (Some (secondary, 3%Z)))
       <$> Trace.marker_ trace;
     Trace.line_color := (λ _, Some primary) <$> Trace.line_color trace |}.

(** [apply_two_tone(fig, primary_map, secondary_map)]; the figure is its
    list of traces, [None] being Python's [None].  The function updates the
    figure in place; the model returns the updated figure. *)
Definition apply_two_tone (fig : option (list Trace.t))
    (primary_map secondary_map : gmap string string) : option (list Trace.t) :=
  match fig with
  | None => None
  | Some data => Some (two_tone_trace primary_map secondary_map <$> data)
  end.

(** A bar of the Lakers as Plotly Express draws it, and the dashed line of
    the league average. *)
Definition lakers_bar : Trace.t :=
  Trace.Make (Some "Lakers") (Some (Trace.Marker (Some "#636efa") None)) None.

Definition league_avg_line : Trace.t :=
  Trace.Make (Some "League Avg") (Some (Trace.Marker None None))
    (Some (Some "black")).

(** [has_paren s]: an opening parenthesis occurs in [s]. *)
Fixpoint has_paren (s : string) : bool :=
  match s with
  | EmptyString => false
  | String c s => bool_decide (String c "" = "(") || has_paren s
  end.

(** The LABEL column as a function of the (SEASON, NICKNAME) key alone. *)
Definition label_of_key (k : Z * string) : string :=
  k.2 +:+ " (" +:+ pretty k.1 +:+ ")".

(** A whole number, as a count of points or of minutes is. *)
Definition whole_number (x : Q) : Prop :=
  (0 <= x)%Q ∧ (inject_Z (Qfloor x) == x)%Q.

(** What every way of accumulating a float64 sum has in common: whole
    numbers are added without error as long as the total stays below
    [2^53]. *)
Class GroupSumLaws `{GroupSum} : Prop :=
  group_sum_whole (l : list Q) :
    Forall whole_number l → (Qsum l < 2 ^ 53)%Q → (group_sum l == Qsum l)%Q.

(** Two ways of accumulating a sum: without error, and value by value with
    a rounding after every addition. *)
Definition exact_sum : GroupSum := Qsum.

Definition running_sum : GroupSum := foldl (λ s x, round64 (s + x)) 0%Q.

(** Thirty games each of two players with the same points per minute, 3/10:
    Ann scores 72 points in 30 games of 8 minutes, Bob 81 points in 30 games
    of 9 minutes. *)
Definition close_call : list Player.row :=
  replicate 24 (Player.Row 2020 "Ann" "Bulls" (8 # 1) (3 # 1) (5 # 1) 1)
  ++ replicate 6 (Player.Row 2020 "Ann" "Bulls" (8 # 1) (0 # 1) (0 # 1) 1)
  ++ replicate 27 (Player.Row 2020 "Bob" "Bulls" (9 # 1) (3 # 1) (5 # 1) 1)
  ++ replicate 3 (Player.Row 2020 "Bob" "Bulls" (9 # 1) (0 # 1) (0 # 1) 1).

(** * Properties *)

(** ** Laws of the label orders *)

#[global] Instance Z_KeyOrdLaws : KeyOrdLaws Z.
Proof. split; unfold key_le, Z_KeyOrd; apply _. Qed.

#[global] Instance string_KeyOrdLaws : KeyOrdLaws string.
Proof. split; unfold key_le, string_KeyOrd; apply _. Qed.

#[global] Instance prod_KeyOrdLaws `{KeyOrdLaws A, KeyOrdLaws B}
    `{!RelDecision (@key_le A _)} :
  KeyOrdLaws (A * B).
Proof.
  split; [split; [split|]|].
  - intros [a b]. split; simpl; [done|]. intros _. done.
  - intros [a1 b1] [a2 b2] [a3 b3] [H12 H12'] [H23 H23']; simpl in *.
    split; simpl; [by etrans|].
    intros H31.
    assert (a1 = a2) as ->.
    { apply (anti_symm key_le); [done|]. by etrans. }
    etrans; [apply H12'; done|]. apply H23'. done.
  - intros [a1 b1] [a2 b2] [H12 H12'] [H21 H21']; simpl in *.
    f_equal; apply (anti_symm key_le); auto.
  - intros [a1 b1] [a2 b2]. unfold key_le, prod_KeyOrd; simpl.
    destruct (total key_le a1 a2) as [Ha|Ha], (total key_le b1 b2) as [Hb|Hb];
      destruct (decide (key_le a2 a1)), (decide (key_le a1 a2));
      first [by left; split; [assumption|intros; first [assumption|contradiction]]
            |by right; split; [assumption|intros; first [assumption|contradiction]]].
Qed.

Section sorted_unique.
Context `{KeyOrdLaws K, EqDecision K, !RelDecision (@key_le K _)}.
Implicit Types l : list K.

Lemma elem_of_sorted_unique l x : x ∈ sorted_unique l ↔ x ∈ l.
Proof.
  unfold sorted_unique. by rewrite merge_sort_Permutation, elem_of_remove_dups.
Qed.

Lemma NoDup_sorted_unique l : NoDup (sorted_unique l).
Proof.
  unfold sorted_unique. rewrite merge_sort_Permutation.
  apply NoDup_remove_dups.
Qed.

Lemma Sorted_sorted_unique l : Sorted key_le (sorted_unique l).
Proof. apply Sorted_merge_sort, _. Qed.

Lemma sorted_nodup_ext l1 l2 :
  Sorted key_le l1 → Sorted key_le l2 → NoDup l1 → NoDup l2 →
  (∀ x, x ∈ l1 ↔ x ∈ l2) → l1 = l2.
Proof.
  intros. apply (Sorted_unique key_le); [done..|].
  by apply NoDup_Permutation.
Qed.

Lemma sorted_unique_ext l1 l2 :
  (∀ x, x ∈ l1 ↔ x ∈ l2) → sorted_unique l1 = sorted_unique l2.
Proof.
  intros Hl. apply sorted_nodup_ext;
    auto using Sorted_sorted_unique, NoDup_sorted_unique.
  intros x. by rewrite !elem_of_sorted_unique.
Qed.

Lemma sorted_unique_nil_inv l : sorted_unique l = [] → l = [].
Proof.
  intros Hl. destruct l as [|x l]; [done|].
  assert (x ∈ sorted_unique (x :: l)) as Hx
    by (apply elem_of_sorted_unique; left).
  rewrite Hl in Hx. by apply not_elem_of_nil in Hx.
Qed.
End sorted_unique.

(** ** The row filter *)

Lemma isin_idemp {A} `{EqDecision K} (col : A → K) values df :
  isin col values (isin col values df) = isin col values df.
Proof.
  unfold isin. rewrite list_filter_filter. apply list_filter_iff. tauto.
Qed.

Lemma isin_comm {A} `{EqDecision K1, EqDecision K2}
    (c1 : A → K1) (c2 : A → K2) v1 v2 df :
  isin c1 v1 (isin c2 v2 df) = isin c2 v2 (isin c1 v1 df).
Proof.
  unfold isin. rewrite !list_filter_filter. apply list_filter_iff. tauto.
Qed.

Lemma elem_of_isin {A} `{EqDecision K} (col : A → K) values df r :
  r ∈ isin col values df ↔ col r ∈ values ∧ r ∈ df.
Proof. unfold isin. by rewrite list_elem_of_filter. Qed.

Lemma isin_nil_values {A} `{EqDecision K} (col : A → K) df :
  isin col [] df = [].
Proof.
  unfold isin. induction df as [|r df IH]; [done|].
  rewrite filter_cons_False; [done|]. apply not_elem_of_nil.
Qed.

Lemma truthy_values {A} (v : option (list A)) : truthy v = false → values v = [].
Proof. by destruct v as [[|??]|]. Qed.

(** The team table only sees the season and team constraints. *)
Lemma filter_rows_team season team player tables :
  (filter_rows season team player tables).1 =
  (filter_rows season team None tables).1.
Proof. done. Qed.

(** A row of the team table is kept iff it matches the season and the team
    constraint, a row of the player table iff it matches all three. *)
Lemma filter_rows_spec_team season team player tables r :
  r ∈ (filter_rows season team player tables).1 ↔
  r ∈ tables.1 ∧ matches season (Team.SEASON r) ∧ matches team (Team.NICKNAME r).
Proof.
  unfold filter_rows, matches; simpl.
  destruct (truthy season), (truthy team); rewrite ?elem_of_isin;
    intuition congruence.
Qed.

Lemma filter_rows_spec_player season team player tables r :
  r ∈ (filter_rows season team player tables).2 ↔
  r ∈ tables.2 ∧ matches season (Player.SEASON r) ∧
  matches team (Player.NICKNAME r) ∧ matches player (Player.PLAYER_NAME r).
Proof.
  unfold filter_rows, matches; simpl.
  destruct (truthy season), (truthy team), (truthy player);
    rewrite ?elem_of_isin; intuition congruence.
Qed.

(** C7. Filtering is idempotent: filtering the filtered tables again with the
    same selection changes nothing; and a constraint without values ([None]
    or the empty list) restricts nothing. *)
Theorem filter_rows_idempotent season team player tables :
  filter_rows season team player (filter_rows season team player tables)
  = filter_rows season team player tables
  ∧ filter_rows (Some []) team player tables
    = filter_rows None team player tables
  ∧ filter_rows season (Some []) player tables
    = filter_rows season None player tables
  ∧ filter_rows season team (Some []) tables
    = filter_rows season team None tables
  ∧ filter_rows None None None tables = tables.
Proof.
  split; [|by destruct tables].
  unfold filter_rows; simpl.
  destruct (truthy season), (truthy team), (truthy player); simpl;
    f_equal; unfold isin; rewrite ?list_filter_filter;
    apply list_filter_iff; tauto.
Qed.

(** C9. Two runs whose selections differ only in the player set agree on
    everything the dashboard derives from the team table. *)
Theorem team_outputs_ignore_player_filter `{GroupSum}
    team_game_stats player_game_stats sqrt season team player1 player2 :
  team_view
    (update_dashboard team_game_stats player_game_stats sqrt season team player1)
  = team_view
      (update_dashboard team_game_stats player_game_stats sqrt season team player2).
Proof.
  unfold update_dashboard, team_view. cbv zeta.
  by rewrite (filter_rows_team season team player1),
             (filter_rows_team season team player2).
Qed.

(** ** Grouping *)

Section groupby.
Context {A : Type} `{KeyOrdLaws K, EqDecision K, !RelDecision (@key_le K _)}.
Implicit Types (key : A → K) (df : list A).

Lemma groupby_keys key df : (groupby key df).*1 = sorted_unique (key <$> df).
Proof.
  unfold groupby. rewrite <-list_fmap_compose.
  etrans; [|apply list_fmap_id]. by apply list_fmap_ext.
Qed.

Lemma elem_of_groupby key df kg :
  kg ∈ groupby key df ↔
  kg.1 ∈ key <$> df ∧ kg.2 = filter (λ r, key r = kg.1) df.
Proof.
  unfold groupby. rewrite list_elem_of_fmap. split.
  - intros (k & -> & Hk). rewrite elem_of_sorted_unique in Hk.
    by split.
  - intros [Hk Hg]. exists kg.1. rewrite elem_of_sorted_unique.
    split; [|done]. destruct kg; simpl in *; congruence.
Qed.

Lemma groupby_nonempty key df kg : kg ∈ groupby key df → kg.2 ≠ [].
Proof.
  intros [(r & Hr & Hin)%list_elem_of_fmap Hg]%elem_of_groupby Hnil.
  assert (r ∈ kg.2) as Hr'.
  { rewrite Hg. apply list_elem_of_filter. done. }
  rewrite Hnil in Hr'. by apply not_elem_of_nil in Hr'.
Qed.

Lemma groupby_NoDup key df : NoDup (groupby key df).*1.
Proof. rewrite groupby_keys. apply NoDup_sorted_unique. Qed.

Lemma groupby_nil key : groupby key [] = [].
Proof. done. Qed.

Lemma groupby_nil_inv key df : groupby key df = [] → df = [].
Proof.
  intros Hg. apply (f_equal (fmap fst)) in Hg. rewrite groupby_keys in Hg.
  apply sorted_unique_nil_inv in Hg. by apply fmap_nil_inv in Hg.
Qed.

Lemma groupby_agg_keys {V} key (agg : list A → V) df :
  (groupby_agg key agg df).*1 = sorted_unique (key <$> df).
Proof.
  unfold groupby_agg. rewrite <-list_fmap_compose, <-groupby_keys.
  by apply list_fmap_ext.
Qed.

Lemma groupby_agg_fmap {V} key (agg : list A → V) df :
  groupby_agg key agg df
  = (λ k, (k, agg (filter (λ r, key r = k) df))) <$> sorted_unique (key <$> df).
Proof.
  unfold groupby_agg, groupby. rewrite <-list_fmap_compose.
  by apply list_fmap_ext.
Qed.
End groupby.

(** ** Sums and means *)

Lemma Qlen_nonneg {A} (l : list A) : (0 <= Qlen l)%Q.
Proof.
  unfold Qlen. change 0%Q with (inject_Z 0). rewrite <-Zle_Qle. lia.
Qed.

Lemma Qlen_cons {A} (x : A) l : (Qlen (x :: l) == 1 + Qlen l)%Q.
Proof.
  unfold Qlen. simpl length. rewrite Nat2Z.inj_succ, <-Z.add_1_l.
  by rewrite inject_Z_plus.
Qed.

Lemma Qlen_fmap {A B} (f : A → B) l : Qlen (f <$> l) = Qlen l.
Proof. unfold Qlen. by rewrite length_fmap. Qed.

Lemma Qlen_pos {A} (l : list A) : l ≠ [] → (0 < Qlen l)%Q.
Proof.
  destruct l as [|x l]; [done|]. intros _.
  rewrite Qlen_cons. pose proof (Qlen_nonneg l). lra.
Qed.

Lemma mean_is_Some l : l ≠ [] → mean l = Some (Qred (Qsum l / Qlen l)).
Proof. by destruct l. Qed.

Lemma mean_None l : mean l = None ↔ l = [].
Proof. by destruct l. Qed.

(** The sum of a 0/1 column counts its ones. *)
Lemma Qsum_win (df : list Team.row) :
  (Qsum (win <$> df) == Qlen (filter (λ r, Team.WIN r = true) df))%Q.
Proof.
  induction df as [|r df IH]; [done|].
  rewrite fmap_cons. simpl Qsum. rewrite IH. unfold win at 1.
  destruct (Team.WIN r) eqn:Hr.
  - rewrite filter_cons_True by done. rewrite Qlen_cons. simpl. lra.
  - rewrite filter_cons_False by congruence. simpl. lra.
Qed.

Lemma Qlen_filter_le {A} (P : A → Prop) `{∀ x, Decision (P x)} (l : list A) :
  (Qlen (filter P l) <= Qlen l)%Q.
Proof.
  unfold Qlen. rewrite <-Zle_Qle. pose proof (length_filter P l). lia.
Qed.

Lemma Qlen_zero {A} (l : list A) : (Qlen l == 0)%Q → l = [].
Proof.
  destruct l as [|x l]; [done|]. rewrite Qlen_cons.
  pose proof (Qlen_nonneg l). lra.
Qed.

(** ** KPI: home win rate *)

(** C3 (as amended). The home win rate is the percentage of wins among the
    rows flagged "Home"; it lies between 0 and 100; it is 0 when there are no
    home rows, and in general it is 0 exactly when no home row is a win. *)
Theorem home_win_rate_range df_team :
  ∃ q, home_win_rate df_team = Some q
    ∧ (q * Qlen (home_rows df_team)
       == 100 * Qlen (filter (λ r, Team.WIN r = true) (home_rows df_team)))%Q
    ∧ (0 <= q <= 100)%Q
    ∧ (home_rows df_team = [] → q == 0)%Q
    ∧ ((q == 0)%Q ↔ Forall (λ r, Team.WIN r = false) (home_rows df_team)).
Proof.
  unfold home_win_rate. destruct (home_rows df_team) as [|r home] eqn:Hhome.
  { exists 0%Q. repeat split; try done; try lra. }
  set (l := r :: home) in *.
  assert (l ≠ []) as Hl by done. clearbody l.
  rewrite mean_is_Some by (by destruct l). simpl.
  eexists; split; [done|].
  pose proof (Qlen_pos l Hl) as Hpos.
  pose proof (Qsum_win l) as Hsum.
  pose proof (Qlen_filter_le (λ r, Team.WIN r = true) l) as Hle.
  pose proof (Qlen_nonneg (filter (λ r, Team.WIN r = true) l)) as Hge.
  set (w := Qlen (filter (λ r, Team.WIN r = true) l)) in *.
  set (n := Qlen l) in *.
  assert (Qred (Qsum (win <$> l) / Qlen (win <$> l)) == w / n)%Q as Hq.
  { rewrite Qred_correct, Hsum, Qlen_fmap. reflexivity. }
  rewrite Hq.
  assert (w / n * n == w)%Q as Hwn by (field; lra).
  assert (0 <= w / n)%Q as H0.
  { apply Qle_shift_div_l; lra. }
  assert (w / n <= 1)%Q as H1.
  { apply Qle_shift_div_r; lra. }
  split; [|split; [|split]].
  - rewrite <-Hwn at 2. ring.
  - lra.
  - intros ?. subst l. done.
  - split.
    + intros Hz. assert (w == 0)%Q as Hw.
      { rewrite <-Hwn. nra. }
      apply Qlen_zero in Hw. apply Forall_forall. intros x Hx.
      destruct (Team.WIN x) eqn:Hwin; [|done].
      assert (x ∈ filter (λ r, Team.WIN r = true) l) as Hin
        by (by apply list_elem_of_filter).
      rewrite Hw in Hin. by apply not_elem_of_nil in Hin.
    + intros Hall. assert (w == 0)%Q as Hw; [|rewrite Hw; field; lra].
      unfold w. replace (filter (λ r, Team.WIN r = true) l) with (@nil Team.row);
        [done|].
      symmetry. clear -Hall. induction Hall as [|x l Hx _ IH]; [done|].
      rewrite filter_cons_False by congruence. done.
Qed.

(** C3, counterexample to the claim as stated. With one home game, lost, the
    home win rate is 0 although a home row exists. *)
Lemma home_win_rate_zero_with_home_rows :
  ¬ (home_win_rate lost_at_home = Some 0%Q ↔ home_rows lost_at_home = []).
Proof.
  intros [Hzero _].
  assert (home_win_rate lost_at_home = Some 0%Q) as H by (vm_compute; reflexivity).
  apply Hzero in H. vm_compute in H. discriminate H.
Qed.

(** ** Badges *)

(** C8. Each badge is the label found by [idxmax] when that succeeds and the
    sentinel "N/A" whenever it raises; on an empty filtered table it does
    raise, so the badge is "N/A".  A badge is a string in every case: no
    exception leaves the computation. *)
Theorem badges_fall_back_to_NA :
  (∀ df_team,
     match idxmax (groupby_mean Team.NICKNAME win df_team) with
     | Ok t => top_team df_team = t
     | Raise _ => top_team df_team = "N/A"
     end)
  ∧ (∀ df_player,
     match idxmax (groupby_mean Player.PLAYER_NAME Player.EFFICIENCY_SCORE
                     df_player) with
     | Ok p => top_player df_player = p
     | Raise _ => top_player df_player = "N/A"
     end)
  ∧ idxmax (groupby_mean Team.NICKNAME win []) = Raise ValueError
  ∧ top_team [] = "N/A"
  ∧ idxmax (groupby_mean Player.PLAYER_NAME Player.EFFICIENCY_SCORE [])
    = Raise ValueError
  ∧ top_player [] = "N/A".
Proof.
  split; [|split]; [| |done].
  - intros df_team. unfold top_team. by destruct (idxmax _).
  - intros df_player. unfold top_player. by destruct (idxmax _).
Qed.

(** The badge computation only fails on an empty table: a group is never
    empty, so every group mean is a number. *)
Lemma groupby_mean_Some {A} `{KeyOrdLaws K, EqDecision K, !RelDecision (@key_le K _)}
    (key : A → K) (col : A → Q) (df : list A) :
  Forall (λ kv, is_Some kv.2) (groupby_mean key col df).
Proof.
  unfold groupby_mean, groupby_agg. apply Forall_fmap, Forall_forall.
  intros kg Hkg%groupby_nonempty. simpl.
  destruct (mean (col <$> kg.2)) eqn:Hm; [done|].
  apply mean_None, fmap_nil_inv in Hm. done.
Qed.

Lemma idxmax_from_elem_of {K} (best : K * Q) s :
  idxmax_from best s ∈ best.1 :: s.*1.
Proof.
  revert best. induction s as [|kv s IH]; intros best; simpl; [left|].
  specialize (IH (if decide (best.2 < kv.2)%Q then kv else best)).
  destruct (decide (best.2 < kv.2)%Q); [by right|].
  apply elem_of_cons in IH as [->|IH]; [left|by do 2 right].
Qed.

Lemma idxmax_Ok_elem_of {K} (s : list (K * float64)) k :
  idxmax s = Ok k → k ∈ s.*1.
Proof.
  unfold idxmax.
  destruct (omap _ s) as [|kv s'] eqn:Hs; [done|]. intros [= <-].
  pose proof (idxmax_from_elem_of kv s') as Hin.
  assert (∀ x, x ∈ kv :: s' → x.1 ∈ s.*1) as Hsub.
  { intros x Hx. rewrite <-Hs in Hx.
    apply list_elem_of_omap in Hx as (y & Hy & Hxy).
    destruct y as [k' [v|]]; simplify_eq/=.
    apply list_elem_of_fmap. by exists (k', Some v). }
  apply elem_of_cons in Hin as [->|Hin]; [apply Hsub; left|].
  apply list_elem_of_fmap in Hin as (x & -> & Hx). apply Hsub. by right.
Qed.

Lemma idxmax_Raise_inv {K} (s : list (K * float64)) e :
  idxmax s = Raise e → Forall (λ kv, kv.2 = None) s.
Proof.
  unfold idxmax. destruct (omap _ s) as [|kv s'] eqn:Hs; [|done]. intros _.
  apply Forall_forall. intros [k [v|]] Hin; [|done]. exfalso.
  assert ((k, v) ∈ omap (λ kv, (kv.1,.) <$> kv.2) s) as Hx.
  { apply list_elem_of_omap. by exists (k, Some v). }
  rewrite Hs in Hx. by apply not_elem_of_nil in Hx.
Qed.

Lemma idxmax_groupby_mean {A} `{KeyOrdLaws K, EqDecision K, !RelDecision (@key_le K _)}
    (key : A → K) (col : A → Q) (df : list A) :
  df ≠ [] → ∃ k, idxmax (groupby_mean key col df) = Ok k ∧ k ∈ key <$> df.
Proof.
  intros Hdf. destruct (idxmax (groupby_mean key col df)) as [k|e] eqn:Hi.
  - exists k. split; [done|]. apply idxmax_Ok_elem_of in Hi.
    unfold groupby_mean in Hi. rewrite groupby_agg_keys in Hi.
    by rewrite elem_of_sorted_unique in Hi.
  - exfalso. apply idxmax_Raise_inv in Hi.
    pose proof (groupby_mean_Some key col df) as Hs.
    destruct (groupby_mean key col df) as [|kv s] eqn:Hg.
    + unfold groupby_mean, groupby_agg in Hg. apply fmap_nil_inv in Hg.
      by apply groupby_nil_inv in Hg.
    + apply Forall_cons_1 in Hi as [Hi _]. apply Forall_cons_1 in Hs as [Hs _].
      rewrite Hi in Hs. by destruct Hs.
Qed.

Lemma top_team_elem_of df_team :
  df_team ≠ [] → top_team df_team ∈ Team.NICKNAME <$> df_team.
Proof.
  intros (k & Hk & Hin)%(idxmax_groupby_mean Team.NICKNAME win).
  unfold top_team. by rewrite Hk.
Qed.

Lemma top_player_elem_of df_player :
  df_player ≠ [] → top_player df_player ∈ Player.PLAYER_NAME <$> df_player.
Proof.
  intros (k & Hk & Hin)%(idxmax_groupby_mean Player.PLAYER_NAME
                           Player.EFFICIENCY_SCORE).
  unfold top_player. by rewrite Hk.
Qed.

(** ** Lists: filtering under a map, sorted sublists *)

Lemma filter_fmap {A B} (f : A → B) (P : B → Prop) `{∀ x, Decision (P x)}
    (l : list A) :
  filter P (f <$> l) = f <$> filter (λ x, P (f x)) l.
Proof.
  induction l as [|x l IH]; [done|]. rewrite fmap_cons.
  destruct (decide (P (f x))).
  - rewrite !filter_cons_True by done. by rewrite fmap_cons, IH.
  - by rewrite !filter_cons_False by done.
Qed.

Lemma StronglySorted_sublist {A} (R : relation A) (k l : list A) :
  k `sublist_of` l → StronglySorted R l → StronglySorted R k.
Proof.
  induction 1 as [|x k l Hkl IH|x k l Hkl IH]; intros Hl; [done|..].
  - apply StronglySorted_inv in Hl as [Hl Hx]. constructor; [auto|].
    eapply Forall_forall. intros y Hy.
    eapply Forall_forall in Hx; [done|]. by eapply elem_of_sublist.
  - apply StronglySorted_inv in Hl as [Hl _]. auto.
Qed.

Lemma StronglySorted_Sorted' {A} (R : relation A) l :
  StronglySorted R l → Sorted R l.
Proof. apply StronglySorted_Sorted. Qed.

Section sorted_unique_more.
Context `{KeyOrdLaws K, EqDecision K, !RelDecision (@key_le K _)}.

Lemma StronglySorted_sorted_unique (l : list K) :
  StronglySorted key_le (sorted_unique l).
Proof. apply StronglySorted_merge_sort; apply _. Qed.

(** The first label of a sorted index is its least label. *)
Lemma sorted_unique_head_least (l : list K) x xs y :
  sorted_unique l = x :: xs → y ∈ l → key_le x y.
Proof.
  intros Hl Hy. pose proof (StronglySorted_sorted_unique l) as Hs.
  rewrite <-elem_of_sorted_unique, Hl in Hy. rewrite Hl in Hs.
  apply StronglySorted_inv in Hs as [_ Hs].
  apply elem_of_cons in Hy as [->|Hy]; [done|].
  eapply Forall_forall in Hs; done.
Qed.
End sorted_unique_more.

(** The labels of a two-level index that lie under one first-level label
    are that label paired with the sorted second-level labels under it. *)
Lemma filter_sorted_unique_level0
    `{KeyOrdLaws K2, EqDecision K2, !RelDecision (@key_le K2 _)}
    (l : list (Z * K2)) (s : Z) :
  filter (λ k, k.1 = s) (sorted_unique l)
  = (s,.) <$> sorted_unique (snd <$> filter (λ k, k.1 = s) l).
Proof.
  apply sorted_nodup_ext.
  - apply StronglySorted_Sorted'.
    eapply StronglySorted_sublist; [apply sublist_filter|].
    apply StronglySorted_sorted_unique.
  - eapply Sorted_fmap; [|apply Sorted_sorted_unique].
    intros t1 t2 Ht. split; simpl; [done|]. by intros _.
  - apply NoDup_filter, NoDup_sorted_unique.
  - apply NoDup_fmap_2; [|apply NoDup_sorted_unique].
    by intros ?? [=].
  - intros [s' t]. rewrite list_elem_of_filter, elem_of_sorted_unique.
    rewrite list_elem_of_fmap. simpl. split.
    + intros [-> Hin]. exists t. split; [done|].
      rewrite elem_of_sorted_unique. apply list_elem_of_fmap.
      exists (s, t). split; [done|]. by apply list_elem_of_filter.
    + intros (t' & [= -> ->] & Hin). rewrite elem_of_sorted_unique in Hin.
      apply list_elem_of_fmap in Hin as ([s'' t''] & -> & Hin).
      apply list_elem_of_filter in Hin as [Hs Hin]. simpl in *. by subst.
Qed.

(** ** Two-stage aggregations

    A per-(season, key) aggregation followed by the per-season median is the
    nested reduction: for every season of the table, the median over the
    keys occurring in that season of the aggregate of that season's rows
    with that key. *)
Lemma level0_median_groupby_agg {A}
    `{KeyOrdLaws K2, EqDecision K2, !RelDecision (@key_le K2 _)}
    (season : A → Z) (key2 : A → K2) (agg : list A → float64) (df : list A) :
  level0_median (groupby_agg (λ r, (season r, key2 r)) agg df)
  = (λ s, (s, median ((λ t, agg (filter (λ r, season r = s ∧ key2 r = t) df))
                      <$> sorted_unique (key2 <$> filter (λ r, season r = s) df))))
    <$> sorted_unique (season <$> df).
Proof.
  unfold level0_median. rewrite groupby_agg_fmap.
  rewrite (groupby_agg_fmap (λ r, (season r, key2 r)) agg df).
  set (KS := sorted_unique ((λ r, (season r, key2 r)) <$> df)).
  set (f := λ k : Z * K2, (k, agg (filter (λ r, (season r, key2 r) = k) df))).
  assert (sorted_unique ((λ e : Z * K2 * float64, e.1.1) <$> (f <$> KS))
          = sorted_unique (season <$> df)) as ->.
  { apply sorted_unique_ext. intros s.
    rewrite <-list_fmap_compose, !list_elem_of_fmap. split.
    - intros (k & -> & Hk). unfold KS in Hk.
      rewrite elem_of_sorted_unique in Hk.
      apply list_elem_of_fmap in Hk as (r & -> & Hr). by exists r.
    - intros (r & -> & Hr). exists (season r, key2 r). split; [done|].
      unfold KS. rewrite elem_of_sorted_unique.
      apply list_elem_of_fmap. by exists r. }
  apply list_fmap_ext. intros _ s _. f_equal. f_equal.
  rewrite (filter_fmap f). unfold f at 2. simpl.
  unfold KS. rewrite filter_sorted_unique_level0.
  rewrite (filter_fmap (λ r, (season r, key2 r))). simpl.
  rewrite <-!list_fmap_compose.
  apply list_fmap_ext. intros _ t _. simpl. f_equal.
  apply list_filter_iff. intros r. split; [by intros [= -> ->]|].
  by intros [-> ->].
Qed.

(** ** League parity *)

(** C5. League parity is the nested two-stage reduction: for every season,
    the median over that season's teams of the team's mean win rate in that
    season.  It is not the raw per-season mean of the win flag: on
    [uneven_season] the two differ. *)
Theorem parity_is_nested_reduction :
  (∀ df_team, parity df_team = parity_spec df_team)
  ∧ parity uneven_season ≠ raw_season_win_rate uneven_season.
Proof.
  split.
  - intros df_team. unfold parity, parity_spec, groupby_mean, team_season.
    by rewrite (level0_median_groupby_agg Team.SEASON Team.NICKNAME).
  - intros Heq. vm_compute in Heq. discriminate Heq.
Qed.

(** ** Team consistency *)

Lemma dropna_all_NaN (l : list float64) :
  Forall (λ v, v = None) l → dropna l = [].
Proof. induction 1 as [|v l -> _ IH]; [done|]. exact IH. Qed.

Lemma median_all_NaN (l : list float64) :
  Forall (λ v, v = None) l → median l = None.
Proof. intros Hl. unfold median. by rewrite dropna_all_NaN. Qed.

Lemma std_short sqrt (l : list Q) : (length l < 2)%nat → std sqrt l = None.
Proof. intros Hl. unfold std, var. by rewrite decide_True. Qed.

Lemma single_groups_le1 {A} `{KeyOrdLaws K, EqDecision K, !RelDecision (@key_le K _)}
    (key : A → K) (df : list A) (k : K) :
  Forall (λ kg, length kg.2 = 1%nat) (groupby key df) →
  (length (filter (λ r, key r = k) df) ≤ 1)%nat.
Proof.
  intros Hall. destruct (filter (λ r, key r = k) df) as [|r g] eqn:Hg.
  { simpl. lia. }
  assert (r ∈ filter (λ r, key r = k) df) as Hr by (rewrite Hg; left).
  apply list_elem_of_filter in Hr as [Hk Hr].
  assert ((k, filter (λ r, key r = k) df) ∈ groupby key df) as Hin.
  { apply elem_of_groupby. split; [|done]. simpl.
    apply list_elem_of_fmap. by exists r. }
  eapply Forall_forall in Hall; [|exact Hin]. simpl in Hall.
  rewrite Hg in Hall. lia.
Qed.

(** C2 (as amended). When every (season, team) group holds exactly one game,
    the standard deviation of every group is undefined and the consistency
    table has one row per season of the filtered table, each with an
    undefined value.  That table is empty, and the "no data" message is
    emitted instead of a chart, exactly when the filtered team table has no
    rows. *)
Theorem consistency_single_game_groups sqrt df_team :
  single_game_groups df_team →
  consistency sqrt df_team
  = Some ((λ s, (s, None)) <$> sorted_unique (Team.SEASON <$> df_team))
  ∧ (team_consistency_msg sqrt df_team = "No data for selected filters"
     ↔ df_team = [])
  ∧ (fig6 sqrt df_team = None ↔ df_team = []).
Proof.
  intros Hsingle.
  assert (consistency sqrt df_team
          = Some ((λ s, (s, None)) <$> sorted_unique (Team.SEASON <$> df_team)))
    as Hc.
  { unfold consistency, try_except, team_season. f_equal.
    rewrite (level0_median_groupby_agg Team.SEASON Team.NICKNAME).
    apply list_fmap_ext. intros _ s _. f_equal.
    apply median_all_NaN, Forall_fmap, Forall_forall. intros t _. simpl.
    apply std_short. rewrite length_fmap.
    pose proof (single_groups_le1 team_season df_team (s, t) Hsingle) as Hle.
    erewrite list_filter_iff; [apply Nat.lt_succ_r, Hle|].
    intros r. unfold team_season. split; [by intros [-> ->]|by intros [= -> ->]]. }
  split; [done|].
  unfold team_consistency_msg, fig6. rewrite Hc.
  destruct (sorted_unique (Team.SEASON <$> df_team)) as [|s ss] eqn:Hs.
  - apply sorted_unique_nil_inv, fmap_nil_inv in Hs. by subst.
  - simpl. split; (split; [done|]); intros ->; done.
Qed.

(** C2, the amended statement at [one_game]. *)
Lemma consistency_single_game_groups_witness :
  single_game_groups one_game
  ∧ consistency Qsqrt_approx one_game
    = Some ((λ s, (s, None)) <$> sorted_unique (Team.SEASON <$> one_game))
  ∧ (team_consistency_msg Qsqrt_approx one_game = "No data for selected filters"
     ↔ one_game = [])
  ∧ (fig6 Qsqrt_approx one_game = None ↔ one_game = []).
Proof.
  assert (single_game_groups one_game) as Hsingle
    by (vm_compute; repeat constructor).
  split; [exact Hsingle|].
  exact (consistency_single_game_groups Qsqrt_approx one_game Hsingle).
Defined.

(** C2, counterexample to the claim as stated. In [one_game] every
    (season, team) group holds exactly one game, yet the consistency table
    is not empty and the message is the empty string. *)
Lemma single_game_groups_no_message :
  ¬ (single_game_groups one_game →
     no_consistency (consistency Qsqrt_approx one_game) = true
     ∧ team_consistency_msg Qsqrt_approx one_game
       = "No data for selected filters").
Proof.
  intros Hclaim. destruct Hclaim as [Hempty _].
  - vm_compute. repeat constructor.
  - vm_compute in Hempty. discriminate Hempty.
Qed.

(** ** Rankings *)

#[global] Instance desc_trans : Transitive desc.
Proof.
  intros [x|] [y|] [z|]; simpl; try done. intros ??. by eapply Qle_trans.
Qed.

#[global] Instance desc_total : Total desc.
Proof.
  intros [x|] [y|]; simpl; auto.
  destruct (Qlt_le_dec x y) as [?%Qlt_le_weak|?]; auto.
Qed.

#[global] Instance desc_by_trans {A} (by_ : A → float64) :
  Transitive (desc_by by_).
Proof. intros x y z. unfold desc_by. apply desc_trans. Qed.

#[global] Instance desc_by_total {A} (by_ : A → float64) : Total (desc_by by_).
Proof. intros x y. unfold desc_by. apply desc_total. Qed.

Lemma sort_values_desc_Permutation {A} (by_ : A → float64) df :
  sort_values_desc by_ df ≡ₚ df.
Proof. apply merge_sort_Permutation. Qed.

Lemma sort_values_desc_sorted {A} (by_ : A → float64) df :
  StronglySorted (desc_by by_) (sort_values_desc by_ df).
Proof. apply StronglySorted_merge_sort; apply _. Qed.

(** The first ten rows of the table sorted by a metric are a top-10 ranking
    of the table. *)
Lemma head_sort_is_top10 {A} (by_ : A → float64) (df : list A) :
  Forall (λ row, is_Some (by_ row)) df →
  is_top10 by_ df (head 10 (sort_values_desc by_ df)).
Proof.
  intros Hnum. unfold head.
  pose proof (sort_values_desc_Permutation by_ df) as Hperm.
  pose proof (sort_values_desc_sorted by_ df) as Hsorted.
  set (sorted := sort_values_desc by_ df) in *.
  assert (length sorted = length df) as Hlen by (by rewrite Hperm).
  unfold is_top10. split_and!.
  - rewrite length_take. lia.
  - rewrite length_take. lia.
  - eapply StronglySorted_sublist; [apply sublist_take|]. exact Hsorted.
  - apply Forall_forall. intros row Hrow.
    rewrite Forall_forall in Hnum. apply Hnum. rewrite <-Hperm.
    eapply elem_of_sublist; [exact Hrow|apply sublist_take].
  - exists (drop 10 sorted). rewrite take_drop. split; [done|].
    rewrite <-(take_drop 10 sorted) in Hsorted.
    apply StronglySorted_app in Hsorted as (Hcross & _ & _).
    apply Forall_forall. intros out Hout. apply Forall_forall. intros kept Hkept.
    by apply Hcross.
  - intros Hle. rewrite take_ge by lia. done.
Qed.


Lemma mean_is_Some' (l : list Q) : l ≠ [] → is_Some (mean l).
Proof. destruct l; [done|]. by eexists. Qed.

Lemma groupby_agg_Forall {A V} `{KeyOrdLaws K, EqDecision K, !RelDecision (@key_le K _)}
    (key : A → K) (agg : list A → V) (P : K * V → Prop) (df : list A) :
  (∀ k g, g ≠ [] → P (k, agg g)) → Forall P (groupby_agg key agg df).
Proof.
  intros HP. unfold groupby_agg. apply Forall_fmap, Forall_forall.
  intros kg Hkg%groupby_nonempty. simpl. by apply HP.
Qed.

(** ** float64 rounding *)

Lemma pow2_pos (k : Z) : (0 < 2 ^ k)%Q.
Proof. by apply Qpower_0_lt. Qed.

Lemma pow2_add (a b : Z) : (2 ^ (a + b) == 2 ^ a * 2 ^ b)%Q.
Proof. by apply Qpower_plus. Qed.

Lemma pow2_le (a b : Z) : (a ≤ b)%Z → (2 ^ a <= 2 ^ b)%Q.
Proof. intros. by apply Qpower_le_compat_l. Qed.

Lemma pow2_Z (n : Z) : (0 ≤ n)%Z → (inject_Z (2 ^ n) == 2 ^ n)%Q.
Proof. intros. by rewrite Zpower_Qpower. Qed.

Lemma Qmult_le_pow2 (a b : Q) (e : Z) : (a <= b → a * 2 ^ e <= b * 2 ^ e)%Q.
Proof.
  intros. apply Qmult_le_compat_r; [done|]. apply Qlt_le_weak, pow2_pos.
Qed.

Lemma Qdiv_le_pow2 (a b : Q) (e : Z) : (a <= b → a / 2 ^ e <= b / 2 ^ e)%Q.
Proof.
  intros. apply Qmult_le_compat_r; [done|].
  apply Qlt_le_weak, Qinv_lt_0_compat, pow2_pos.
Qed.

Lemma Qdiv_mult_pow2 (a : Q) (e : Z) : (a / 2 ^ e * 2 ^ e == a)%Q.
Proof. pose proof (pow2_pos e). field. lra. Qed.

Lemma Qmult_div_pow2 (a : Q) (e : Z) : (a * 2 ^ e / 2 ^ e == a)%Q.
Proof. pose proof (pow2_pos e). field. lra. Qed.

Lemma ilog2_spec (x : Q) :
  (0 < x)%Q → (2 ^ ilog2 x <= x)%Q ∧ (x < 2 ^ (ilog2 x + 1))%Q.
Proof.
  intros Hx. unfold ilog2.
  destruct x as [n d]. simpl Qnum. simpl Qden.
  assert (0 < n)%Z as Hn.
  { unfold Qlt in Hx. simpl in Hx. lia. }
  set (a := Z.log2 n). set (b := Z.log2 (Z.pos d)).
  destruct (Z.log2_spec n Hn) as [Ha1 Ha2]. fold a in Ha1, Ha2.
  destruct (Z.log2_spec (Z.pos d) ltac:(lia)) as [Hb1 Hb2]. fold b in Hb1, Hb2.
  assert (0 ≤ a)%Z as Ha0 by apply Z.log2_nonneg.
  assert (0 ≤ b)%Z as Hb0 by apply Z.log2_nonneg.
  assert (n # d == inject_Z n / inject_Z (Z.pos d))%Q as Hnd
    by apply Qmake_Qdiv.
  assert (0 < inject_Z (Z.pos d))%Q as Hd by (unfold Qlt; simpl; lia).
  assert (2 ^ a <= inject_Z n)%Q as Qa1.
  { rewrite <-pow2_Z by done. by rewrite <-Zle_Qle. }
  assert (inject_Z n < 2 ^ (a + 1))%Q as Qa2.
  { rewrite <-pow2_Z by lia. rewrite <-Zlt_Qlt. by rewrite <-Z.add_1_r in Ha2. }
  assert (2 ^ b <= inject_Z (Z.pos d))%Q as Qb1.
  { rewrite <-pow2_Z by done. by rewrite <-Zle_Qle. }
  assert (inject_Z (Z.pos d) < 2 ^ (b + 1))%Q as Qb2.
  { rewrite <-pow2_Z by lia. rewrite <-Zlt_Qlt. by rewrite <-Z.add_1_r in Hb2. }
  destruct (Qle_bool (2 ^ (a - b)) (n # d)) eqn:Hcmp.
  - apply Qle_bool_iff in Hcmp. split; [done|].
    rewrite Hnd. apply Qlt_shift_div_r; [done|].
    eapply Qlt_le_trans; [exact Qa2|].
    replace (a + 1)%Z with ((a - b + 1) + b)%Z by lia.
    rewrite pow2_add. apply Qmult_le_l; [apply pow2_pos|done].
  - assert (¬ (2 ^ (a - b) <= n # d)%Q) as Hlt
      by (rewrite <-Qle_bool_iff, Hcmp; done).
    apply Qnot_le_lt in Hlt. split.
    + rewrite Hnd. apply Qle_shift_div_l; [done|].
      eapply Qle_trans; [|exact Qa1].
      replace a with ((a - b - 1) + (b + 1))%Z at 2 by lia.
      rewrite pow2_add. apply Qmult_le_l; [apply pow2_pos|].
      by apply Qlt_le_weak.
    + by replace (a - b - 1 + 1)%Z with (a - b)%Z by lia.
Qed.

Lemma rne_bounds (x : Q) : (Qfloor x ≤ rne x ≤ Qfloor x + 1)%Z.
Proof.
  unfold rne. destruct (_ ?= _)%Q; [destruct (Z.even _)|..]; lia.
Qed.

(** Rounding to an integer does not pass an integer. *)
Lemma rne_lower (M : Z) (x : Q) : (inject_Z M <= x)%Q → (M ≤ rne x)%Z.
Proof.
  intros HM. apply Qfloor_resp_le in HM. rewrite Qfloor_Z in HM.
  pose proof (rne_bounds x). lia.
Qed.

Lemma rne_upper (M : Z) (x : Q) : (x <= inject_Z M)%Q → (rne x ≤ M)%Z.
Proof.
  intros HM. pose proof (Qfloor_resp_le _ _ HM) as Hf. rewrite Qfloor_Z in Hf.
  pose proof (rne_bounds x) as Hb.
  destruct (decide (Qfloor x = M)) as [Heq|Hne]; [|lia].
  unfold rne. rewrite Heq.
  destruct (Qcompare_spec (x - inject_Z M) (1 # 2)) as [H|H|H]; [lra|done|lra].
Qed.

Section round_pos.
Variable x : Q.
Hypothesis x_pos : (0 < x)%Q.

Lemma ulp_exp_min : (-1074 ≤ ulp_exp x)%Z.
Proof. unfold ulp_exp. lia. Qed.

Lemma scaled_lt : (x / 2 ^ ulp_exp x < 2 ^ 53)%Q.
Proof.
  destruct (ilog2_spec x x_pos) as [_ Hup].
  apply Qlt_shift_div_r; [apply pow2_pos|].
  eapply Qlt_le_trans; [exact Hup|].
  rewrite <-pow2_add. apply pow2_le. unfold ulp_exp. lia.
Qed.

Lemma scaled_ge : (-1074 < ulp_exp x)%Z → (2 ^ 52 <= x / 2 ^ ulp_exp x)%Q.
Proof.
  intros He. destruct (ilog2_spec x x_pos) as [Hlo _].
  apply Qle_shift_div_l; [apply pow2_pos|].
  eapply Qle_trans; [|exact Hlo].
  rewrite <-pow2_add. apply pow2_le. unfold ulp_exp in *. lia.
Qed.

Lemma round_pos_nonneg : (0 <= round_pos x)%Q.
Proof.
  unfold round_pos. apply Qmult_le_0_compat; [|apply Qlt_le_weak, pow2_pos].
  change 0%Q with (inject_Z 0). rewrite <-Zle_Qle. apply rne_lower.
  change (inject_Z 0) with 0%Q. apply Qle_shift_div_l; [apply pow2_pos|].
  lra.
Qed.

Lemma round_pos_float : float64_value (round_pos x).
Proof.
  exists (rne (x / 2 ^ ulp_exp x)), (ulp_exp x).
  split; [apply ulp_exp_min|]. split; [|reflexivity].
  assert (0 ≤ rne (x / 2 ^ ulp_exp x))%Z.
  { apply rne_lower. change (inject_Z 0) with 0%Q.
    apply Qle_shift_div_l; [apply pow2_pos|]. lra. }
  assert (rne (x / 2 ^ ulp_exp x) ≤ 2 ^ 53)%Z.
  { apply rne_upper. rewrite pow2_Z by lia. apply Qlt_le_weak, scaled_lt. }
  lia.
Qed.

(** A float64 of finer or equal exponent is a whole multiple of the last
    place of [x]. *)
Lemma float_on_grid (b : Q) (m e : Z) :
  (ulp_exp x ≤ e)%Z → (b == inject_Z m * 2 ^ e)%Q →
  (b / 2 ^ ulp_exp x == inject_Z (m * 2 ^ (e - ulp_exp x)))%Q.
Proof.
  intros He Hb. rewrite inject_Z_mult, pow2_Z by lia. rewrite Hb.
  replace e with ((e - ulp_exp x) + ulp_exp x)%Z at 1 by lia.
  rewrite pow2_add, Qmult_assoc. apply Qmult_div_pow2.
Qed.

(** A float64 of coarser last place than [x] is at most [2^52] last places
    of [x]. *)
Lemma float_below_grid (b : Q) (m e : Z) :
  (e < ulp_exp x)%Z → (Z.abs m ≤ 2 ^ 53)%Z → (b == inject_Z m * 2 ^ e)%Q →
  (b <= 2 ^ 52 * 2 ^ ulp_exp x)%Q.
Proof.
  intros He Hm Hb. rewrite Hb.
  eapply Qle_trans; [apply (Qmult_le_pow2 _ (2 ^ 53))|].
  { rewrite <-pow2_Z by lia. rewrite <-Zle_Qle. lia. }
  rewrite <-!pow2_add. apply pow2_le. lia.
Qed.

Lemma round_pos_upper (b : Q) :
  float64_value b → (x <= b)%Q → (round_pos x <= b)%Q.
Proof.
  intros (m & e & He & Hm & Hb) Hxb. unfold round_pos.
  destruct (decide (ulp_exp x ≤ e)%Z) as [Hge|Hlt].
  - pose proof (float_on_grid b m e Hge Hb) as Hgrid.
    assert (rne (x / 2 ^ ulp_exp x) ≤ m * 2 ^ (e - ulp_exp x))%Z as Hr.
    { apply rne_upper. rewrite <-Hgrid. by apply Qdiv_le_pow2. }
    rewrite <-(Qdiv_mult_pow2 b (ulp_exp x)), Hgrid.
    apply Qmult_le_pow2. by rewrite <-Zle_Qle.
  - assert (2 ^ 52 <= x / 2 ^ ulp_exp x)%Q as Hnormal by (apply scaled_ge; lia).
    pose proof (float_below_grid b m e ltac:(lia) Hm Hb) as Hb52.
    assert (rne (x / 2 ^ ulp_exp x) ≤ 2 ^ 52)%Z as Hr.
    { apply rne_upper. rewrite pow2_Z by lia.
      apply Qle_shift_div_r; [apply pow2_pos|]. lra. }
    eapply Qle_trans; [|exact Hxb].
    apply Qle_trans with (x / 2 ^ ulp_exp x * 2 ^ ulp_exp x)%Q;
      [|rewrite Qdiv_mult_pow2; apply Qle_refl].
    apply Qmult_le_pow2. eapply Qle_trans; [|exact Hnormal].
    rewrite <-(pow2_Z 52) by lia. by rewrite <-Zle_Qle.
Qed.

Lemma round_pos_lower (b : Q) :
  float64_value b → (b <= x)%Q → (b <= round_pos x)%Q.
Proof.
  intros (m & e & He & Hm & Hb) Hbx. unfold round_pos.
  destruct (decide (ulp_exp x ≤ e)%Z) as [Hge|Hlt].
  - pose proof (float_on_grid b m e Hge Hb) as Hgrid.
    assert (m * 2 ^ (e - ulp_exp x) ≤ rne (x / 2 ^ ulp_exp x))%Z as Hr.
    { apply rne_lower. rewrite <-Hgrid. by apply Qdiv_le_pow2. }
    rewrite <-(Qdiv_mult_pow2 b (ulp_exp x)), Hgrid.
    apply Qmult_le_pow2. by rewrite <-Zle_Qle.
  - assert (2 ^ 52 <= x / 2 ^ ulp_exp x)%Q as Hnormal by (apply scaled_ge; lia).
    pose proof (float_below_grid b m e ltac:(lia) Hm Hb) as Hb52.
    assert (2 ^ 52 ≤ rne (x / 2 ^ ulp_exp x))%Z as Hr.
    { apply rne_lower. by rewrite pow2_Z by lia. }
    eapply Qle_trans; [exact Hb52|]. apply Qmult_le_pow2.
    rewrite <-(pow2_Z 52) by lia. by rewrite <-Zle_Qle.
Qed.

End round_pos.

Lemma float64_value_opp (b : Q) : float64_value b → float64_value (- b).
Proof.
  intros (m & e & He & Hm & Hb). exists (- m)%Z, e.
  split; [done|]. split; [lia|]. rewrite Hb, inject_Z_opp. ring.
Qed.

Lemma float64_value_double (b : Q) : float64_value b → float64_value (2 * b).
Proof.
  intros (m & e & He & Hm & Hb). exists m, (e + 1)%Z.
  split; [lia|]. split; [done|]. rewrite Hb, pow2_add.
  change (2 ^ 1)%Q with 2%Q. ring.
Qed.

Lemma float64_value_0 : float64_value 0.
Proof. exists 0%Z, 0%Z. split; [lia|]. split; [lia|]. reflexivity. Qed.

Lemma float64_value_proper (a b : Q) : (a == b)%Q → float64_value a → float64_value b.
Proof.
  intros Hab (m & e & He & Hm & Ha). exists m, e. by rewrite <-Hab.
Qed.

Lemma round64_cases (x : Q) :
  (0 < x ∧ round64 x == round_pos (Qred x))%Q
  ∨ (x == 0 ∧ round64 x == 0)%Q
  ∨ (x < 0 ∧ round64 x == - round_pos (- Qred x))%Q.
Proof.
  unfold round64. cbv zeta. rewrite Qred_correct.
  destruct (Qcompare_spec 0 (Qred x)) as [H|H|H]; rewrite Qred_correct in H.
  - right; left. split; [by symmetry|reflexivity].
  - left. split; [done|reflexivity].
  - right; right. split; [done|reflexivity].
Qed.

#[global] Instance round64_proper : Proper (Qeq ==> eq) round64.
Proof. intros x y Hxy. unfold round64. by rewrite (Qred_complete x y Hxy). Qed.

(** The result of a rounding is a float64. *)
Lemma round64_float (x : Q) : float64_value (round64 x).
Proof.
  destruct (round64_cases x) as [[Hx Hr]|[[Hx Hr]|[Hx Hr]]];
    apply (float64_value_proper _ _ (Qeq_sym _ _ Hr)).
  - apply round_pos_float. by rewrite Qred_correct.
  - apply float64_value_0.
  - apply float64_value_opp, round_pos_float. rewrite Qred_correct. lra.
Qed.

(** Rounding does not pass a float64: a float64 bound on a number also
    bounds the rounded number. *)
Lemma round64_upper (x b : Q) :
  float64_value b → (x <= b)%Q → (round64 x <= b)%Q.
Proof.
  intros Hb Hxb.
  destruct (round64_cases x) as [[Hx Hr]|[[Hx Hr]|[Hx Hr]]]; rewrite Hr.
  - apply round_pos_upper; rewrite ?Qred_correct; done.
  - lra.
  - assert (- b <= round_pos (- Qred x))%Q; [|lra].
    apply round_pos_lower; rewrite ?Qred_correct;
      [lra|by apply float64_value_opp|lra].
Qed.

Lemma round64_lower (x b : Q) :
  float64_value b → (b <= x)%Q → (b <= round64 x)%Q.
Proof.
  intros Hb Hxb.
  destruct (round64_cases x) as [[Hx Hr]|[[Hx Hr]|[Hx Hr]]]; rewrite Hr.
  - apply round_pos_lower; rewrite ?Qred_correct; done.
  - lra.
  - assert (round_pos (- Qred x) <= - b)%Q; [|lra].
    apply round_pos_upper; rewrite ?Qred_correct;
      [lra|by apply float64_value_opp|lra].
Qed.

(** A float64 rounds to itself. *)
Lemma round64_id (b : Q) : float64_value b → (round64 b == b)%Q.
Proof.
  intros Hb. apply Qle_antisym.
  - apply round64_upper; [done|apply Qle_refl].
  - apply round64_lower; [done|apply Qle_refl].
Qed.

(** *** Rounding is to a nearest float64 *)

(** No integer is nearer than the rounded one. *)
Lemma rne_nearest (y : Q) (M : Z) :
  (Qabs (inject_Z (rne y) - y) <= Qabs (inject_Z M - y))%Q.
Proof.
  pose proof (Qfloor_le y) as Hlo. pose proof (Qlt_floor y) as Hhi.
  rewrite inject_Z_plus in Hhi. change (inject_Z 1) with 1%Q in Hhi.
  assert (inject_Z M <= inject_Z (Qfloor y)
          ∨ inject_Z (Qfloor y) + 1 <= inject_Z M)%Q as HM.
  { destruct (decide (M ≤ Qfloor y)%Z) as [Hle|Hgt].
    - left. by rewrite <-Zle_Qle.
    - right. change 1%Q with (inject_Z 1). rewrite <-inject_Z_plus, <-Zle_Qle.
      lia. }
  assert (inject_Z (rne y) == inject_Z (Qfloor y)
          ∧ y - inject_Z (Qfloor y) <= 1 # 2
          ∨ inject_Z (rne y) == inject_Z (Qfloor y) + 1
            ∧ 1 # 2 <= y - inject_Z (Qfloor y))%Q as Hr.
  { unfold rne.
    destruct (Qcompare_spec (y - inject_Z (Qfloor y)) (1 # 2)) as [Hc|Hc|Hc].
    - destruct (Z.even (Qfloor y)).
      + left. split; [reflexivity|lra].
      + right. rewrite inject_Z_plus. split; [reflexivity|lra].
    - left. split; [reflexivity|lra].
    - right. rewrite inject_Z_plus. split; [reflexivity|lra]. }
  generalize dependent (inject_Z (rne y)). generalize dependent (inject_Z M).
  generalize dependent (inject_Z (Qfloor y)). intros f Hlo Hhi m HM r Hr.
  apply Qabs_case; intros; apply Qabs_case; intros; lra.
Qed.

Lemma Qabs_scale (a P : Q) : (0 < P)%Q → (Qabs (a * P) == Qabs a * P)%Q.
Proof.
  intros HP. rewrite Qabs_Qmult. rewrite (Qabs_pos P); [reflexivity|lra].
Qed.

Lemma round_pos_nearest (x b : Q) :
  (0 < x)%Q → float64_value b →
  (Qabs (round_pos x - x) <= Qabs (b - x))%Q.
Proof.
  intros Hx (m & e & He & Hm & Hb). unfold round_pos.
  pose proof (pow2_pos (ulp_exp x)) as HP.
  set (y := (x / 2 ^ ulp_exp x)%Q).
  assert (y * 2 ^ ulp_exp x == x)%Q as Hy by apply Qdiv_mult_pow2.
  assert (Qabs (inject_Z (rne y) - y) <= Qabs (b / 2 ^ ulp_exp x - y))%Q as Hscaled.
  { destruct (decide (ulp_exp x ≤ e)%Z) as [Hge|Hlt].
    - rewrite (float_on_grid x b m e Hge Hb). apply rne_nearest.
    - assert (2 ^ 52 <= y)%Q as Hnormal by (apply scaled_ge; [done|lia]).
      pose proof (float_below_grid x b m e ltac:(lia) Hm Hb) as Hb52.
      assert (b / 2 ^ ulp_exp x <= 2 ^ 52)%Q as Hb52'.
      { apply Qle_shift_div_r; [done|]. done. }
      pose proof (rne_nearest y (2 ^ 52)) as Hnear.
      rewrite pow2_Z in Hnear by lia.
      eapply Qle_trans; [exact Hnear|].
      apply Qabs_case; intros; apply Qabs_case; intros; lra. }
  assert (Hrne : ∃ r, r = inject_Z (rne y)) by by eexists.
  destruct Hrne as [r Hr]. rewrite <-Hr in *.
  set (P := (2 ^ ulp_exp x)%Q) in *. clearbody P y. clear Hr Hb.
  rewrite <-Hy.
  assert (r * P - y * P == (r - y) * P)%Q as -> by ring.
  assert (b - y * P == (b / P - y) * P)%Q as -> by (field; lra).
  rewrite !Qabs_scale by done.
  apply Qmult_le_compat_r; [done|lra].
Qed.

Lemma Qabs_le_proper (x x' r r' b : Q) :
  (x' == x)%Q → (r' == r)%Q →
  (Qabs (r' - x') <= Qabs (b - x') → Qabs (r - x) <= Qabs (b - x))%Q.
Proof. by intros -> ->. Qed.

(** [round64 x] is a float64 nearest to [x]. *)
Lemma round64_nearest (x : Q) : nearest_float64 x (round64 x).
Proof.
  split; [apply round64_float|]. intros b Hb.
  destruct (round64_cases x) as [[Hx Hr]|[[Hx Hr]|[Hx Hr]]].
  - apply (Qabs_le_proper x (Qred x) _ _ b (Qred_correct x) (Qeq_sym _ _ Hr)).
    apply round_pos_nearest; [by rewrite Qred_correct|done].
  - rewrite Hr, Hx. apply Qabs_case; intros; apply Qabs_case; intros; lra.
  - apply (Qabs_le_proper x (Qred x) _ _ b (Qred_correct x) (Qeq_sym _ _ Hr)).
    assert (0 < - Qred x)%Q as Hpos by (rewrite Qred_correct; lra).
    pose proof (round_pos_nearest (- Qred x) (- b) Hpos
                  (float64_value_opp b Hb)) as Hnear.
    assert (- round_pos (- Qred x) - Qred x
            == - (round_pos (- Qred x) - - Qred x))%Q as -> by ring.
    assert (b - Qred x == - (- b - - Qred x))%Q as -> by ring.
    by rewrite !Qabs_opp.
Qed.

(** ** Medians in float64 *)

#[global] Instance Qle_transitive : Transitive Qle.
Proof. intros x y z. apply Qle_trans. Qed.

#[global] Instance Qle_total' : Total Qle.
Proof. intros x y. destruct (Qlt_le_dec x y) as [?%Qlt_le_weak|?]; auto. Qed.

Lemma filter_all {A} (P : A → Prop) `{∀ x, Decision (P x)} (l : list A) :
  Forall P l → filter P l = l.
Proof.
  induction 1 as [|x l Hx _ IH]; [done|].
  by rewrite filter_cons_True, IH.
Qed.

(** In a sorted list, every element from a position on is at least the
    element at that position. *)
Lemma sorted_suffix_ge (v : list Q) k x :
  StronglySorted Qle v → v !! k = Some x → Forall (λ y, x <= y)%Q (drop k v).
Proof.
  intros Hs Hk. rewrite <-(take_drop_middle v k x Hk) in Hs.
  apply StronglySorted_app in Hs as (_ & _ & Hs).
  apply StronglySorted_inv in Hs as [_ Hs].
  rewrite (drop_S v x k Hk). constructor; [apply Qle_refl|done].
Qed.

Lemma length_filter_suffix {A} (P : A → Prop) `{∀ x, Decision (P x)}
    (v : list A) k :
  Forall P (drop k v) → (length v - k ≤ length (filter P v))%nat.
Proof.
  intros Hall. rewrite <-(take_drop k v) at 2.
  rewrite filter_app, length_app, (filter_all P (drop k v) Hall), length_drop.
  lia.
Qed.

(** In a sorted list, every element up to a position is at most the element
    at that position. *)
Lemma sorted_prefix_le (v : list Q) k x :
  StronglySorted Qle v → v !! k = Some x → Forall (λ y, y <= x)%Q (take (S k) v).
Proof.
  intros Hs Hk. rewrite <-(take_drop_middle v k x Hk) in Hs.
  apply StronglySorted_app in Hs as (Hcross & _ & _).
  rewrite (take_S_r v k x Hk). apply Forall_app. split.
  - apply Forall_forall. intros y Hy. apply Hcross; [done|left].
  - apply Forall_singleton, Qle_refl.
Qed.

Lemma length_filter_prefix {A} (P : A → Prop) `{∀ x, Decision (P x)}
    (v : list A) k :
  Forall P (take k v) → (length (take k v) ≤ length (filter P v))%nat.
Proof.
  intros Hall. rewrite <-(take_drop k v) at 2.
  rewrite filter_app, length_app, (filter_all P (take k v) Hall). lia.
Qed.

Lemma half_spec (n : nat) :
  if Nat.odd n then n = (2 * (n / 2) + 1)%nat else n = (2 * (n / 2))%nat.
Proof.
  destruct (Nat.odd n) eqn:Hodd.
  - apply Nat.odd_spec in Hodd as [k Hk].
    rewrite <-(Nat.div_unique n 2 k 1); lia.
  - assert (Nat.even n = true) as Heven
      by (rewrite <-Nat.negb_odd, Hodd; done).
    apply Nat.even_spec in Heven as [k Hk].
    rewrite <-(Nat.div_unique n 2 k 0); lia.
Qed.

(** The float64 mean of two float64 values lies between them. *)
Lemma mid64_bounds (a b : Q) :
  float64_value a → float64_value b → (a <= b)%Q →
  (a <= mid64 a b)%Q ∧ (mid64 a b <= b)%Q.
Proof.
  intros Ha Hb Hab. unfold mid64. split.
  - apply round64_lower; [done|].
    assert (2 * a <= round64 (a + b))%Q
      by (apply round64_lower; [by apply float64_value_double|lra]).
    apply Qle_shift_div_l; [done|]. lra.
  - apply round64_upper; [done|].
    assert (round64 (a + b) <= 2 * b)%Q
      by (apply round64_upper; [by apply float64_value_double|lra]).
    apply Qle_shift_div_r; [done|]. lra.
Qed.

(** The float64 median of float64 values is a median of them. *)
Lemma median64_is_median (l : list float64) (m : Q) :
  Forall float64_value (dropna l) → median64 l = Some m →
  is_median m (dropna l).
Proof.
  unfold median64, is_median. set (v := merge_sort Qle (dropna l)).
  assert (v ≡ₚ dropna l) as Hperm by apply merge_sort_Permutation.
  assert (StronglySorted Qle v) as Hsorted
    by (apply StronglySorted_merge_sort; apply _).
  rewrite <-Hperm. clearbody v. clear Hperm. intros Hfloat Hm.
  pose proof (half_spec (length v)) as Hhalf.
  assert (∃ a b, v !! (length v - S (length v `div` 2))%nat = Some a
                 ∧ v !! (length v `div` 2)%nat = Some b
                 ∧ (a <= m)%Q ∧ (m <= b)%Q) as (a & b & Ha & Hb & Ham & Hmb).
  { destruct (Nat.odd (length v)).
    - exists m, m. replace (length v - S (length v `div` 2))%nat
        with (length v `div` 2)%nat by lia.
      split_and!; try done; apply Qle_refl.
    - replace (length v - S (length v `div` 2))%nat
        with (length v `div` 2 - 1)%nat by lia.
      destruct (v !! (length v `div` 2 - 1)%nat) as [a|] eqn:Ha; [|done].
      destruct (v !! (length v `div` 2)%nat) as [b|] eqn:Hb; [|done].
      exists a, b. injection Hm as <-.
      pose proof (sorted_suffix_ge v _ a Hsorted Ha) as Hge.
      assert (b ∈ drop (length v `div` 2 - 1) v) as Hin.
      { apply lookup_lt_Some in Ha as Hlt.
        apply (list_elem_of_lookup_2 _ (length v `div` 2 - (length v `div` 2 - 1))).
        rewrite lookup_drop. rewrite <-Hb. f_equal. lia. }
      rewrite Forall_forall in Hge. specialize (Hge b Hin).
      rewrite Forall_forall in Hfloat.
      destruct (mid64_bounds a b) as [? ?];
        [by eapply Hfloat, list_elem_of_lookup_2
        |by eapply Hfloat, list_elem_of_lookup_2|done|].
      done. }
  apply lookup_lt_Some in Ha as Hlta. apply lookup_lt_Some in Hb as Hltb.
  split.
  - pose proof (sorted_prefix_le v _ a Hsorted Ha) as Hle.
    assert (Forall (λ x, x <= m)%Q (take (S (length v - S (length v `div` 2))) v))
      as Hall.
    { eapply Forall_impl; [exact Hle|]. simpl. intros y Hy. lra. }
    pose proof (length_filter_prefix (λ x, x <= m)%Q v _ Hall) as Hlen.
    rewrite length_take in Hlen. destruct (Nat.odd (length v)); lia.
  - pose proof (sorted_suffix_ge v _ b Hsorted Hb) as Hge.
    assert (Forall (λ x, m <= x)%Q (drop (length v `div` 2) v)) as Hall.
    { eapply Forall_impl; [exact Hge|]. simpl. intros y Hy. lra. }
    pose proof (length_filter_suffix (λ x, m <= x)%Q v _ Hall).
    destruct (Nat.odd (length v)); lia.
Qed.

(** The float64 median of a series holding at least one number is a
    number. *)
Lemma median64_is_Some (l : list float64) : dropna l ≠ [] → is_Some (median64 l).
Proof.
  intros Hl. unfold median64.
  set (v := merge_sort Qle (dropna l)).
  assert (length v ≠ 0%nat) as Hn.
  { unfold v. rewrite merge_sort_Permutation. by destruct (dropna l). }
  assert (length v `div` 2 < length v)%nat as Hmid
    by (apply Nat.div_lt; lia).
  destruct (Nat.odd (length v)) eqn:Hodd.
  - by apply lookup_lt_is_Some_2.
  - destruct (lookup_lt_is_Some_2 v (length v `div` 2 - 1)) as [a ->]; [lia|].
    destruct (lookup_lt_is_Some_2 v (length v `div` 2)) as [b ->]; [done|].
    by eexists.
Qed.

(** A column of numbers loses nothing when NaN is dropped, and comparing
    its cells with a number counts what comparing its numbers counts. *)
Lemma dropna_column {A} (col : A → float64) (P : Q → Prop) (rows : list A) :
  Forall (λ r, ∃ x, col r = Some x ∧ P x) rows →
  length (dropna (col <$> rows)) = length rows
  ∧ Forall P (dropna (col <$> rows))
  ∧ ∀ m, length (filter (λ x, m <= x)%Q (dropna (col <$> rows)))
         = length (filter (λ r, fge (col r) (Some m)) rows).
Proof.
  induction 1 as [|r rows (x & Hx & HP) _ (IH1 & IH2 & IH3)];
    [split_and!; [done|constructor|done]|].
  rewrite fmap_cons, Hx.
  change (dropna (Some x :: (col <$> rows))) with (x :: dropna (col <$> rows)).
  split_and!; [simpl; by rewrite IH1|by constructor|].
  intros m. destruct (decide (m <= x)%Q) as [Hle|Hle].
  - rewrite (filter_cons_True (λ x, m <= x)%Q) by done.
    rewrite (filter_cons_True (λ r, fge (col r) (Some m))).
    + simpl. by rewrite IH3.
    + rewrite Hx. simpl. by apply bool_decide_pack.
  - rewrite (filter_cons_False (λ x, m <= x)%Q) by done.
    rewrite (filter_cons_False (λ r, fge (col r) (Some m))); [apply IH3|].
    rewrite Hx. simpl. by intros ?%bool_decide_unpack.
Qed.

(** At least half of the rows of a float64 column are at or above its
    median. *)
Lemma median64_split {A} (col : A → float64) (rows : list A) (m : Q) :
  Forall (λ r, ∃ x, col r = Some x ∧ float64_value x) rows →
  median64 (col <$> rows) = Some m →
  (length rows ≤ 2 * length (filter (λ r, fge (col r) (Some m)) rows))%nat.
Proof.
  intros Hnum Hm.
  destruct (dropna_column col float64_value rows Hnum) as (Hlen & Hfloat & Hcount).
  destruct (median64_is_median _ _ Hfloat Hm) as [_ Hhalf].
  rewrite Hlen, Hcount in Hhalf. done.
Qed.

Lemma median64_column_is_Some {A} (col : A → float64) (rows : list A) r :
  r ∈ rows → is_Some (col r) → is_Some (median64 (col <$> rows)).
Proof.
  intros Hr [x Hx]. apply median64_is_Some.
  assert (x ∈ dropna (col <$> rows)) as Hin.
  { apply list_elem_of_omap. exists (Some x). split; [|done].
    rewrite <-Hx. by apply list_elem_of_fmap_2. }
  intros Hnil. rewrite Hnil in Hin. by apply not_elem_of_nil in Hin.
Qed.

(** ** Player archetypes *)

Lemma archetype_agg_fmap `{GroupSum} df_player :
  archetype_agg df_player
  = (λ p, Usage.Row p
            (mean64 (Player.MINUTES_PLAYED <$> games_of p df_player))
            (mean64 (Player.PTS <$> games_of p df_player))
            (length (games_of p df_player)))
    <$> sorted_unique (Player.PLAYER_NAME <$> df_player).
Proof.
  unfold archetype_agg, groupby. rewrite <-list_fmap_compose.
  apply list_fmap_ext. intros _ p _. simpl. unfold count, games_of.
  by rewrite length_fmap.
Qed.

Lemma fge_Some_r (a : float64) (y : Q) :
  fge a (Some y) → ∃ x, a = Some x ∧ (y <= x)%Q.
Proof.
  destruct a as [x|]; simpl; [|done].
  intros ?%bool_decide_unpack. by exists x.
Qed.

(** The average of a column over a non-empty group: the accumulated sum
    divided by the number of rows, rounded to float64. *)
Lemma mean64_Some `{GroupSum} {A} (col : A → Q) (g : list A) :
  g ≠ [] → mean64 (col <$> g) = Some (round64 (group_sum (col <$> g) / Qlen g)).
Proof.
  intros Hg. unfold mean64. rewrite Qlen_fmap. by destruct g.
Qed.

Lemma long_career_nonempty {A} (g : list A) : (30 ≤ length g)%nat → g ≠ [].
Proof. intros Hg ->. simpl in Hg. lia. Qed.

(** What it means for a Step 1 row to survive Step 2. *)
Lemma elem_of_retained `{GroupSum} df_player r :
  r ∈ retained df_player ↔
  ∃ p,
    r = Usage.Row p
          (Some (round64 (group_sum (Player.MINUTES_PLAYED <$> games_of p df_player)
                          / Qlen (games_of p df_player))))
          (Some (round64 (group_sum (Player.PTS <$> games_of p df_player)
                          / Qlen (games_of p df_player))))
          (length (games_of p df_player))
    ∧ (30 ≤ length (games_of p df_player))%nat
    ∧ (8 <= round64 (group_sum (Player.MINUTES_PLAYED <$> games_of p df_player)
                     / Qlen (games_of p df_player)))%Q.
Proof.
  unfold retained, remove_low_sample.
  rewrite list_elem_of_filter, archetype_agg_fmap, list_elem_of_fmap. split.
  - intros [[Hgames Hfge] (p & -> & Hp)]. simpl in Hgames, Hfge.
    pose proof (long_career_nonempty _ Hgames) as Hne.
    rewrite mean64_Some in Hfge by done.
    exists p. rewrite !mean64_Some by done. split_and!; [done..|].
    simpl in Hfge. by apply bool_decide_unpack in Hfge.
  - intros (p & -> & Hgames & Hm8).
    pose proof (long_career_nonempty _ Hgames) as Hne. split.
    + simpl. split; [done|]. by apply bool_decide_pack.
    + exists p. rewrite !mean64_Some by done. split; [done|].
      apply elem_of_sorted_unique.
      destruct (games_of p df_player) as [|r g] eqn:Hg; [done|].
      assert (r ∈ games_of p df_player) as Hr by (rewrite Hg; left).
      apply list_elem_of_filter in Hr as [<- Hr]. by apply list_elem_of_fmap_2.
Qed.


Lemma archetype_data_stats `{GroupSum} df_player :
  Archetype.stats <$> archetype_data df_player = retained df_player.
Proof.
  unfold archetype_data. rewrite <-list_fmap_compose.
  erewrite list_fmap_ext; [apply list_fmap_id|by intros].
Qed.

Lemma pts_per_min_retained (p : string) (m pts : Q) (n : nat) :
  (8 <= m)%Q →
  pts_per_min (Usage.Row p (Some m) (Some pts) n) = Some (round64 (pts / m)).
Proof.
  intros Hm. unfold pts_per_min, fdiv, checked_div. simpl.
  rewrite decide_False; [done|]. lra.
Qed.

(** C10. The division of Step 3 is evaluated on the retained rows only, and
    on each of them both averages are numbers and the average of the minutes
    is at least 8, hence positive: the guarded division takes its defined
    branch and points per minute is a number on every row of the result, the
    float64 nearest to the quotient. *)
Theorem efficiency_division_defined `{GroupSum} df_player :
  Archetype.stats <$> archetype_data df_player = retained df_player
  ∧ Forall (λ row, Archetype.PTS_PER_MIN row = pts_per_min (Archetype.stats row))
      (archetype_data df_player)
  ∧ Forall (λ r, ∃ m pts,
        Usage.AVG_MIN r = Some m ∧ Usage.AVG_PTS r = Some pts
        ∧ (8 <= m)%Q ∧ (0 < m)%Q
        ∧ checked_div pts m = Some (pts / m)%Q
        ∧ pts_per_min r = Some (round64 (pts / m)))
      (retained df_player)
  ∧ Forall (λ row, is_Some (Archetype.PTS_PER_MIN row))
      (archetype_data df_player).
Proof.
  assert (Forall (λ r, ∃ m pts,
        Usage.AVG_MIN r = Some m ∧ Usage.AVG_PTS r = Some pts
        ∧ (8 <= m)%Q ∧ (0 < m)%Q
        ∧ checked_div pts m = Some (pts / m)%Q
        ∧ pts_per_min r = Some (round64 (pts / m)))
      (retained df_player)) as Hdiv.
  { apply Forall_forall. intros r Hr.
    apply elem_of_retained in Hr as (p & -> & _ & Hm8).
    eexists _, _. simpl.
    split; [done|]. split; [done|]. split; [done|]. split; [lra|].
    split; [|by apply pts_per_min_retained].
    unfold checked_div. rewrite decide_False; [done|]. lra. }
  split_and!; [apply archetype_data_stats| |done|].
  - unfold archetype_data. apply Forall_fmap, Forall_forall. by intros.
  - unfold archetype_data. apply Forall_fmap.
    eapply Forall_impl; [exact Hdiv|]. simpl.
    intros r (m & pts & _ & _ & _ & _ & _ & ->). by eexists.
Qed.

(** The median of a series holding at least one number is a number. *)
Lemma median_is_Some (l : list float64) : dropna l ≠ [] → is_Some (median l).
Proof.
  intros Hl. unfold median.
  set (v := merge_sort Qle (dropna l)).
  assert (length v ≠ 0%nat) as Hn.
  { unfold v. rewrite merge_sort_Permutation. by destruct (dropna l). }
  assert (length v `div` 2 < length v)%nat as Hmid
    by (apply Nat.div_lt; lia).
  destruct (Nat.odd (length v)) eqn:Hodd.
  - by apply lookup_lt_is_Some_2.
  - destruct (lookup_lt_is_Some_2 v (length v `div` 2 - 1)) as [a ->]; [lia|].
    destruct (lookup_lt_is_Some_2 v (length v `div` 2)) as [b ->]; [done|].
    by eexists.
Qed.

Lemma dropna_elem_of (l : list float64) x : Some x ∈ l → x ∈ dropna l.
Proof. intros Hx. apply list_elem_of_omap. by exists (Some x). Qed.

Lemma median_column_is_Some {A} (col : A → float64) (rows : list A) r :
  r ∈ rows → is_Some (col r) → is_Some (median (col <$> rows)).
Proof.
  intros Hr [x Hx]. apply median_is_Some.
  assert (x ∈ dropna (col <$> rows)) as Hin.
  { apply dropna_elem_of. rewrite <-Hx. by apply list_elem_of_fmap_2. }
  intros Hnil. rewrite Hnil in Hin. by apply not_elem_of_nil in Hin.
Qed.

(** On numbers, [assign_archetype] is the label table. *)
Lemma assign_archetype_table (um em m e : Q) :
  assign_archetype (Some um) (Some em) (Some m) (Some e)
  = label_table (bool_decide (um <= m)%Q) (bool_decide (em <= e)%Q).
Proof.
  unfold assign_archetype, fge, flt, label_table.
  repeat case_bool_decide; simpl; try done; exfalso; lra.
Qed.

Lemma label_table_archetypes a b : label_table a b ∈ archetypes.
Proof.
  unfold archetypes. destruct a, b; simpl; rewrite !elem_of_cons; auto.
Qed.

(** Grouping a list by a label with finitely many values rearranges it. *)
Lemma concat_groups_cons {A} `{EqDecision L} (f : A → L) (labels : list L) x l :
  NoDup labels →
  concat ((λ lab, filter (λ y, f y = lab) (x :: l)) <$> labels)
  ≡ₚ (if decide (f x ∈ labels) then [x] else [])
     ++ concat ((λ lab, filter (λ y, f y = lab) l) <$> labels).
Proof.
  induction 1 as [|lab labels Hnotin _ IH]; [done|].
  rewrite !fmap_cons. simpl concat. rewrite IH.
  destruct (decide (f x = lab)) as [Hx|Hx].
  - rewrite filter_cons_True by done.
    rewrite (decide_True (P := f x ∈ lab :: labels)) by (subst; left).
    rewrite decide_False by (by subst). done.
  - rewrite filter_cons_False by done.
    destruct (decide (f x ∈ labels)) as [Hin|Hin].
    + rewrite (decide_True (P := f x ∈ lab :: labels)) by (by right).
      simpl. by rewrite Permutation_middle.
    + rewrite (decide_False (P := f x ∈ lab :: labels)); [done|].
      rewrite elem_of_cons. intros [?|?]; done.
Qed.

Lemma Permutation_concat_groups {A} `{EqDecision L} (f : A → L)
    (labels : list L) (l : list A) :
  NoDup labels → Forall (λ x, f x ∈ labels) l →
  l ≡ₚ concat ((λ lab, filter (λ y, f y = lab) l) <$> labels).
Proof.
  intros Hnd. induction 1 as [|x l Hx _ IH].
  - induction labels as [|lab labels IHl]; [done|].
    apply NoDup_cons in Hnd as [_ Hnd]. simpl. by apply IHl.
  - rewrite concat_groups_cons by done. rewrite decide_True by done.
    simpl. by apply Permutation_skip.
Qed.

(** The two columns the medians are taken of hold float64 values on every
    retained row. *)
Lemma retained_columns `{GroupSum} df_player :
  Forall (λ r, ∃ x, Usage.AVG_MIN r = Some x ∧ float64_value x)
    (retained df_player)
  ∧ Forall (λ r, ∃ x, pts_per_min r = Some x ∧ float64_value x)
      (retained df_player).
Proof.
  split; apply Forall_forall; intros r Hr;
    apply elem_of_retained in Hr as (p & -> & _ & Hm8).
  - eexists. split; [done|]. apply round64_float.
  - eexists. split; [by apply pts_per_min_retained|]. apply round64_float.
Qed.

Lemma archetype_data_columns `{GroupSum} df_player :
  (λ row, Usage.AVG_MIN (Archetype.stats row)) <$> archetype_data df_player
  = Usage.AVG_MIN <$> retained df_player
  ∧ Archetype.PTS_PER_MIN <$> archetype_data df_player
    = pts_per_min <$> retained df_player.
Proof.
  split.
  - by rewrite <-archetype_data_stats, <-list_fmap_compose.
  - unfold archetype_data. by rewrite <-list_fmap_compose.
Qed.

(** Every row of the result, read against the filtered player table. *)
Lemma archetype_data_rows `{GroupSum} df_player :
  let data := archetype_data df_player in
  let usage := dropna ((λ row, Usage.AVG_MIN (Archetype.stats row)) <$> data) in
  let efficiency := dropna (Archetype.PTS_PER_MIN <$> data) in
  Forall (λ row, ∃ m pts e um em,
      let g := games_of (player_of row) df_player in
      Usage.GAMES_PLAYED (Archetype.stats row) = length g
      ∧ m = round64 (group_sum (Player.MINUTES_PLAYED <$> g) / Qlen g)
      ∧ nearest_float64 (group_sum (Player.MINUTES_PLAYED <$> g) / Qlen g) m
      ∧ Usage.AVG_MIN (Archetype.stats row) = Some m
      ∧ pts = round64 (group_sum (Player.PTS <$> g) / Qlen g)
      ∧ nearest_float64 (group_sum (Player.PTS <$> g) / Qlen g) pts
      ∧ Usage.AVG_PTS (Archetype.stats row) = Some pts
      ∧ e = round64 (pts / m)
      ∧ nearest_float64 (pts / m) e
      ∧ Archetype.PTS_PER_MIN row = Some e
      ∧ usage_median (retained df_player) = Some um
      ∧ eff_median (retained df_player) = Some em
      ∧ is_median um usage
      ∧ is_median em efficiency
      ∧ Archetype.ARCHETYPE row
        = label_table (bool_decide (um <= m)%Q) (bool_decide (em <= e)%Q))
    data.
Proof.
  intros data usage efficiency.
  destruct (retained_columns df_player) as [Husage Heff].
  destruct (archetype_data_columns df_player) as [Hcol1 Hcol2].
  unfold usage, efficiency, data. rewrite Hcol1, Hcol2.
  unfold archetype_data. apply Forall_fmap, Forall_forall. intros r Hr.
  pose proof Hr as Hr'.
  apply elem_of_retained in Hr' as (p & Heq & _ & Hm8).
  destruct (median64_column_is_Some Usage.AVG_MIN (retained df_player) r)
    as [um Hum]; [done|by subst|].
  destruct (median64_column_is_Some pts_per_min (retained df_player) r)
    as [em Hem]; [done|subst; by rewrite pts_per_min_retained|].
  destruct (dropna_column _ _ _ Husage) as (_ & Hfloat1 & _).
  destruct (dropna_column _ _ _ Heff) as (_ & Hfloat2 & _).
  pose proof (median64_is_median _ _ Hfloat1 Hum) as Hmed1.
  pose proof (median64_is_median _ _ Hfloat2 Hem) as Hmed2.
  eexists _, _, _, um, em. unfold player_of, usage_median, eff_median. simpl.
  rewrite Hum, Hem. subst r. simpl.
  rewrite pts_per_min_retained by done.
  split_and!; try done; try apply round64_nearest.
  apply assign_archetype_table.
Qed.


(** ** Colour maps *)

(** A loop that stores one entry per item in each of two dicts. *)
Section two_dicts.
Context {A : Type} (k : A → string) (v1 v2 : A → string).

Lemma two_dicts_lookup_notin l acc key :
  key ∉ k <$> l →
  (foldl (store_both k v1 v2) acc l).1 !! key = acc.1 !! key
  ∧ (foldl (store_both k v1 v2) acc l).2 !! key = acc.2 !! key.
Proof.
  revert acc. induction l as [|x l IH]; intros acc Hkey; [done|].
  rewrite fmap_cons, not_elem_of_cons in Hkey. destruct Hkey as [Hx Hl].
  simpl. destruct (IH (store_both k v1 v2 acc x) Hl) as [-> ->]. unfold store_both. simpl.
  by rewrite !lookup_insert_ne.
Qed.

Lemma two_dicts_lookup_in l acc x :
  NoDup (k <$> l) → x ∈ l →
  (foldl (store_both k v1 v2) acc l).1 !! k x = Some (v1 x)
  ∧ (foldl (store_both k v1 v2) acc l).2 !! k x = Some (v2 x).
Proof.
  revert acc. induction l as [|y l IH]; intros acc Hnd Hx.
  { by apply not_elem_of_nil in Hx. }
  rewrite fmap_cons in Hnd. apply NoDup_cons in Hnd as [Hy Hnd].
  apply elem_of_cons in Hx as [->|Hx]; simpl.
  - destruct (two_dicts_lookup_notin l (store_both k v1 v2 acc y) (k y) Hy) as [-> ->].
    unfold store_both. simpl. by rewrite !lookup_insert_eq.
  - by apply IH.
Qed.
End two_dicts.

Lemma foldl_ext_eq {A B} (f g : B → A → B) (l : list A) (b : B) :
  (∀ b x, f b x = g b x) → foldl f b l = foldl g b l.
Proof.
  intros Hfg. revert b. induction l as [|x l IH]; intros b; [done|].
  simpl. by rewrite Hfg, IH.
Qed.

(** Every entry of the static table holds two colours. *)
Lemma TEAM_COLORS_nonempty t cols :
  TEAM_COLORS !! t = Some cols → nonempty cols.1 = true ∧ nonempty cols.2 = true.
Proof.
  unfold TEAM_COLORS. intros Hin%elem_of_list_to_map_2.
  match type of Hin with
  | _ ∈ ?L =>
      assert (Forall (λ kv : string * (string * string),
                nonempty kv.2.1 = true ∧ nonempty kv.2.2 = true) L) as HL
        by (repeat (apply Forall_cons; split; [by split|]); apply Forall_nil_2)
  end.
  eapply Forall_forall in HL; [|exact Hin]. exact HL.
Qed.

Lemma team_color_step_pair maps t :
  team_color_step maps t
  = (<[t := (team_color_pair t).1]> maps.1, <[t := (team_color_pair t).2]> maps.2).
Proof.
  unfold team_color_step, team_color_pair.
  destruct (TEAM_COLORS !! t) as [cols|] eqn:Ht; [|done].
  apply TEAM_COLORS_nonempty in Ht as [-> ->]. done.
Qed.

(** The team colour maps hold the colour pair of every team of the filtered
    team table, and nothing else. *)
Lemma team_color_maps_lookup df_team t :
  (t ∈ Team.NICKNAME <$> df_team →
   team_primary_map df_team !! t = Some (team_color_pair t).1
   ∧ team_secondary_map df_team !! t = Some (team_color_pair t).2)
  ∧ (t ∉ Team.NICKNAME <$> df_team →
     team_primary_map df_team !! t = None
     ∧ team_secondary_map df_team !! t = None).
Proof.
  unfold team_primary_map, team_secondary_map, team_color_maps.
  rewrite (foldl_ext_eq _ _ _ _ team_color_step_pair). split; intros Ht.
  - apply (two_dicts_lookup_in id); [|by rewrite elem_of_sorted_unique].
    rewrite list_fmap_id. apply NoDup_sorted_unique.
  - apply (two_dicts_lookup_notin id).
    by rewrite list_fmap_id, elem_of_sorted_unique.
Qed.

(** ** The most frequent team *)

Section mode.
Context `{KeyOrdLaws K, EqDecision K, !RelDecision (@key_le K _)}.
Implicit Types l : list K.

Lemma occurrences_le_top l x :
  x ∈ l → (occurrences x l ≤ max_list ((λ x, occurrences x l) <$> l))%nat.
Proof.
  intros Hx. apply max_list_elem_of_le.
  apply list_elem_of_fmap. by exists x.
Qed.

Lemma top_attained l :
  l ≠ [] → ∃ x, x ∈ l ∧ occurrences x l = max_list ((λ x, occurrences x l) <$> l).
Proof.
  intros Hl.
  assert ((λ x, occurrences x l) <$> l ≠ []) as Hne
    by (by intros ?%fmap_nil_inv).
  apply max_list_elem_of, list_elem_of_fmap in Hne as (x & Hx & Hin).
  by exists x.
Qed.

(** The first mode: a most frequent value, and the least of them. *)
Lemma mode_iloc0 l :
  l ≠ [] →
  ∃ t, iloc0 (mode l) = Ok t
    ∧ t ∈ l
    ∧ (∀ t', t' ∈ l → (occurrences t' l ≤ occurrences t l)%nat)
    ∧ (∀ t', t' ∈ l → occurrences t' l = occurrences t l → key_le t t').
Proof.
  intros Hl. unfold mode.
  set (top := max_list ((λ x, occurrences x l) <$> l)).
  set (modes := filter (λ x, occurrences x l = top) l).
  destruct (top_attained l Hl) as (x & Hx & Hxtop). fold top in Hxtop.
  assert (x ∈ modes) as Hxm by (by apply list_elem_of_filter).
  destruct (sorted_unique modes) as [|t ts] eqn:Hs.
  { apply sorted_unique_nil_inv in Hs. rewrite Hs in Hxm.
    by apply not_elem_of_nil in Hxm. }
  exists t. simpl. split; [done|].
  assert (t ∈ modes) as Ht.
  { rewrite <-elem_of_sorted_unique, Hs. left. }
  apply list_elem_of_filter in Ht as [Httop Ht].
  split_and!; [done|..].
  - intros t' Ht'. rewrite Httop. by apply occurrences_le_top.
  - intros t' Ht' Heq. eapply sorted_unique_head_least; [exact Hs|].
    apply list_elem_of_filter. split; [congruence|done].
Qed.
End mode.

Lemma dict_get_Some (d : gmap string string) k x fallback :
  d !! k = Some x → dict_get d (Some k) fallback = x.
Proof. intros Hk. unfold dict_get. by rewrite Hk. Qed.

Lemma dict_get_None (d : gmap string string) k fallback :
  d !! k = None → dict_get d (Some k) fallback = fallback.
Proof. intros Hk. unfold dict_get. by rewrite Hk. Qed.

Lemma player_color_maps_lookup df_team df_player p :
  p ∈ Player.PLAYER_NAME <$> df_player →
  let tm := team_mode (games_of p df_player) in
  let primary := dict_get (team_primary_map df_team) tm default_team_color in
  player_primary_map df_team df_player !! p = Some primary
  ∧ player_secondary_map df_team df_player !! p
    = Some (dict_get (team_secondary_map df_team) tm primary).
Proof.
  intros Hp. unfold player_primary_map, player_secondary_map, player_color_maps.
  assert ((p, games_of p df_player) ∈ groupby Player.PLAYER_NAME df_player)
    as Hin by (by apply elem_of_groupby).
  pose proof (two_dicts_lookup_in fst
    (λ g, dict_get (team_color_maps df_team).1 (team_mode g.2) default_team_color)
    (λ g, dict_get (team_color_maps df_team).2 (team_mode g.2)
            (dict_get (team_color_maps df_team).1 (team_mode g.2)
               default_team_color))
    (groupby Player.PLAYER_NAME df_player) (∅, ∅) (p, games_of p df_player)
    (groupby_NoDup _ _) Hin) as Hlook.
  exact Hlook.
Qed.

(** C4 (as amended). Every player of the filtered player table is mapped to
    the colours of a most frequent team among the player's rows; when several
    teams are tied for most frequent, the team whose name comes first in
    string order is taken.  The colours are the colour pair of that team when
    the team occurs in the filtered team table, and the default gray twice
    when it does not. *)
Theorem player_colors_least_most_frequent_team df_team df_player p :
  p ∈ Player.PLAYER_NAME <$> df_player →
  ∃ t,
    let teams := Player.NICKNAME <$> games_of p df_player in
    team_mode (games_of p df_player) = Some t
    ∧ t ∈ teams
    ∧ (∀ t', t' ∈ teams → (occurrences t' teams ≤ occurrences t teams)%nat)
    ∧ (∀ t', t' ∈ teams → occurrences t' teams = occurrences t teams →
             String.le t t')
    ∧ (t ∈ Team.NICKNAME <$> df_team →
       player_colors df_team df_player p = Some (team_color_pair t))
    ∧ (t ∉ Team.NICKNAME <$> df_team →
       player_colors df_team df_player p
       = Some (default_team_color, default_team_color)).
Proof.
  intros Hp.
  assert (Player.NICKNAME <$> games_of p df_player ≠ []) as Hne.
  { intros Hnil%fmap_nil_inv.
    apply list_elem_of_fmap in Hp as (r & -> & Hr).
    assert (r ∈ games_of (Player.PLAYER_NAME r) df_player) as Hin
      by (by apply list_elem_of_filter).
    rewrite Hnil in Hin. by apply not_elem_of_nil in Hin. }
  destruct (mode_iloc0 _ Hne) as (t & Ht & Hin & Hmost & Hleast).
  assert (team_mode (games_of p df_player) = Some t) as Hmode.
  { unfold team_mode. by rewrite Ht. }
  exists t. cbv zeta. split_and!; try done.
  - intros Hteam. unfold player_colors.
    destruct (player_color_maps_lookup df_team df_player p Hp) as [-> ->].
    rewrite Hmode.
    destruct (team_color_maps_lookup df_team t) as [Hknown _].
    destruct (Hknown Hteam) as [Hprimary Hsecondary].
    rewrite (dict_get_Some _ _ _ _ Hprimary), (dict_get_Some _ _ _ _ Hsecondary).
    by destruct (team_color_pair t).
  - intros Hteam. unfold player_colors.
    destruct (player_color_maps_lookup df_team df_player p Hp) as [-> ->].
    rewrite Hmode.
    destruct (team_color_maps_lookup df_team t) as [_ Hunknown].
    destruct (Hunknown Hteam) as [Hprimary Hsecondary].
    by rewrite (dict_get_None _ _ _ Hprimary), (dict_get_None _ _ _ Hsecondary).
Qed.

(** C4, the amended statement at [traded_player] and [both_teams]. *)
Lemma player_colors_least_most_frequent_team_witness :
  "A. Guard" ∈ Player.PLAYER_NAME <$> traded_player
  ∧ ∃ t,
    let teams := Player.NICKNAME <$> games_of "A. Guard" traded_player in
    team_mode (games_of "A. Guard" traded_player) = Some t
    ∧ t ∈ teams
    ∧ (∀ t', t' ∈ teams → (occurrences t' teams ≤ occurrences t teams)%nat)
    ∧ (∀ t', t' ∈ teams → occurrences t' teams = occurrences t teams →
             String.le t t')
    ∧ (t ∈ Team.NICKNAME <$> both_teams →
       player_colors both_teams traded_player "A. Guard"
       = Some (team_color_pair t))
    ∧ (t ∉ Team.NICKNAME <$> both_teams →
       player_colors both_teams traded_player "A. Guard"
       = Some (default_team_color, default_team_color)).
Proof.
  assert ("A. Guard" ∈ Player.PLAYER_NAME <$> traded_player) as Hp
    by (simpl; left).
  split; [exact Hp|].
  exact (player_colors_least_most_frequent_team both_teams traded_player
           "A. Guard" Hp).
Defined.

(** C4, counterexample to the claim as stated. The player of
    [traded_player] played once for the Lakers, then once for the Celtics:
    the two teams are tied and the Lakers are encountered first, yet the
    player gets the colours of the Celtics.  And the player of
    [one_team_player], whose only team is absent from an empty filtered team
    table, gets the default gray, not the colours of the Lakers. *)
Lemma traded_player_gets_least_team_colors :
  player_colors both_teams traded_player "A. Guard"
  ≠ team_color_pair
    <$> first_most_frequent (Player.NICKNAME <$> games_of "A. Guard" traded_player)
  ∧ player_colors [] one_team_player "B. Center"
    ≠ team_color_pair
      <$> first_most_frequent
            (Player.NICKNAME <$> games_of "B. Center" one_team_player).
Proof.
  split; intros Heq; vm_compute in Heq; discriminate Heq.
Qed.

(** The values behind the counterexample. *)
Example traded_player_actual_colors :
  player_colors both_teams traded_player "A. Guard" = Some ("#007A33", "#BA9653").
Proof. vm_compute. reflexivity. Qed.

Example traded_player_claimed_colors :
  team_color_pair
  <$> first_most_frequent (Player.NICKNAME <$> games_of "A. Guard" traded_player)
  = Some ("#552583", "#FDB927").
Proof. vm_compute. reflexivity. Qed.

Example one_team_player_actual_colors :
  player_colors [] one_team_player "B. Center" = Some ("#888888", "#888888").
Proof. vm_compute. reflexivity. Qed.

(** * Further properties of the pipeline *)

(** ** Row filter *)

Lemma isin_sublist {A} `{EqDecision K} (col : A → K) vals df :
  isin col vals df `sublist_of` df.
Proof. unfold isin. apply sublist_filter. Qed.

(** X1. Filtering only drops rows: each filtered table is a sublist of its
    base table, so it keeps the row order and is no longer; a team row is
    kept iff it matches the season and the team constraint, a player row
    iff it matches the season, the team and the player constraint. *)
Theorem filter_rows_keeps_matching_rows season team player tables :
  (filter_rows season team player tables).1 `sublist_of` tables.1
  ∧ (filter_rows season team player tables).2 `sublist_of` tables.2
  ∧ (∀ r, r ∈ (filter_rows season team player tables).1 ↔
          r ∈ tables.1 ∧ matches season (Team.SEASON r)
          ∧ matches team (Team.NICKNAME r))
  ∧ (∀ r, r ∈ (filter_rows season team player tables).2 ↔
          r ∈ tables.2 ∧ matches season (Player.SEASON r)
          ∧ matches team (Player.NICKNAME r)
          ∧ matches player (Player.PLAYER_NAME r)).
Proof.
  split_and!.
  - unfold filter_rows; simpl. destruct (truthy season), (truthy team);
      repeat (etrans; [apply isin_sublist|]); done.
  - unfold filter_rows; simpl.
    destruct (truthy season), (truthy team), (truthy player);
      repeat (etrans; [apply isin_sublist|]); done.
  - apply filter_rows_spec_team.
  - apply filter_rows_spec_player.
Qed.

(** X2. Two selections can be applied in either order: filtering by one
    selection and then by another gives the same tables as the other way
    round. *)
Theorem filter_rows_commute season1 team1 player1 season2 team2 player2 tables :
  filter_rows season1 team1 player1 (filter_rows season2 team2 player2 tables)
  = filter_rows season2 team2 player2 (filter_rows season1 team1 player1 tables).
Proof.
  unfold filter_rows; simpl.
  destruct (truthy season1), (truthy team1), (truthy player1),
           (truthy season2), (truthy team2), (truthy player2); simpl;
    f_equal; unfold isin; rewrite ?list_filter_filter;
    apply list_filter_iff; tauto.
Qed.

(** X3. The dropdowns offer exactly the values that select something: with
    a single season (team) chosen and nothing else, the filtered team table
    is non-empty iff the season (team) is among the options; with a single
    player chosen, the filtered player table is non-empty iff the player is
    among the options. *)
Theorem options_select_rows team_game_stats player_game_stats :
  (∀ s, s ∈ season_options team_game_stats ↔
        (filter_rows (Some [s]) None None
           (team_game_stats, player_game_stats)).1 ≠ [])
  ∧ (∀ t, t ∈ team_options team_game_stats ↔
          (filter_rows None (Some [t]) None
             (team_game_stats, player_game_stats)).1 ≠ [])
  ∧ (∀ p, p ∈ player_options player_game_stats ↔
          (filter_rows None None (Some [p])
             (team_game_stats, player_game_stats)).2 ≠ []).
Proof.
  assert (∀ {A} `{EqDecision K} (col : A → K) (df : list A) (k : K),
            k ∈ col <$> df ↔ isin col [k] df ≠ []) as Hsel.
  { intros A K ? col df k. unfold isin. split.
    - intros (r & -> & Hr)%list_elem_of_fmap Hnil.
      assert (r ∈ filter (λ r0, col r0 ∈ [col r]) df) as Hin.
      { apply list_elem_of_filter. split; [left|done]. }
      rewrite Hnil in Hin. by apply not_elem_of_nil in Hin.
    - intros Hne. destruct (filter _ df) as [|r rs] eqn:Hf; [done|].
      assert (r ∈ filter (λ r0, col r0 ∈ [k]) df) as Hin by (rewrite Hf; left).
      apply list_elem_of_filter in Hin as [Hk%list_elem_of_singleton Hin].
      subst k. by apply list_elem_of_fmap_2. }
  split_and!; intros x; unfold season_options, team_options, player_options,
    filter_rows; simpl; rewrite elem_of_sorted_unique; apply Hsel.
Qed.

(** ** KPI cards *)

Lemma sorted_unique_last_greatest
    `{KeyOrdLaws K, EqDecision K, !RelDecision (@key_le K _)}
    (l : list K) x y :
  last (sorted_unique l) = Some x → y ∈ l → key_le y x.
Proof.
  intros [l' Hl]%last_Some Hy.
  pose proof (StronglySorted_sorted_unique l) as Hs.
  rewrite <-elem_of_sorted_unique, Hl in Hy. rewrite Hl in Hs.
  apply StronglySorted_app in Hs as (Hcross & _ & _).
  apply elem_of_app in Hy as [Hy|Hy%list_elem_of_singleton].
  - apply Hcross; [done|left].
  - by subst.
Qed.

(** X4. The "Seasons Covered" card falls back to "All Seasons" exactly when
    the filtered team table is empty; otherwise it shows two seasons that
    occur in the table and bound the season of every row. *)
Theorem seasons_text_range df_team :
  match seasons_text df_team with
  | None => df_team = []
  | Some (first, last) =>
      first ∈ Team.SEASON <$> df_team
      ∧ last ∈ Team.SEASON <$> df_team
      ∧ Forall (λ r, (first ≤ Team.SEASON r ≤ last)%Z) df_team
  end.
Proof.
  unfold seasons_text.
  destruct (sorted_unique (Team.SEASON <$> df_team)) as [|s0 ss] eqn:Hs.
  { apply sorted_unique_nil_inv in Hs. by apply fmap_nil_inv in Hs. }
  destruct (last (s0 :: ss)) as [s1|] eqn:Hlast.
  - split_and!.
    + rewrite <-elem_of_sorted_unique, Hs. left.
    + rewrite <-elem_of_sorted_unique, Hs.
      apply last_Some in Hlast as [l' ->]. apply elem_of_app. right. left.
    + apply Forall_forall. intros r Hr.
      assert (Team.SEASON r ∈ Team.SEASON <$> df_team) as Hin
        by (by apply list_elem_of_fmap_2).
      split.
      * apply (sorted_unique_head_least _ _ _ _ Hs Hin).
      * rewrite <-Hs in Hlast.
        apply (sorted_unique_last_greatest _ _ _ Hlast Hin).
  - exfalso. assert (is_Some (last (s0 :: ss))) as [? Hx]
      by (by apply last_is_Some). congruence.
Qed.

Lemma length_remove_dups `{EqDecision K} (l : list K) :
  (length (remove_dups l) ≤ length l)%nat.
Proof.
  induction l as [|x l IH]; simpl; [done|].
  destruct (decide_rel _ x l); simpl; lia.
Qed.

Lemma nunique_le `{EqDecision K} (l : list K) : (nunique l ≤ length l)%nat.
Proof. apply length_remove_dups. Qed.

Lemma nunique_zero `{EqDecision K} (l : list K) : nunique l = 0%nat ↔ l = [].
Proof.
  unfold nunique. split; [|by intros ->].
  intros Hlen%length_zero_iff_nil. destruct l as [|x l]; [done|].
  assert (x ∈ remove_dups (x :: l)) as Hx by (apply elem_of_remove_dups; left).
  rewrite Hlen in Hx. by apply not_elem_of_nil in Hx.
Qed.

Lemma length_sorted_unique
    `{KeyOrd K, EqDecision K, !RelDecision (@key_le K _)} (l : list K) :
  length (sorted_unique l) = nunique l.
Proof. unfold sorted_unique, nunique. by rewrite merge_sort_Permutation. Qed.

(** The keys held by the dicts after a loop of stores. *)
Lemma store_both_dom {A} (k : A → string) (v1 v2 : A → string) l acc :
  dom (foldl (store_both k v1 v2) acc l).1 = dom acc.1 ∪ list_to_set (k <$> l)
  ∧ dom (foldl (store_both k v1 v2) acc l).2 = dom acc.2 ∪ list_to_set (k <$> l).
Proof.
  revert acc. induction l as [|x l IH]; intros acc; simpl.
  { split; by rewrite (right_id_L ∅ (∪)). }
  destruct (IH (store_both k v1 v2 acc x)) as [-> ->]. unfold store_both; simpl.
  rewrite !dom_insert_L.
  split; rewrite !(assoc_L (∪)); f_equal; apply (comm_L (∪)).
Qed.

Lemma player_color_maps_dom df_team df_player :
  dom (player_primary_map df_team df_player)
  = list_to_set (sorted_unique (Player.PLAYER_NAME <$> df_player))
  ∧ dom (player_secondary_map df_team df_player)
    = list_to_set (sorted_unique (Player.PLAYER_NAME <$> df_player)).
Proof.
  unfold player_primary_map, player_secondary_map, player_color_maps.
  pose proof (store_both_dom fst
    (λ g, dict_get (team_color_maps df_team).1 (team_mode g.2) default_team_color)
    (λ g, dict_get (team_color_maps df_team).2 (team_mode g.2)
            (dict_get (team_color_maps df_team).1 (team_mode g.2)
               default_team_color))
    (groupby Player.PLAYER_NAME df_player) (∅, ∅)) as [H1 H2].
  simpl in H1, H2. rewrite dom_empty_L, (left_id_L ∅ (∪)), groupby_keys in H1, H2.
  by split.
Qed.

(** X5. The two counting cards: a count is at most the number of rows and is
    0 exactly on an empty table.  The number of players on the card is the
    number of players that receive a colour, and the archetype chart never
    shows more players than the card counts. *)
Theorem kpi_counts `{GroupSum} df_team df_player :
  (total_games df_team ≤ length df_team)%nat
  ∧ (total_games df_team = 0%nat ↔ df_team = [])
  ∧ (total_players df_player ≤ length df_player)%nat
  ∧ (total_players df_player = 0%nat ↔ df_player = [])
  ∧ size (player_primary_map df_team df_player) = total_players df_player
  ∧ size (player_secondary_map df_team df_player) = total_players df_player
  ∧ (length (archetype_data df_player) ≤ total_players df_player)%nat.
Proof.
  unfold total_games, total_players.
  assert (∀ {A B} (f : A → B) (l : list A), f <$> l = [] ↔ l = []) as Hnil.
  { intros A B f l. split; [apply fmap_nil_inv|by intros ->]. }
  destruct (player_color_maps_dom df_team df_player) as [Hd1 Hd2].
  split_and!.
  - etrans; [apply nunique_le|]. by rewrite length_fmap.
  - by rewrite nunique_zero, Hnil.
  - etrans; [apply nunique_le|]. by rewrite length_fmap.
  - by rewrite nunique_zero, Hnil.
  - rewrite <-size_dom, Hd1, size_list_to_set by apply NoDup_sorted_unique.
    apply length_sorted_unique.
  - rewrite <-size_dom, Hd2, size_list_to_set by apply NoDup_sorted_unique.
    apply length_sorted_unique.
  - unfold archetype_data, retained, remove_low_sample.
    rewrite length_fmap. etrans; [apply length_filter|].
    rewrite archetype_agg_fmap, length_fmap. by rewrite length_sorted_unique.
Qed.

(** ** Team colours *)

(** X6. The two team colour maps have an entry exactly for the teams of the
    filtered team table.  The entry of a team is its pair in the static
    table, and the default gray for a team the static table does not know;
    no entry is an empty string. *)
Theorem team_color_maps_resolve df_team t :
  team_primary_map df_team !! t
  = (if decide (t ∈ Team.NICKNAME <$> df_team)
     then Some (match TEAM_COLORS !! t with
                | Some cols => cols.1
                | None => default_team_color
                end)
     else None)
  ∧ team_secondary_map df_team !! t
    = (if decide (t ∈ Team.NICKNAME <$> df_team)
       then Some (match TEAM_COLORS !! t with
                  | Some cols => cols.2
                  | None => default_team_color
                  end)
       else None)
  ∧ team_primary_map df_team !! t ≠ Some ""
  ∧ team_secondary_map df_team !! t ≠ Some "".
Proof.
  destruct (team_color_maps_lookup df_team t) as [Hin Hnotin].
  assert (∃ c : string * string,
            team_color_pair t = c
            ∧ nonempty c.1 = true ∧ nonempty c.2 = true
            ∧ c.1 = match TEAM_COLORS !! t with
                    | Some cols => cols.1 | None => default_team_color end
            ∧ c.2 = match TEAM_COLORS !! t with
                    | Some cols => cols.2 | None => default_team_color end)
    as (c & Hc & Hn1 & Hn2 & He1 & He2).
  { unfold team_color_pair. pose proof (TEAM_COLORS_nonempty t) as Hne.
    destruct (TEAM_COLORS !! t) as [cols|].
    - destruct (Hne cols eq_refl) as [H1 H2]. exists cols.
      split; [reflexivity|]. split; [exact H1|]. split; [exact H2|].
      split; reflexivity.
    - exists (default_team_color, default_team_color).
      split; [reflexivity|]. split; [reflexivity|]. split; [reflexivity|].
      split; reflexivity. }
  rewrite Hc in Hin. rewrite <-He1, <-He2. clear He1 He2 Hc.
  destruct (decide (t ∈ Team.NICKNAME <$> df_team)) as [Ht|Ht].
  - destruct (Hin Ht) as [-> ->].
    split; [reflexivity|]. split; [reflexivity|]. split.
    + intros [= Heq]. rewrite Heq in Hn1. discriminate Hn1.
    + intros [= Heq]. rewrite Heq in Hn2. discriminate Hn2.
  - destruct (Hnotin Ht) as [-> ->].
    split; [reflexivity|]. split; [reflexivity|]. split; discriminate.
Qed.

(** ** Ranges of the aggregates *)

Lemma Qsum_bounds (l : list Q) (a b : Q) :
  Forall (λ x, a <= x <= b)%Q l →
  (a * Qlen l <= Qsum l <= b * Qlen l)%Q.
Proof.
  induction 1 as [|x l [Hax Hxb] _ IH].
  { change (Qlen (@nil Q)) with 0%Q. change (Qsum []) with 0%Q. lra. }
  rewrite Qlen_cons. simpl Qsum. lra.
Qed.

(** The mean of values of a range lies in the range. *)
Lemma mean_bounds (l : list Q) (a b : Q) :
  l ≠ [] → Forall (λ x, a <= x <= b)%Q l →
  ∃ q, mean l = Some q ∧ (a <= q <= b)%Q.
Proof.
  intros Hl Hall. rewrite mean_is_Some by done. eexists; split; [done|].
  rewrite Qred_correct.
  pose proof (Qlen_pos l Hl) as Hpos. destruct (Qsum_bounds l a b Hall).
  split; [apply Qle_shift_div_l|apply Qle_shift_div_r]; done.
Qed.

(** The median of numbers of a range lies in the range. *)
Lemma median_bounds (l : list float64) (a b : Q) :
  l ≠ [] → Forall (λ v, ∃ x, v = Some x ∧ (a <= x <= b)%Q) l →
  ∃ q, median l = Some q ∧ (a <= q <= b)%Q.
Proof.
  intros Hl Hall.
  assert (Forall (λ x, a <= x <= b)%Q (merge_sort Qle (dropna l))) as Hv.
  { rewrite merge_sort_Permutation. apply Forall_forall.
    intros x (v & Hv & Hx)%list_elem_of_omap. simpl in Hx. subst v.
    rewrite Forall_forall in Hall. destruct (Hall _ Hv) as (y & [= <-] & Hy).
    done. }
  assert (dropna l ≠ []) as Hne.
  { destruct l as [|v l]; [done|]. apply Forall_cons_1 in Hall as [(x & -> & _) _].
    done. }
  destruct (median_is_Some l Hne) as [q Hq]. exists q. split; [done|].
  unfold median in Hq. rewrite Forall_forall in Hv.
  set (v := merge_sort Qle (dropna l)) in *.
  destruct (Nat.odd (length v)).
  - apply list_elem_of_lookup_2 in Hq. auto.
  - destruct (v !! (length v `div` 2 - 1)%nat) as [x|] eqn:Hx; [|done].
    destruct (v !! (length v `div` 2)%nat) as [y|] eqn:Hy; [|done].
    injection Hq as <-. rewrite Qred_correct.
    apply list_elem_of_lookup_2, Hv in Hx. apply list_elem_of_lookup_2, Hv in Hy.
    split; [apply Qle_shift_div_l|apply Qle_shift_div_r]; lra.
Qed.

Lemma groupby_mean_bounds {A}
    `{KeyOrdLaws K, EqDecision K, !RelDecision (@key_le K _)}
    (key : A → K) (col : A → Q) (a b : Q) (df : list A) :
  (∀ r, a <= col r <= b)%Q →
  Forall (λ kv, ∃ q, kv.2 = Some q ∧ (a <= q <= b)%Q) (groupby_mean key col df).
Proof.
  intros Hcol. unfold groupby_mean. apply groupby_agg_Forall.
  intros k g Hg. simpl. apply mean_bounds.
  - by intros ?%fmap_nil_inv.
  - apply Forall_fmap, Forall_forall. intros r _. apply Hcol.
Qed.

Lemma win_bounds r : (0 <= win r <= 1)%Q.
Proof. unfold win, b2q. destruct (Team.WIN r); lra. Qed.

Lemma TWENTY_PLUS_bounds r : (0 <= TWENTY_PLUS r <= 1)%Q.
Proof. unfold TWENTY_PLUS. case_decide; lra. Qed.

Lemma head_sort_Forall {A} (by_ : A → float64) (P : A → Prop) n (df : list A) :
  Forall P df → Forall P (head n (sort_values_desc by_ df)).
Proof.
  intros Hall. unfold head. apply Forall_forall. intros x Hx.
  rewrite Forall_forall in Hall. apply Hall.
  rewrite <-(sort_values_desc_Permutation by_).
  eapply elem_of_sublist; [exact Hx|apply sublist_take].
Qed.

(** X7. Every win percentage the dashboard plots is a number between 0 and
    1: the home and away win rates per season, the league parity per season,
    the win rates of the two team rankings, and the share of 20+ point games
    of the scorers ranking. *)
Theorem win_rates_are_fractions df_team df_player :
  Forall (λ kv, ∃ q, kv.2 = Some q ∧ (0 <= q <= 1)%Q) (home_away df_team)
  ∧ Forall (λ kv, ∃ q, kv.2 = Some q ∧ (0 <= q <= 1)%Q) (parity df_team)
  ∧ Forall (λ kv, ∃ q, kv.2 = Some q ∧ (0 <= q <= 1)%Q) (team_success df_team)
  ∧ Forall (λ kv, ∃ q, kv.2 = Some q ∧ (0 <= q <= 1)%Q)
      (dominant_seasons df_team)
  ∧ Forall (λ kv, ∃ q, kv.2 = Some q ∧ (0 <= q <= 1)%Q) (scorers df_player).
Proof.
  split_and!.
  - apply groupby_mean_bounds, win_bounds.
  - unfold parity, groupby_mean, team_season.
    rewrite (level0_median_groupby_agg Team.SEASON Team.NICKNAME).
    apply Forall_fmap, Forall_forall. intros s Hs. simpl.
    rewrite elem_of_sorted_unique in Hs.
    apply list_elem_of_fmap in Hs as (r & -> & Hr).
    apply median_bounds.
    + intros Hnil%fmap_nil_inv%sorted_unique_nil_inv%fmap_nil_inv.
      assert (r ∈ filter (λ r0, Team.SEASON r0 = Team.SEASON r) df_team) as Hin
        by (by apply list_elem_of_filter).
      rewrite Hnil in Hin. by apply not_elem_of_nil in Hin.
    + apply Forall_fmap, Forall_forall. intros t Ht. simpl.
      rewrite elem_of_sorted_unique in Ht.
      apply list_elem_of_fmap in Ht as (r' & -> & Hr').
      apply list_elem_of_filter in Hr' as [Hs' Hr'].
      apply mean_bounds.
      * intros Hnil%fmap_nil_inv.
        assert (r' ∈ filter (λ r0, Team.SEASON r0 = Team.SEASON r
                                   ∧ Team.NICKNAME r0 = Team.NICKNAME r') df_team)
          as Hin by (by apply list_elem_of_filter).
        rewrite Hnil in Hin. by apply not_elem_of_nil in Hin.
      * apply Forall_fmap, Forall_forall. intros ? _. apply win_bounds.
  - apply head_sort_Forall, groupby_mean_bounds, win_bounds.
  - apply head_sort_Forall, groupby_mean_bounds, win_bounds.
  - apply head_sort_Forall, groupby_mean_bounds, TWENTY_PLUS_bounds.
Qed.

(** ** Rankings, continued *)

(** X8. The two rankings that remain, the ten most dominant team seasons by
    win rate and the ten most consistent 20+ point scorers by their share of
    20+ point games, are top-10 rankings as well: at most ten rows, in
    descending order of the metric, no row left out beating a row kept, and
    all rows when at most ten qualify. *)
Theorem more_top10_aggregations df_team df_player :
  is_top10 snd (groupby_mean team_season win df_team) (dominant_seasons df_team)
  ∧ is_top10 snd (groupby_mean Player.PLAYER_NAME TWENTY_PLUS df_player)
      (scorers df_player).
Proof. split; apply head_sort_is_top10, groupby_mean_Some. Qed.

Lemma head_sort_keys {K V} (by_ : K * V → float64) n (s : list (K * V)) :
  NoDup s.*1 →
  NoDup (head n (sort_values_desc by_ s)).*1
  ∧ ∀ k, k ∈ (head n (sort_values_desc by_ s)).*1 → k ∈ s.*1.
Proof.
  intros Hnd. unfold head. rewrite fmap_take.
  assert (take n (sort_values_desc by_ s).*1 `sublist_of` (sort_values_desc by_ s).*1)
    as Hsub by apply sublist_take.
  assert ((sort_values_desc by_ s).*1 ≡ₚ s.*1) as Hperm
    by (by rewrite sort_values_desc_Permutation).
  split.
  - eapply sublist_NoDup; [|exact Hsub]. by rewrite Hperm.
  - intros k Hk. rewrite <-Hperm. by eapply elem_of_sublist.
Qed.

Lemma groupby_agg_keys_NoDup {A V}
    `{KeyOrdLaws K, EqDecision K, !RelDecision (@key_le K _)}
    (key : A → K) (agg : list A → V) (df : list A) :
  NoDup (groupby_agg key agg df).*1
  ∧ ∀ k, k ∈ (groupby_agg key agg df).*1 → k ∈ key <$> df.
Proof.
  rewrite groupby_agg_keys. split; [apply NoDup_sorted_unique|].
  intros k. by rewrite elem_of_sorted_unique.
Qed.

Lemma ranking_keys {A V}
    `{KeyOrdLaws K, EqDecision K, !RelDecision (@key_le K _)}
    (key : A → K) (agg : list A → V) (by_ : K * V → float64) n (df : list A) :
  NoDup (head n (sort_values_desc by_ (groupby_agg key agg df))).*1
  ∧ ∀ k, k ∈ (head n (sort_values_desc by_ (groupby_agg key agg df))).*1 →
         k ∈ key <$> df.
Proof.
  destruct (groupby_agg_keys_NoDup key agg df) as [Hnd Hin].
  destruct (head_sort_keys by_ n _ Hnd) as [? Hsub]. split; [done|].
  intros k Hk. by apply Hin, Hsub.
Qed.

(** X9. No ranking lists a team, a team season or a player twice, and every
    name listed occurs in the filtered table the ranking is computed from. *)
Theorem rankings_list_each_once df_team df_player :
  (NoDup (team_success df_team).*1
   ∧ ∀ t, t ∈ (team_success df_team).*1 → t ∈ Team.NICKNAME <$> df_team)
  ∧ (NoDup (dominant_seasons df_team).*1
     ∧ ∀ st, st ∈ (dominant_seasons df_team).*1 → st ∈ team_season <$> df_team)
  ∧ (NoDup (scorers df_player).*1
     ∧ ∀ p, p ∈ (scorers df_player).*1 → p ∈ Player.PLAYER_NAME <$> df_player)
  ∧ (NoDup (player_success df_player).*1
     ∧ ∀ p, p ∈ (player_success df_player).*1 →
            p ∈ Player.PLAYER_NAME <$> df_player)
  ∧ (NoDup (top_games df_player).*1
     ∧ ∀ p, p ∈ (top_games df_player).*1 → p ∈ Player.PLAYER_NAME <$> df_player).
Proof.
  split; [apply ranking_keys|]. split; [apply ranking_keys|].
  split; [apply ranking_keys|]. split; [|apply ranking_keys].
  destruct (groupby_agg_keys_NoDup Player.PLAYER_NAME
              (λ g, (mean (Player.EFFICIENCY_SCORE <$> g),
                     count (Player.EFFICIENCY_SCORE <$> g))) df_player)
    as [Hnd Hin].
  fold (player_success_agg df_player) in Hnd, Hin.
  assert ((meaningful_careers (player_success_agg df_player)).*1
          `sublist_of` (player_success_agg df_player).*1) as Hsub'.
  { unfold meaningful_careers. apply fmap_sublist, sublist_filter. }
  assert (NoDup (meaningful_careers (player_success_agg df_player)).*1)
    as Hnd' by (eapply sublist_NoDup; [exact Hnd|exact Hsub']).
  destruct (head_sort_keys (λ row, row.2.1) 10 _ Hnd') as [? Hsub].
  split; [done|]. intros t Ht. apply Hin.
  eapply elem_of_sublist; [|exact Hsub']. by apply Hsub.
Qed.

(** ** The season axis *)

Lemma StronglySorted_strict {A} (R R' : relation A) (l : list A) :
  (∀ x y, R x y → x ≠ y → R' x y) →
  StronglySorted R l → NoDup l → StronglySorted R' l.
Proof.
  intros HR. induction 1 as [|x l Hl IH Hx]; intros Hnd; [constructor|].
  apply NoDup_cons in Hnd as [Hnotin Hnd]. constructor; [auto|].
  apply Forall_forall. intros y Hy. rewrite Forall_forall in Hx.
  apply HR; [auto|]. intros ->. done.
Qed.

Lemma level0_median_keys {K2} (s : list ((Z * K2) * float64)) :
  (level0_median s).*1 = sorted_unique ((λ e, e.1.1) <$> s).
Proof. unfold level0_median. apply groupby_agg_keys. Qed.

Lemma two_level_seasons {A V}
    `{KeyOrdLaws K2, EqDecision K2, !RelDecision (@key_le K2 _)}
    (season : A → Z) (key2 : A → K2) (agg : list A → V) (df : list A) (s : Z) :
  s ∈ ((λ e, e.1.1) <$> groupby_agg (λ r, (season r, key2 r)) agg df) ↔
  s ∈ season <$> df.
Proof.
  rewrite groupby_agg_fmap, <-list_fmap_compose, !list_elem_of_fmap.
  split.
  - intros (k & -> & Hk). rewrite elem_of_sorted_unique in Hk.
    apply list_elem_of_fmap in Hk as (r & -> & Hr). by exists r.
  - intros (r & -> & Hr). exists (season r, key2 r). split; [done|].
    rewrite elem_of_sorted_unique. apply list_elem_of_fmap. by exists r.
Qed.

(** X10. The per-season series share one season axis: the scoring trend,
    the league average and the league parity each have exactly one point per
    season of the filtered team table, in strictly increasing season order;
    and the seasons of the per-team scoring lines are the seasons of the
    league average drawn over them. *)
Theorem season_series_share_axis df_team :
  (season_scoring df_team).*1 = sorted_unique (Team.SEASON <$> df_team)
  ∧ (league_avg df_team).*1 = sorted_unique (Team.SEASON <$> df_team)
  ∧ (parity df_team).*1 = sorted_unique (Team.SEASON <$> df_team)
  ∧ StronglySorted Z.lt (sorted_unique (Team.SEASON <$> df_team))
  ∧ (∀ s, s ∈ sorted_unique (Team.SEASON <$> df_team) ↔
          s ∈ Team.SEASON <$> df_team)
  ∧ (∀ s, s ∈ (λ row, row.1.1) <$> team_avg df_team ↔
          s ∈ (league_avg df_team).*1).
Proof.
  assert ((league_avg df_team).*1 = sorted_unique (Team.SEASON <$> df_team))
    as Hleague by apply groupby_agg_keys.
  split_and!.
  - apply groupby_agg_keys.
  - done.
  - unfold parity. rewrite level0_median_keys. apply sorted_unique_ext.
    intros s. unfold groupby_mean, team_season. apply two_level_seasons.
  - eapply StronglySorted_strict;
      [|apply StronglySorted_sorted_unique|apply NoDup_sorted_unique].
    intros x y Hle Hne. unfold key_le, Z_KeyOrd in Hle. lia.
  - intros s. apply elem_of_sorted_unique.
  - intros s. rewrite Hleague, elem_of_sorted_unique.
    unfold team_avg, groupby_mean, team_season. apply two_level_seasons.
Qed.

(** ** Team consistency, in general *)

Lemma median_is_Some_iff (l : list float64) :
  is_Some (median l) ↔ ∃ x, Some x ∈ l.
Proof.
  split.
  - intros Hm. destruct (dropna l) as [|x xs] eqn:Hd.
    + exfalso. unfold median in Hm. rewrite Hd in Hm. by destruct Hm.
    + exists x. assert (x ∈ dropna l) as Hx by (rewrite Hd; left).
      apply list_elem_of_omap in Hx as (v & Hv & Hx). simpl in Hx. by subst.
  - intros [x Hx%dropna_elem_of]. apply median_is_Some.
    intros Hnil. rewrite Hnil in Hx. by apply not_elem_of_nil in Hx.
Qed.

Lemma std_is_Some sqrt (l : list Q) : is_Some (std sqrt l) ↔ (2 ≤ length l)%nat.
Proof.
  unfold std, var. destruct (decide (length l < 2)%nat); simpl.
  - split; [by intros []|lia].
  - split; [lia|by eexists].
Qed.

(** X11. For every filtered team table the consistency table has one row
    per season of the table, so it is empty, and the "No data" message takes
    the place of the chart, exactly when the filtered team table has no
    rows.  The value of a season is a number exactly when some team has at
    least two games in that season; otherwise it is undefined. *)
Theorem consistency_rows sqrt df_team :
  ∃ rows,
    consistency sqrt df_team = Some rows
    ∧ rows.*1 = sorted_unique (Team.SEASON <$> df_team)
    ∧ (team_consistency_msg sqrt df_team = "No data for selected filters"
       ↔ df_team = [])
    ∧ (team_consistency_msg sqrt df_team = "" ↔ df_team ≠ [])
    ∧ (fig6 sqrt df_team = None ↔ df_team = [])
    ∧ Forall (λ row,
         is_Some row.2 ↔
         ∃ t, (2 ≤ length (filter (λ r, Team.SEASON r = row.1
                                        ∧ Team.NICKNAME r = t) df_team))%nat)
       rows.
Proof.
  set (value := λ s : Z,
         median ((λ t, std sqrt (Team.POINT_DIFF
                    <$> filter (λ r, Team.SEASON r = s ∧ Team.NICKNAME r = t)
                          df_team))
                 <$> sorted_unique
                       (Team.NICKNAME <$> filter (λ r, Team.SEASON r = s) df_team))).
  assert (consistency sqrt df_team
          = Some ((λ s, (s, value s)) <$> sorted_unique (Team.SEASON <$> df_team)))
    as Hc.
  { unfold consistency, try_except, team_season.
    by rewrite (level0_median_groupby_agg Team.SEASON Team.NICKNAME). }
  eexists. split; [exact Hc|].
  assert (sorted_unique (Team.SEASON <$> df_team) = [] ↔ df_team = []) as Hnil.
  { split; [|by intros ->].
    by intros ?%sorted_unique_nil_inv%fmap_nil_inv. }
  unfold team_consistency_msg, fig6. rewrite Hc.
  split_and!.
  - rewrite <-list_fmap_compose. apply list_fmap_id.
  - rewrite <-Hnil. by destruct (sorted_unique (Team.SEASON <$> df_team)).
  - rewrite <-Hnil. by destruct (sorted_unique (Team.SEASON <$> df_team)).
  - rewrite <-Hnil. by destruct (sorted_unique (Team.SEASON <$> df_team)).
  - apply Forall_fmap, Forall_forall. intros s _. simpl. unfold value.
    rewrite median_is_Some_iff. split.
    + intros (x & Hx). apply list_elem_of_fmap in Hx as (t & Hx & _).
      exists t. rewrite <-(length_fmap Team.POINT_DIFF).
      apply (std_is_Some sqrt). rewrite <-Hx. by eexists.
    + intros (t & Ht).
      assert (is_Some (std sqrt (Team.POINT_DIFF
                <$> filter (λ r, Team.SEASON r = s ∧ Team.NICKNAME r = t) df_team)))
        as [x Hx] by (apply std_is_Some; by rewrite length_fmap).
      exists x. rewrite <-Hx. apply list_elem_of_fmap. exists t. split; [done|].
      rewrite elem_of_sorted_unique.
      destruct (filter (λ r, Team.SEASON r = s ∧ Team.NICKNAME r = t) df_team)
        as [|r rs] eqn:Hf; [simpl in Ht; lia|].
      assert (r ∈ filter (λ r, Team.SEASON r = s ∧ Team.NICKNAME r = t) df_team)
        as Hr by (rewrite Hf; left).
      apply list_elem_of_filter in Hr as [[Hs <-] Hr].
      apply list_elem_of_fmap_2. by apply list_elem_of_filter.
Qed.

(** ** Badges, continued *)

Lemma idxmax_from_best {K} (best : K * Q) (s : list (K * Q)) :
  ∃ v, (idxmax_from best s, v) ∈ best :: s
       ∧ Forall (λ kv, kv.2 <= v)%Q (best :: s).
Proof.
  revert best. induction s as [|kv s IH]; intros best; simpl.
  { exists best.2. split; [destruct best; left|].
    apply Forall_cons; split; [apply Qle_refl|constructor]. }
  destruct (IH (if decide (best.2 < kv.2)%Q then kv else best)) as (v & Hin & Hall).
  exists v. apply Forall_cons in Hall as [Hb Hall].
  destruct (decide (best.2 < kv.2)%Q) as [Hlt|Hge].
  - split; [by right|].
    repeat (apply Forall_cons; split); [lra|done|done].
  - split.
    + apply elem_of_cons in Hin as [->|Hin]; [left|by do 2 right].
    + apply Qnot_lt_le in Hge.
      repeat (apply Forall_cons; split); [done|lra|done].
Qed.

(** On a series of group means, [idxmax] finds a label of greatest mean. *)
Lemma idxmax_groupby_mean_best {A}
    `{KeyOrdLaws K, EqDecision K, !RelDecision (@key_le K _)}
    (key : A → K) (col : A → Q) (df : list A) :
  df ≠ [] →
  ∃ k best,
    idxmax (groupby_mean key col df) = Ok k
    ∧ k ∈ key <$> df
    ∧ mean (col <$> filter (λ r, key r = k) df) = Some best
    ∧ ∀ k', k' ∈ key <$> df →
        ∃ q, mean (col <$> filter (λ r, key r = k') df) = Some q ∧ (q <= best)%Q.
Proof.
  intros Hdf. unfold groupby_mean. rewrite groupby_agg_fmap.
  set (keys := sorted_unique (key <$> df)).
  set (f := λ k, (k, mean (col <$> filter (λ r, key r = k) df))).
  assert (∀ k, k ∈ keys → is_Some (f k).2) as Hsome.
  { intros k Hk. unfold keys in Hk. rewrite elem_of_sorted_unique in Hk.
    apply list_elem_of_fmap in Hk as (r & -> & Hr). simpl.
    apply mean_is_Some'. intros Hnil%fmap_nil_inv.
    assert (r ∈ filter (λ r0, key r0 = key r) df) as Hin
      by (by apply list_elem_of_filter).
    rewrite Hnil in Hin. by apply not_elem_of_nil in Hin. }
  assert (∀ kq, kq ∈ omap (λ kv : K * float64, (kv.1,.) <$> kv.2) (f <$> keys) ↔
                kq.1 ∈ keys ∧ (f kq.1).2 = Some kq.2) as Helem.
  { intros [k q]. rewrite list_elem_of_omap. simpl. split.
    - intros (kv & (k' & -> & Hk')%list_elem_of_fmap & Heq). simpl in Heq.
      destruct (mean _) as [q'|] eqn:Hm; simplify_eq/=. by rewrite Hm.
    - intros [Hk Hq]. exists (f k). split; [by apply list_elem_of_fmap_2|].
      simpl in *. by rewrite Hq. }
  unfold idxmax.
  destruct (omap _ (f <$> keys)) as [|kv s] eqn:Hs.
  { exfalso. destruct keys as [|k ks] eqn:Hkeys.
    - apply sorted_unique_nil_inv, fmap_nil_inv in Hkeys. done.
    - destruct (Hsome k) as [q Hq]; [left|].
      assert ((k, q) ∈ @nil (K * Q)) as Hin; [|by apply not_elem_of_nil in Hin].
      apply Helem. split; [left|done]. }
  destruct (idxmax_from_best kv s) as (v & Hin & Hall).
  apply Helem in Hin as [Hk Hv]. simpl in Hk, Hv.
  exists (idxmax_from kv s), v. split_and!; [done| |done|].
  - unfold keys in Hk. by rewrite elem_of_sorted_unique in Hk.
  - intros k' Hk'. rewrite <-elem_of_sorted_unique in Hk'. fold keys in Hk'.
    destruct (Hsome k' Hk') as [q Hq]. simpl in Hq. exists q. split; [done|].
    rewrite Forall_forall in Hall. apply (Hall (k', q)). apply Helem. by split.
Qed.



Lemma desc_refl (a : float64) : desc a a.
Proof. destruct a; simpl; [apply Qle_refl|done]. Qed.

(** The first row of a table sorted by a metric has the greatest metric. *)
Lemma sort_values_desc_head_max {A} (by_ : A → float64) (df : list A) x rest :
  sort_values_desc by_ df = x :: rest → ∀ y, y ∈ df → desc (by_ x) (by_ y).
Proof.
  intros Hs y Hy.
  pose proof (sort_values_desc_sorted by_ df) as Hsorted. rewrite Hs in Hsorted.
  rewrite <-(sort_values_desc_Permutation by_), Hs in Hy.
  apply StronglySorted_inv in Hsorted as [_ Hx].
  apply elem_of_cons in Hy as [->|Hy]; [apply desc_refl|].
  rewrite Forall_forall in Hx. by apply Hx.
Qed.

(** X13. The team badge and the team ranking agree: on a non-empty filtered
    team table the first bar of the "Most Successful Teams" ranking shows
    the mean win rate of the badge team (the two may name different teams
    only when these teams are tied). *)
Theorem first_bar_has_badge_rate df_team :
  df_team ≠ [] →
  ∃ t0 q0 rest best,
    team_success df_team = (t0, Some q0) :: rest
    ∧ mean (win <$> filter (λ r, Team.NICKNAME r = t0) df_team) = Some q0
    ∧ mean (win <$> filter (λ r, Team.NICKNAME r = top_team df_team) df_team)
      = Some best
    ∧ (q0 == best)%Q.
Proof.
  intros Hdf.
  destruct (idxmax_groupby_mean_best Team.NICKNAME win df_team Hdf)
    as (k & best & Hk & Hin & Hmean & Hbest).
  assert (top_team df_team = k) as -> by (unfold top_team; by rewrite Hk).
  unfold team_success, groupby_mean. rewrite groupby_agg_fmap.
  set (f := λ t, (t, mean (win <$> filter (λ r, Team.NICKNAME r = t) df_team))).
  set (S := f <$> sorted_unique (Team.NICKNAME <$> df_team)).
  assert (f k ∈ S) as HkS.
  { apply list_elem_of_fmap_2. by rewrite elem_of_sorted_unique. }
  destruct (sort_values_desc snd S) as [|x sorted] eqn:Hs.
  { exfalso. rewrite <-(sort_values_desc_Permutation snd), Hs in HkS.
    by apply not_elem_of_nil in HkS. }
  assert (x ∈ S) as HxS.
  { rewrite <-(sort_values_desc_Permutation snd), Hs. left. }
  apply list_elem_of_fmap in HxS as (t0 & -> & Ht0).
  rewrite elem_of_sorted_unique in Ht0.
  destruct (Hbest t0 Ht0) as (q0 & Hq0 & Hle).
  pose proof (sort_values_desc_head_max snd S _ _ Hs (f k) HkS) as Hmax.
  unfold f in Hmax at 1 2. simpl in Hmax. rewrite Hq0, Hmean in Hmax. simpl in Hmax.
  exists t0, q0, (take 9 sorted), best. split_and!; try done.
  - unfold head, f. simpl. by rewrite Hq0.
  - by apply Qle_antisym.
Qed.

(** X13, at [uneven_season]. *)
Lemma first_bar_has_badge_rate_witness :
  uneven_season ≠ []
  ∧ ∃ t0 q0 rest best,
    team_success uneven_season = (t0, Some q0) :: rest
    ∧ mean (win <$> filter (λ r, Team.NICKNAME r = t0) uneven_season) = Some q0
    ∧ mean (win <$> filter (λ r, Team.NICKNAME r = top_team uneven_season)
                      uneven_season)
      = Some best
    ∧ (q0 == best)%Q.
Proof.
  assert (uneven_season ≠ []) as H by discriminate.
  split; [exact H|]. exact (first_bar_has_badge_rate uneven_season H).
Defined.

(** ** The medians split the classified players *)

Lemma length_filter_two {A} (P : A → Prop) `{∀ x, Decision (P x)}
    (f : A → string) (a b : string) (l : list A) :
  a ≠ b → Forall (λ x, P x ↔ f x = a ∨ f x = b) l →
  length (filter P l)
  = (length (filter (λ x, f x = a) l) + length (filter (λ x, f x = b) l))%nat.
Proof.
  intros Hab. induction 1 as [|x l Hx _ IH]; [done|].
  destruct (decide (f x = a)) as [Ha|Ha], (decide (f x = b)) as [Hb|Hb].
  - congruence.
  - rewrite (filter_cons_True P), (filter_cons_True (λ x, f x = a)),
      (filter_cons_False (λ x, f x = b)) by tauto. simpl. lia.
  - rewrite (filter_cons_True P), (filter_cons_False (λ x, f x = a)),
      (filter_cons_True (λ x, f x = b)) by tauto. simpl. lia.
  - rewrite (filter_cons_False P), (filter_cons_False (λ x, f x = a)),
      (filter_cons_False (λ x, f x = b)) by tauto. done.
Qed.

(** The label of a retained row, as [archetype_data] computes it. *)
Lemma archetype_group_length `{GroupSum} df_player label :
  length (archetype_group label (archetype_data df_player))
  = length (filter (λ r, assign_archetype (usage_median (retained df_player))
                           (eff_median (retained df_player))
                           (Usage.AVG_MIN r) (pts_per_min r) = label)
              (retained df_player)).
Proof.
  unfold archetype_group, archetype_data.
  by rewrite filter_fmap, length_fmap.
Qed.

Lemma archetype_classifier_parts `{GroupSum} df_player :
  Forall (λ row, Archetype.ARCHETYPE row ∈ archetypes) (archetype_data df_player)
  ∧ NoDup archetypes.
Proof.
  split.
  - eapply Forall_impl; [apply archetype_data_rows|]. simpl.
    intros row (m & pts & e & um & em & Hrow). destruct_and!.
    match goal with H : Archetype.ARCHETYPE row = _ |- _ => rewrite H end.
    apply label_table_archetypes.
  - unfold archetypes. repeat (apply NoDup_cons; split);
      [rewrite ?elem_of_cons, ?elem_of_nil; intuition discriminate..
      |apply NoDup_nil_2].
Qed.

(** X14. The medians split the classified players: at least half of them
    are at or above the usage median (High-Usage Stars and Volume Scorers
    together), and at least half are at or above the efficiency median
    (High-Usage Stars and Efficient Role Players together).  The four groups
    add up to the whole classification, so at most half of the players are
    below each median, and a non-empty classification never consists of
    Low-Impact Bench Players only. *)
Theorem archetype_median_split `{GroupSum} df_player :
  let data := archetype_data df_player in
  let n := λ label, length (archetype_group label data) in
  (length data ≤ 2 * (n "High-Usage Stars" + n "Volume Scorers"))%nat
  ∧ (length data ≤ 2 * (n "High-Usage Stars" + n "Efficient Role Players"))%nat
  ∧ length data
    = (n "High-Usage Stars" + n "Volume Scorers" + n "Efficient Role Players"
       + n "Low-Impact Bench Players")%nat
  ∧ (n "Low-Impact Bench Players" = length data → data = []).
Proof.
  intros data n.
  set (rows := retained df_player).
  assert (length data = length rows) as Hlen
    by (unfold data, archetype_data; by rewrite length_fmap).
  assert (Forall (λ r, ∃ m e, Usage.AVG_MIN r = Some m ∧ pts_per_min r = Some e)
            rows) as Hnum.
  { apply Forall_forall. intros r Hr.
    apply elem_of_retained in Hr as (p & -> & _ & Hm8).
    eexists _, _. split; [done|]. by apply pts_per_min_retained. }
  destruct (retained_columns df_player) as [Husage_float Heff_float].
  fold rows in Husage_float, Heff_float.
  assert (length data
          = (n "High-Usage Stars" + n "Volume Scorers"
             + n "Efficient Role Players" + n "Low-Impact Bench Players")%nat)
    as Hsum.
  { destruct (archetype_classifier_parts df_player) as [Hlab Hnd].
    rewrite (Permutation_concat_groups Archetype.ARCHETYPE archetypes data Hnd Hlab)
      at 1.
    unfold archetypes, n, archetype_group. simpl.
    rewrite !length_app. simpl. lia. }
  destruct rows as [|r0 rows'] eqn:Hrows.
  { assert (data = []) as Hdata.
    { unfold data, archetype_data. fold rows. by rewrite Hrows. }
    unfold n. rewrite Hdata. simpl. split_and!; done. }
  rewrite <-Hrows in *.
  assert (r0 ∈ rows) as Hr0 by (rewrite Hrows; left).
  destruct (median64_column_is_Some Usage.AVG_MIN rows r0 Hr0) as [um Hum].
  { rewrite Forall_forall in Hnum. destruct (Hnum r0 Hr0) as (m & e & -> & _).
    by eexists. }
  destruct (median64_column_is_Some pts_per_min rows r0 Hr0) as [em Hem].
  { rewrite Forall_forall in Hnum. destruct (Hnum r0 Hr0) as (m & e & _ & ->).
    by eexists. }
  assert (length rows ≤ 2 * (n "High-Usage Stars" + n "Volume Scorers"))%nat
    as Husage.
  { unfold n, data. rewrite !archetype_group_length. fold rows.
    unfold usage_median, eff_median. rewrite Hum, Hem.
    rewrite <-(length_filter_two (λ r, fge (Usage.AVG_MIN r) (Some um))).
    - by apply median64_split.
    - done.
    - eapply Forall_impl; [exact Hnum|]. simpl. intros r (m & e & -> & ->).
      rewrite assign_archetype_table. simpl.
      destruct (decide (um <= m)%Q) as [Hu|Hu], (decide (em <= e)%Q) as [He|He];
        rewrite ?(bool_decide_eq_true_2 _ Hu), ?(bool_decide_eq_false_2 _ Hu),
          ?(bool_decide_eq_true_2 _ He), ?(bool_decide_eq_false_2 _ He);
        simpl; intuition discriminate. }
  assert (length rows ≤ 2 * (n "High-Usage Stars" + n "Efficient Role Players"))%nat
    as Heff.
  { unfold n, data. rewrite !archetype_group_length. fold rows.
    unfold usage_median, eff_median. rewrite Hum, Hem.
    rewrite <-(length_filter_two (λ r, fge (pts_per_min r) (Some em))).
    - by apply median64_split.
    - done.
    - eapply Forall_impl; [exact Hnum|]. simpl. intros r (m & e & -> & ->).
      rewrite assign_archetype_table. simpl.
      destruct (decide (um <= m)%Q) as [Hu|Hu], (decide (em <= e)%Q) as [He|He];
        rewrite ?(bool_decide_eq_true_2 _ Hu), ?(bool_decide_eq_false_2 _ Hu),
          ?(bool_decide_eq_true_2 _ He), ?(bool_decide_eq_false_2 _ He);
        simpl; intuition discriminate. }
  split_and!; [lia|lia|done|].
  intros Hlow. exfalso.
  assert (0 < length rows)%nat by (rewrite Hrows; simpl; lia). lia.
Qed.

(** ** What the player rankings show *)

Lemma foldl_Qmax_best (x : Q) (l : list Q) :
  foldl Qmax x l ∈ x :: l ∧ Forall (λ y, y <= foldl Qmax x l)%Q (x :: l).
Proof.
  revert x. induction l as [|y l IH]; intros x; simpl.
  { split; [left|]. apply Forall_cons; split; [apply Qle_refl|constructor]. }
  destruct (IH (Qmax x y)) as [Hin Hall].
  apply Forall_cons in Hall as [Hxy Hall].
  assert (x <= Qmax x y ∧ y <= Qmax x y)%Q as [Hx Hy].
  { unfold Qmax. destruct (decide (x <= y)%Q) as [H|H%Qnot_le_lt];
      split; try apply Qle_refl; lra. }
  split.
  - apply elem_of_cons in Hin as [Hin|Hin]; [|by do 2 right].
    rewrite Hin. unfold Qmax. destruct (decide (x <= y)%Q); [right|]; left.
  - repeat (apply Forall_cons; split); [lra|lra|done].
Qed.

(** The maximum of a non-empty column is one of its values and bounds
    them all. *)
Lemma max_best (l : list Q) :
  l ≠ [] → ∃ m, max l = Some m ∧ m ∈ l ∧ Forall (λ y, y <= m)%Q l.
Proof.
  destruct l as [|x l]; [done|]. intros _. exists (foldl Qmax x l).
  destruct (foldl_Qmax_best x l). done.
Qed.

Lemma games_of_nonempty df_player p :
  p ∈ Player.PLAYER_NAME <$> df_player → games_of p df_player ≠ [].
Proof.
  intros (r & -> & Hr)%list_elem_of_fmap Hnil.
  assert (r ∈ games_of (Player.PLAYER_NAME r) df_player) as Hin
    by (by apply list_elem_of_filter).
  rewrite Hnil in Hin. by apply not_elem_of_nil in Hin.
Qed.

Lemma groupby_agg_Forall_key {A V}
    `{KeyOrdLaws K, EqDecision K, !RelDecision (@key_le K _)}
    (key : A → K) (agg : list A → V) (P : K * V → Prop) (df : list A) :
  (∀ k, k ∈ key <$> df → P (k, agg (filter (λ r, key r = k) df))) →
  Forall P (groupby_agg key agg df).
Proof.
  intros HP. rewrite groupby_agg_fmap. apply Forall_fmap, Forall_forall.
  intros k Hk. rewrite elem_of_sorted_unique in Hk. by apply HP.
Qed.

(** X15. Every row of the "Top Single-Game Performances" ranking shows, for
    its player, an efficiency score that the player reached in some game of
    the filtered table and never exceeded, and a number of points that the
    player reached in some game and never exceeded. *)
Theorem top_games_show_maxima df_player :
  Forall (λ row, ∃ eff pts,
      row.2 = (Some eff, Some pts)
      ∧ eff ∈ Player.EFFICIENCY_SCORE <$> games_of row.1 df_player
      ∧ Forall (λ r, Player.EFFICIENCY_SCORE r <= eff)%Q (games_of row.1 df_player)
      ∧ pts ∈ Player.PTS <$> games_of row.1 df_player
      ∧ Forall (λ r, Player.PTS r <= pts)%Q (games_of row.1 df_player))
    (top_games df_player).
Proof.
  apply head_sort_Forall, groupby_agg_Forall_key. intros p Hp. simpl.
  fold (games_of p df_player).
  pose proof (games_of_nonempty df_player p Hp) as Hne.
  destruct (max_best (Player.EFFICIENCY_SCORE <$> games_of p df_player))
    as (eff & -> & Heff & Heffmax); [by intros ?%fmap_nil_inv|].
  destruct (max_best (Player.PTS <$> games_of p df_player))
    as (pts & -> & Hpts & Hptsmax); [by intros ?%fmap_nil_inv|].
  exists eff, pts. rewrite Forall_fmap in Heffmax, Hptsmax.
  split_and!; done.
Qed.

(** The two maxima of a row need not come from the same game. *)
Example top_games_two_peaks :
  top_games two_peaks = [("C. Wing", (Some (40 # 1), Some (35 # 1)))]
  ∧ ¬ ∃ r, r ∈ two_peaks ∧ Player.EFFICIENCY_SCORE r = (40 # 1)%Q
           ∧ Player.PTS r = (35 # 1)%Q.
Proof.
  split; [vm_compute; reflexivity|].
  intros (r & Hr & Heff & Hpts). unfold two_peaks in Hr.
  rewrite !elem_of_cons, elem_of_nil in Hr.
  destruct Hr as [->|[->|[]]]; simpl in *; discriminate.
Qed.

(** The sum of a 0/1 indicator column counts the rows it marks. *)
Lemma Qsum_TWENTY_PLUS (g : list Player.row) :
  (Qsum (TWENTY_PLUS <$> g) == Qlen (filter (λ r, 20 <= Player.PTS r)%Q g))%Q.
Proof.
  induction g as [|r g IH]; [done|].
  rewrite fmap_cons. simpl Qsum. rewrite IH. unfold TWENTY_PLUS at 1.
  destruct (decide (20 <= Player.PTS r)%Q).
  - rewrite filter_cons_True by done. rewrite Qlen_cons. lra.
  - rewrite filter_cons_False by done. lra.
Qed.

(** X16. Every bar of the "Most Consistent 20+ Point Scorers" ranking shows
    the share of the player's games in the filtered table in which the
    player scored at least 20 points. *)
Theorem scorers_show_share df_player :
  Forall (λ row, ∃ q,
      row.2 = Some q
      ∧ (q * Qlen (games_of row.1 df_player)
         == Qlen (filter (λ r, 20 <= Player.PTS r)%Q (games_of row.1 df_player)))%Q
      ∧ games_of row.1 df_player ≠ [])
    (scorers df_player).
Proof.
  apply head_sort_Forall. unfold groupby_mean.
  apply groupby_agg_Forall_key. intros p Hp. simpl. fold (games_of p df_player).
  pose proof (games_of_nonempty df_player p Hp) as Hne.
  rewrite mean_is_Some by (by intros ?%fmap_nil_inv).
  eexists. split; [done|]. split; [|done].
  rewrite Qred_correct, Qsum_TWENTY_PLUS, Qlen_fmap.
  pose proof (Qlen_pos _ Hne). field. lra.
Qed.

(** The rows that qualify for the ranking of the players: one row per
    player with at least 100 games in the filtered table. *)
Lemma elem_of_meaningful_careers df_player row :
  row ∈ meaningful_careers (player_success_agg df_player) ↔
  row.1 ∈ Player.PLAYER_NAME <$> df_player
  ∧ row.2 = (mean (Player.EFFICIENCY_SCORE <$> games_of row.1 df_player),
             length (games_of row.1 df_player))
  ∧ (100 ≤ length (games_of row.1 df_player))%nat.
Proof.
  destruct row as [p [avg n]]. unfold meaningful_careers, player_success_agg.
  rewrite list_elem_of_filter, groupby_agg_fmap, list_elem_of_fmap. simpl.
  unfold count, games_of. setoid_rewrite length_fmap. split.
  - intros [Hn (p' & [= -> -> ->] & Hp')]. rewrite elem_of_sorted_unique in Hp'.
    done.
  - intros (Hp & [= -> ->] & Hn). split; [done|].
    exists p. by rewrite elem_of_sorted_unique.
Qed.

(** X17. A player is ranked among the "Most Impactful Players" only with at
    least 100 games in the filtered table, and the bar shows the mean of the
    player's efficiency scores over these games; conversely every player
    with at least 100 games qualifies for the ranking. *)
Theorem player_success_careers df_player :
  Forall (λ row,
      row.2.2 = length (games_of row.1 df_player)
      ∧ (100 ≤ row.2.2)%nat
      ∧ row.2.1 = mean (Player.EFFICIENCY_SCORE <$> games_of row.1 df_player))
    (player_success df_player)
  ∧ (∀ p, (100 ≤ length (games_of p df_player))%nat ↔
          p ∈ (meaningful_careers (player_success_agg df_player)).*1).
Proof.
  pose proof (elem_of_meaningful_careers df_player) as Hrow.
  split.
  - apply head_sort_Forall, Forall_forall. intros row Hr%Hrow.
    destruct Hr as (_ & Heq & Hn). rewrite Heq. simpl. done.
  - intros p. rewrite list_elem_of_fmap. split.
    + intros Hn.
      exists (p, (mean (Player.EFFICIENCY_SCORE <$> games_of p df_player),
                  length (games_of p df_player))).
      split; [done|]. apply Hrow. simpl. split_and!; try done.
      destruct (games_of p df_player) as [|r g] eqn:Hg; [simpl in Hn; lia|].
      assert (r ∈ games_of p df_player) as Hin by (rewrite Hg; left).
      apply list_elem_of_filter in Hin as [<- Hin].
      by apply list_elem_of_fmap_2.
    + intros (row & -> & Hr%Hrow). tauto.
Qed.

(** ** The three top-10 rankings of the claim *)





(** ** The selection shows in the outputs *)

Lemma seasons_text_bounds df_team :
  match seasons_text df_team with
  | Some (first, last) =>
      first ∈ Team.SEASON <$> df_team ∧ last ∈ Team.SEASON <$> df_team
  | None => df_team = []
  end.
Proof.
  unfold seasons_text.
  destruct (sorted_unique (Team.SEASON <$> df_team)) as [|s0 ss] eqn:Hs.
  { apply sorted_unique_nil_inv in Hs. by apply fmap_nil_inv in Hs. }
  destruct (last (s0 :: ss)) as [s1|] eqn:Hlast.
  - split.
    + rewrite <-elem_of_sorted_unique, Hs. left.
    + rewrite <-elem_of_sorted_unique, Hs.
      apply last_Some in Hlast as [l' ->]. apply elem_of_app. right. left.
  - exfalso. assert (is_Some (last (s0 :: ss))) as [? Hx]
      by (by apply last_is_Some). congruence.
Qed.

(** X18. What the dashboard shows stays within the selection.  The two
    seasons on the "Seasons Covered" card match the season constraint; the
    team badge is "N/A" on an empty filtered team table and otherwise names
    a team of that table, which matches the team constraint; the player
    badge is "N/A" on an empty filtered player table and otherwise names a
    player of that table, who matches the player constraint. *)
Theorem outputs_respect_selection `{GroupSum}
    team_game_stats player_game_stats sqrt season team player :
  let d := update_dashboard team_game_stats player_game_stats sqrt
             season team player in
  let filtered :=
    filter_rows season team player (team_game_stats, player_game_stats) in
  match Dashboard.seasons_text d with
  | Some (first, last) => matches season first ∧ matches season last
  | None => filtered.1 = []
  end
  ∧ (filtered.1 = [] ∧ Dashboard.top_team d = "N/A"
     ∨ Dashboard.top_team d ∈ Team.NICKNAME <$> filtered.1
       ∧ matches team (Dashboard.top_team d))
  ∧ (filtered.2 = [] ∧ Dashboard.top_player d = "N/A"
     ∨ Dashboard.top_player d ∈ Player.PLAYER_NAME <$> filtered.2
       ∧ matches player (Dashboard.top_player d)).
Proof.
  intros d filtered. unfold d, update_dashboard. cbv zeta. fold filtered.
  cbn [Dashboard.seasons_text Dashboard.top_team Dashboard.top_player].
  split_and!.
  - pose proof (seasons_text_bounds filtered.1) as Hs.
    destruct (seasons_text filtered.1) as [[a b]|]; [|done].
    destruct Hs as (Ha & Hb).
    apply list_elem_of_fmap in Ha as (ra & -> & Hra).
    apply list_elem_of_fmap in Hb as (rb & -> & Hrb).
    apply filter_rows_spec_team in Hra. apply filter_rows_spec_team in Hrb.
    tauto.
  - destruct (decide (filtered.1 = [])) as [Hnil|Hne].
    + left. split; [done|]. by rewrite Hnil.
    + right. pose proof (top_team_elem_of _ Hne) as Hin. split; [done|].
      apply list_elem_of_fmap in Hin as (r & -> & Hr).
      apply filter_rows_spec_team in Hr. tauto.
  - destruct (decide (filtered.2 = [])) as [Hnil|Hne].
    + left. split; [done|]. by rewrite Hnil.
    + right. pose proof (top_player_elem_of _ Hne) as Hin. split; [done|].
      apply list_elem_of_fmap in Hin as (r & -> & Hr).
      apply filter_rows_spec_player in Hr. tauto.
Qed.

(** ** Which graph shows which figure *)

Lemma delivered_positions
    (v0 v1 v2 v3 v4 v5 v6 v7 v8 v9 v10 v11 v12 v13 v14 : Returned.value) :
  let m := delivered callback_outputs
             [v0; v1; v2; v3; v4; v5; v6; v7; v8; v9; v10; v11; v12; v13; v14] in
  m !! "kpi_container" = Some v0
  ∧ m !! "badges_container" = Some v1
  ∧ m !! "season_scoring_trend" = Some v2
  ∧ m !! "league_parity" = Some v3
  ∧ m !! "home_away_trend" = Some v4
  ∧ m !! "team_vs_league" = Some v5
  ∧ m !! "east_west" = Some v6
  ∧ m !! "team_consistency" = Some v7
  ∧ m !! "team_consistency_msg" = Some v8
  ∧ m !! "player_archetypes" = Some v9
  ∧ m !! "high_scorers" = Some v10
  ∧ m !! "top_games" = Some v11
  ∧ m !! "most_successful_teams" = Some v12
  ∧ m !! "dominant_seasons" = Some v13
  ∧ m !! "most_successful_players" = Some v14.
Proof. vm_compute. repeat split. Qed.

(** X19. The callback returns as many values as it declares outputs, and
    Dash delivers them by position.  The first nine outputs receive the
    value meant for them; the six graphs after them do not: for every
    selection the graph [player_archetypes] receives the ranking of the most
    successful teams, [high_scorers] the dominant team seasons, [top_games]
    the archetype chart, [most_successful_teams] the scorers ranking,
    [dominant_seasons] the ranking of the most impactful players, and
    [most_successful_players] the top single-game performances. *)
Theorem callback_delivery `{GroupSum}
    team_game_stats player_game_stats sqrt season team player :
  let d := update_dashboard team_game_stats player_game_stats sqrt
             season team player in
  let filtered :=
    filter_rows season team player (team_game_stats, player_game_stats) in
  let m := delivered callback_outputs (returned d) in
  length (returned d) = length callback_outputs
  ∧ m !! "season_scoring_trend" = Some (Returned.fig1 (season_scoring filtered.1))
  ∧ m !! "league_parity" = Some (Returned.fig2 (parity filtered.1))
  ∧ m !! "home_away_trend" = Some (Returned.fig3 (home_away filtered.1))
  ∧ m !! "team_vs_league"
    = Some (Returned.fig4 (team_avg filtered.1) (league_avg filtered.1))
  ∧ m !! "east_west" = Some (Returned.fig5 (conf filtered.1))
  ∧ m !! "team_consistency" = Some (Returned.fig6 (fig6 sqrt filtered.1))
  ∧ m !! "team_consistency_msg"
    = Some (Returned.team_consistency_msg (team_consistency_msg sqrt filtered.1))
  ∧ m !! "player_archetypes"
    = Some (Returned.fig_success_teams (team_success filtered.1))
  ∧ m !! "high_scorers"
    = Some (Returned.fig_dominant_seasons
              ((λ row, (row, LABEL row)) <$> dominant_seasons filtered.1))
  ∧ m !! "top_games" = Some (Returned.fig7 (archetype_data filtered.2))
  ∧ m !! "most_successful_teams" = Some (Returned.fig8 (scorers filtered.2))
  ∧ m !! "dominant_seasons"
    = Some (Returned.fig_success_players (player_success filtered.2))
  ∧ m !! "most_successful_players" = Some (Returned.fig9 (top_games filtered.2)).
Proof.
  intros d filtered m. split; [reflexivity|].
  pose proof (delivered_positions
    (Returned.kpi_cards (Dashboard.seasons_text d) (Dashboard.total_games d)
      (Dashboard.total_players d) (Dashboard.avg_pts d)
      (Dashboard.home_win_rate d))
    (Returned.badges (Dashboard.top_team d) (Dashboard.top_player d))
    (Returned.fig1 (Dashboard.season_scoring d))
    (Returned.fig2 (Dashboard.parity d))
    (Returned.fig3 (Dashboard.home_away d))
    (Returned.fig4 (Dashboard.team_avg d) (Dashboard.league_avg d))
    (Returned.fig5 (Dashboard.conf d))
    (Returned.fig6 (Dashboard.fig6 d))
    (Returned.team_consistency_msg (Dashboard.team_consistency_msg d))
    (Returned.fig_success_teams (Dashboard.team_success d))
    (Returned.fig_dominant_seasons (Dashboard.dominant_seasons d))
    (Returned.fig7 (Dashboard.archetype_data d))
    (Returned.fig8 (Dashboard.scorers d))
    (Returned.fig_success_players (Dashboard.player_success d))
    (Returned.fig9 (Dashboard.top_games d))) as Hpos.
  cbv zeta in Hpos. fold (returned d) in Hpos. fold m in Hpos.
  destruct Hpos as (_ & _ & H2 & H3 & H4 & H5 & H6 & H7 & H8 & H9 & H10 & H11
                 & H12 & H13 & H14).
  split_and!; assumption.
Qed.

(** ** Two-tone styling *)

Lemma two_tone_primary_idemp pm sm trace :
  two_tone_primary pm (two_tone_trace pm sm trace) = two_tone_primary pm trace.
Proof.
  unfold two_tone_trace, two_tone_primary. cbn [Trace.name Trace.marker_ Trace.line_color].
  destruct (dict_get_opt pm (Trace.name trace)) as [c|]; [done|].
  destruct (Trace.marker_ trace) as [[[c|] o]|]; cbn; [done..|].
  destruct (Trace.line_color trace) as [[c|]|]; done.
Qed.

Lemma two_tone_trace_idemp pm sm trace :
  two_tone_trace pm sm (two_tone_trace pm sm trace) = two_tone_trace pm sm trace.
Proof.
  assert (two_tone_secondary pm sm (two_tone_trace pm sm trace)
          = two_tone_secondary pm sm trace) as Hs.
  { unfold two_tone_secondary. rewrite two_tone_primary_idemp. done. }
  unfold two_tone_trace at 1. rewrite two_tone_primary_idemp, Hs.
  unfold two_tone_trace. cbn [Trace.name Trace.marker_ Trace.line_color].
  f_equal.
  - by destruct (Trace.marker_ trace).
  - by destruct (Trace.line_color trace).
Qed.

(** X20. Two-tone styling is idempotent and keeps the shape of a figure:
    styling a styled figure again changes nothing, and styling keeps the
    number of traces, their names, and which traces have a marker and a
    line; no figure stays no figure. *)
Theorem apply_two_tone_idempotent fig pm sm :
  apply_two_tone (apply_two_tone fig pm sm) pm sm = apply_two_tone fig pm sm
  ∧ match fig, apply_two_tone fig pm sm with
    | Some data, Some styled =>
        Forall2 (λ tr tr',
          Trace.name tr' = Trace.name tr
          ∧ (is_Some (Trace.marker_ tr') ↔ is_Some (Trace.marker_ tr))
          ∧ (is_Some (Trace.line_color tr') ↔ is_Some (Trace.line_color tr)))
          data styled
    | None, None => True
    | _, _ => False
    end.
Proof.
  destruct fig as [data|]; simpl; [|done]. split.
  - f_equal. rewrite <-list_fmap_compose. apply list_fmap_ext.
    intros _ tr _. apply two_tone_trace_idemp.
  - apply Forall2_fmap_r, Forall_Forall2_diag, Forall_forall. intros tr _.
    unfold two_tone_trace. cbn [Trace.name Trace.marker_ Trace.line_color].
    split; [done|].
    destruct (Trace.marker_ tr), (Trace.line_color tr); simpl;
      split; split; intros [? ?]; by eexists.
Qed.

(** X21. Styling with the team colour maps gives every trace named after a
    team of the filtered team table the two colours of that team: the
    marker (and the line, if any) in the primary colour, the marker outline
    in the secondary colour with width 3, whatever colours the trace had. *)
Theorem two_tone_team_trace df_team trace t :
  Trace.name trace = Some t → t ∈ Team.NICKNAME <$> df_team →
  two_tone_trace (team_primary_map df_team) (team_secondary_map df_team) trace
  = {| Trace.name := Some t;
       Trace.marker_ :=
         (λ _, Trace.Marker (Some (team_color_pair t).1)
                 (Some ((team_color_pair t).2, 3%Z)))
         <$> Trace.marker_ trace;
       Trace.line_color :=
         (λ _, Some (team_color_pair t).1) <$> Trace.line_color trace |}.
Proof.
  intros Hname Ht.
  destruct (team_color_maps_lookup df_team t) as [Hin _].
  destruct (Hin Ht) as [Hp Hs].
  unfold two_tone_trace, two_tone_secondary, two_tone_primary.
  rewrite Hname. cbn [dict_get_opt]. rewrite Hp, Hs. done.
Qed.

(** X21, at the bar of the Lakers. *)
Lemma two_tone_team_trace_witness :
  Trace.name lakers_bar = Some "Lakers"
  ∧ "Lakers" ∈ Team.NICKNAME <$> both_teams
  ∧ two_tone_trace (team_primary_map both_teams) (team_secondary_map both_teams)
      lakers_bar
    = {| Trace.name := Some "Lakers";
         Trace.marker_ :=
           (λ _, Trace.Marker (Some (team_color_pair "Lakers").1)
                   (Some ((team_color_pair "Lakers").2, 3%Z)))
           <$> Trace.marker_ lakers_bar;
         Trace.line_color :=
           (λ _, Some (team_color_pair "Lakers").1)
           <$> Trace.line_color lakers_bar |}.
Proof.
  assert (Trace.name lakers_bar = Some "Lakers") as H1 by reflexivity.
  assert ("Lakers" ∈ Team.NICKNAME <$> both_teams) as H2 by (simpl; left).
  split; [exact H1|]. split; [exact H2|].
  exact (two_tone_team_trace both_teams lakers_bar "Lakers" H1 H2).
Defined.

(** A trace whose name is in no colour map keeps its own colour: the dashed
    league average line stays black. *)
Example league_avg_line_stays_black :
  two_tone_trace (team_primary_map both_teams) (team_secondary_map both_teams)
    league_avg_line
  = Trace.Make (Some "League Avg")
      (Some (Trace.Marker (Some "black") (Some ("black", 3%Z))))
      (Some (Some "black")).
Proof. vm_compute. reflexivity. Qed.

(** ** Averages of averages *)

Lemma Qsum_app (l1 l2 : list Q) : (Qsum (l1 ++ l2) == Qsum l1 + Qsum l2)%Q.
Proof.
  induction l1 as [|x l1 IH]; simpl; [lra|]. rewrite IH. lra.
Qed.

Lemma Qsum_Permutation (l1 l2 : list Q) : l1 ≡ₚ l2 → (Qsum l1 == Qsum l2)%Q.
Proof.
  induction 1 as [|x l1 l2 _ IH|x y l|l1 l2 l3 _ IH1 _ IH2]; simpl.
  - reflexivity.
  - by rewrite IH.
  - lra.
  - by rewrite IH1.
Qed.

Lemma Qsum_concat {A} (col : A → Q) (gs : list (list A)) :
  (Qsum (col <$> concat gs) == Qsum ((λ g, Qsum (col <$> g)) <$> gs))%Q.
Proof.
  induction gs as [|g gs IH]; [reflexivity|].
  simpl. rewrite fmap_app, Qsum_app, IH. reflexivity.
Qed.

(** The sum of a column is the sum of its group sums. *)
Lemma Qsum_groups {A} `{KeyOrdLaws K, EqDecision K, !RelDecision (@key_le K _)}
    (key : A → K) (col : A → Q) (df : list A) :
  (Qsum (col <$> df)
   == Qsum ((λ k, Qsum (col <$> filter (λ r, key r = k) df))
            <$> sorted_unique (key <$> df)))%Q.
Proof.
  assert (df ≡ₚ concat ((λ k, filter (λ r, key r = k) df)
                        <$> sorted_unique (key <$> df))) as Hperm.
  { apply Permutation_concat_groups; [apply NoDup_sorted_unique|].
    apply Forall_forall. intros r Hr. rewrite elem_of_sorted_unique.
    by apply list_elem_of_fmap_2. }
  rewrite (Qsum_Permutation _ _ (fmap_Permutation col _ _ Hperm)).
  rewrite Qsum_concat, <-list_fmap_compose. reflexivity.
Qed.

(** The mean of a group times its size is its sum; [default 0] only reads
    the mean, which is a number on a non-empty group. *)
Lemma mean_times_len (l : list Q) : (default 0 (mean l) * Qlen l == Qsum l)%Q.
Proof.
  destruct (decide (l = [])) as [->|Hne]; [reflexivity|].
  rewrite mean_is_Some by done.
  pose proof (Qlen_pos l Hne) as Hpos.
  generalize dependent (Qlen l). generalize (Qsum l).
  intros s n Hn. simpl. rewrite Qred_correct. field. lra.
Qed.

Lemma Qsum_ext {A} (f g : A → Q) (l : list A) :
  (∀ x, x ∈ l → f x == g x)%Q → (Qsum (f <$> l) == Qsum (g <$> l))%Q.
Proof.
  induction l as [|x l IH]; intros Hfg; [reflexivity|].
  rewrite !fmap_cons. simpl. rewrite Hfg by left. rewrite IH; [reflexivity|].
  intros y Hy. apply Hfg. by right.
Qed.

(** X22. Averages compose by weight.  The "Avg Points / Game" card times the
    number of rows is the sum, over the points of the season scoring chart,
    of the season average times the number of rows of the season: the card
    is the game-weighted average of the chart, not the plain average of its
    points.  In the same way every point of the league average line is the
    game-weighted average of the team averages of that season. *)
Theorem averages_compose_by_weight df_team :
  (∃ q, avg_pts df_team = Some q
        ∧ (q * Qlen df_team
           == Qsum ((λ point,
                       default 0 point.2
                       * Qlen (filter (λ r, Team.SEASON r = point.1) df_team))
                    <$> season_scoring df_team))%Q)
  ∧ Forall (λ point,
        (default 0 point.2 * Qlen (filter (λ r, Team.SEASON r = point.1) df_team)
         == Qsum ((λ row,
                     default 0 row.2
                     * Qlen (filter (λ r, team_season r = row.1) df_team))
                  <$> filter (λ row, row.1.1 = point.1) (team_avg df_team)))%Q)
      (league_avg df_team).
Proof.
  split.
  - exists (default 0%Q (mean (Team.PTS <$> df_team))). split.
    { unfold avg_pts. by destruct df_team. }
    rewrite <-(Qlen_fmap Team.PTS), mean_times_len.
    rewrite (Qsum_groups Team.SEASON Team.PTS).
    unfold season_scoring, groupby_mean. rewrite groupby_agg_fmap.
    rewrite <-list_fmap_compose. apply Qsum_ext. intros s _. simpl.
    rewrite <-(Qlen_fmap Team.PTS), mean_times_len. reflexivity.
  - unfold league_avg, team_avg, groupby_mean.
    rewrite !groupby_agg_fmap. apply Forall_fmap, Forall_forall.
    intros s _. simpl.
    rewrite <-(Qlen_fmap Team.PTS), mean_times_len.
    rewrite filter_fmap. simpl. unfold team_season at 2.
    rewrite filter_sorted_unique_level0.
    rewrite (filter_fmap team_season). simpl.
    rewrite <-!list_fmap_compose.
    rewrite (Qsum_groups Team.NICKNAME Team.PTS
               (filter (λ r, Team.SEASON r = s) df_team)).
    apply Qsum_ext. intros t _. simpl.
    rewrite <-(Qlen_fmap Team.PTS), mean_times_len.
    rewrite list_filter_filter.
    erewrite (list_filter_iff (λ r, team_season r = (s, t))); [reflexivity|].
    intros r. unfold team_season. split; [by intros [= -> ->]|by intros [-> ->]].
Qed.

(** ** Labels of the dominant seasons *)

Lemma has_paren_app (a b : string) :
  has_paren (a +:+ b) = has_paren a || has_paren b.
Proof.
  induction a as [|c a IH]; [done|].
  simpl. rewrite IH. by rewrite orb_assoc.
Qed.

Lemma pretty_N_char_no_paren (n : N) : String (pretty_N_char n) "" ≠ "(".
Proof.
  unfold pretty_N_char. destruct n as [|p]; [done|].
  do 4 (destruct p as [p|p|]; try done).
Qed.

Lemma pretty_N_go_no_paren (x : N) (s : string) :
  has_paren s = false → has_paren (pretty_N_go x s) = false.
Proof.
  revert s. induction (N.lt_wf_0 x) as [x _ IH]; intros s Hs.
  assert (x = 0 ∨ 0 < x)%N as [->|Hx] by lia; [by rewrite pretty_N_go_0|].
  rewrite pretty_N_go_step by done. apply IH.
  - apply N.div_lt; lia.
  - simpl. rewrite Hs, orb_false_r. apply bool_decide_eq_false.
    apply pretty_N_char_no_paren.
Qed.

(** [str] of an integer has no parenthesis. *)
Lemma pretty_Z_no_paren (z : Z) : has_paren (pretty z) = false.
Proof.
  destruct z as [|p|p]; [done| |].
  - unfold pretty, pretty_Z, pretty, pretty_N. simpl.
    by apply pretty_N_go_no_paren.
  - unfold pretty, pretty_Z, pretty, pretty_N. simpl.
    by apply pretty_N_go_no_paren.
Qed.

(** A string is cut in one way only at its last [" ("]. *)
Lemma cut_at_last_paren (a b u v : string) :
  has_paren u = false → has_paren v = false →
  a +:+ " (" +:+ u = b +:+ " (" +:+ v → a = b ∧ u = v.
Proof.
  intros Hu Hv. revert b.
  induction a as [|c a IH]; intros [|c' b] Heq.
  - simpl in Heq. injection Heq as Heq. by split.
  - exfalso. injection Heq as <- Heq. destruct b as [|c'' b].
    + discriminate Heq.
    + injection Heq as _ Heq. change (u = b +:+ " (" +:+ v) in Heq.
      rewrite Heq, has_paren_app in Hu.
      simpl in Hu. by rewrite orb_true_r in Hu.
  - exfalso. injection Heq as -> Heq. destruct a as [|c'' a].
    + discriminate Heq.
    + injection Heq as _ Heq. change (a +:+ " (" +:+ u = v) in Heq.
      rewrite <-Heq, has_paren_app in Hv.
      simpl in Hv. by rewrite orb_true_r in Hv.
  - injection Heq as -> Heq. destruct (IH _ Heq) as [-> ->]. done.
Qed.

Lemma label_of_key_inj (k1 k2 : Z * string) :
  label_of_key k1 = label_of_key k2 → k1 = k2.
Proof.
  destruct k1 as [z1 t1], k2 as [z2 t2]. unfold label_of_key. simpl.
  intros Heq. apply cut_at_last_paren in Heq as [-> Heq].
  - f_equal. apply (inj pretty).
    revert Heq. generalize (pretty z1 : string), (pretty z2 : string).
    intros s1. induction s1 as [|c s1 IH]; intros [|c' s2] Heq;
      try done.
    + by destruct s2.
    + by destruct s1.
    + injection Heq as -> Heq. f_equal. by apply IH.
  - rewrite has_paren_app, pretty_Z_no_paren. done.
  - rewrite has_paren_app, pretty_Z_no_paren. done.
Qed.

(** X23. The labels of the dominant seasons chart, "<team> (<season>)", are
    pairwise distinct: the label determines the team and the season, also
    when a team's name itself holds a parenthesis, so no two of the (at most
    ten) bars share a label. *)
Theorem dominant_seasons_labels_distinct df_team :
  (∀ row1 row2, LABEL row1 = LABEL row2 → row1.1 = row2.1)
  ∧ NoDup (LABEL <$> dominant_seasons df_team)
  ∧ (length (LABEL <$> dominant_seasons df_team) ≤ 10)%nat.
Proof.
  assert (∀ row1 row2, LABEL row1 = LABEL row2 → row1.1 = row2.1) as Hinj.
  { intros row1 row2 Heq. by apply label_of_key_inj. }
  split; [exact Hinj|]. split.
  - destruct (ranking_keys team_season (λ g, mean (win <$> g)) snd 10 df_team)
      as [Hnd _].
    change (NoDup (dominant_seasons df_team).*1) in Hnd.
    assert (LABEL <$> dominant_seasons df_team
            = label_of_key <$> (dominant_seasons df_team).*1) as ->
      by (by rewrite <-list_fmap_compose).
    apply NoDup_fmap_2_strong; [|done].
    intros k1 k2 _ _. apply label_of_key_inj.
  - rewrite length_fmap. unfold dominant_seasons, head.
    rewrite length_take. lia.
Qed.

(** ** The classifier on tables of whole numbers *)

#[global] Instance whole_number_dec (x : Q) : Decision (whole_number x).
Proof. unfold whole_number. apply _. Defined.

Lemma whole_number_proper (x y : Q) : (x == y)%Q → whole_number x → whole_number y.
Proof.
  intros Hxy [H0 Hx]. split; [by rewrite <-Hxy|].
  rewrite <-(Qfloor_comp _ _ Hxy), Hx. exact Hxy.
Qed.

Lemma whole_number_plus (x y : Q) :
  whole_number x → whole_number y → whole_number (x + y).
Proof.
  intros [Hx0 Hx] [Hy0 Hy]. split; [lra|].
  assert (x + y == inject_Z (Qfloor x + Qfloor y))%Q as Hsum
    by (rewrite inject_Z_plus, Hx, Hy; reflexivity).
  rewrite Hsum at 1. by rewrite Qfloor_Z, <-Hsum.
Qed.

Lemma whole_number_float (x : Q) :
  whole_number x → (x < 2 ^ 53)%Q → float64_value x.
Proof.
  intros [H0 Hx] Hlt. exists (Qfloor x), 0%Z. split; [lia|]. split.
  - assert (0 ≤ Qfloor x)%Z by exact (Qfloor_resp_le 0 x H0).
    assert (Qfloor x < 2 ^ 53)%Z.
    { rewrite Zlt_Qlt, Hx. by rewrite pow2_Z by lia. }
    lia.
  - rewrite Hx. change (2 ^ 0)%Q with 1%Q. ring.
Qed.

Lemma Qsum_whole (l : list Q) :
  Forall whole_number l → whole_number (Qsum l).
Proof.
  induction 1 as [|x l Hx _ IH]; [by split|].
  by apply whole_number_plus.
Qed.

#[global] Instance exact_sum_laws : @GroupSumLaws exact_sum.
Proof. intros l _ _. reflexivity. Qed.

(** Adding whole numbers value by value in float64 makes no error below
    [2^53]. *)
Lemma running_sum_whole (s : Q) (l : list Q) :
  whole_number s → Forall whole_number l → (s + Qsum l < 2 ^ 53)%Q →
  (foldl (λ s x, round64 (s + x)) s l == s + Qsum l)%Q.
Proof.
  intros Hs Hl. revert s Hs. induction Hl as [|x l Hx Hl IH]; intros s Hs Hlt.
  { simpl. ring. }
  simpl in *. destruct (Qsum_whole l Hl) as [Hl0 _].
  assert (round64 (s + x) == s + x)%Q as Hround.
  { apply round64_id, whole_number_float; [by apply whole_number_plus|lra]. }
  rewrite IH.
  - rewrite Hround. ring.
  - apply (whole_number_proper (s + x)); [by symmetry|].
    by apply whole_number_plus.
  - rewrite Hround. lra.
Qed.

#[global] Instance running_sum_laws : @GroupSumLaws running_sum.
Proof.
  intros l Hl Hlt. unfold group_sum, running_sum.
  rewrite running_sum_whole; [ring|by split|done|lra].
Qed.

Lemma Qsum_filter_le {A} (col : A → Q) (P : A → Prop) `{∀ x, Decision (P x)}
    (df : list A) :
  Forall (λ r, 0 <= col r)%Q df →
  (Qsum (col <$> filter P df) <= Qsum (col <$> df))%Q.
Proof.
  induction 1 as [|r df Hr _ IH]; [apply Qle_refl|].
  destruct (decide (P r)).
  - rewrite filter_cons_True by done. rewrite !fmap_cons. simpl. lra.
  - rewrite filter_cons_False by done. rewrite fmap_cons. simpl. lra.
Qed.

(** On a column of whole numbers the average does not depend on the way
    the sum is accumulated. *)
Lemma mean64_whole `{GroupSum, !GroupSumLaws} (l : list Q) :
  Forall whole_number l → (Qsum l < 2 ^ 53)%Q →
  mean64 l = @mean64 exact_sum l.
Proof.
  intros Hl Hlt. unfold mean64. destruct l as [|x l]; [done|].
  f_equal. apply round64_proper. by rewrite group_sum_whole.
Qed.

Lemma archetype_data_whole `{GroupSum, !GroupSumLaws} (df_player : list Player.row) :
  Forall (λ r, whole_number (Player.MINUTES_PLAYED r)
               ∧ whole_number (Player.PTS r)) df_player →
  (Qsum (Player.MINUTES_PLAYED <$> df_player) < 2 ^ 53)%Q →
  (Qsum (Player.PTS <$> df_player) < 2 ^ 53)%Q →
  archetype_data df_player = @archetype_data exact_sum df_player.
Proof.
  intros Hwhole Hmin Hpts.
  assert (archetype_agg df_player = @archetype_agg exact_sum df_player) as Hagg.
  { rewrite !archetype_agg_fmap. apply list_fmap_ext. intros _ p _.
    assert (Forall (λ r, whole_number (Player.MINUTES_PLAYED r)
                         ∧ whole_number (Player.PTS r)) (games_of p df_player))
      as Hg.
    { apply Forall_forall. intros r [_ Hr]%list_elem_of_filter.
      rewrite Forall_forall in Hwhole. by apply Hwhole. }
    f_equal; apply mean64_whole.
    - apply Forall_fmap. eapply Forall_impl; [exact Hg|]. by intros r [? _].
    - eapply Qle_lt_trans; [|exact Hmin]. apply Qsum_filter_le.
      eapply Forall_impl; [exact Hwhole|]. by intros r [[? _] _].
    - apply Forall_fmap. eapply Forall_impl; [exact Hg|]. by intros r [_ ?].
    - eapply Qle_lt_trans; [|exact Hpts]. apply Qsum_filter_le.
      eapply Forall_impl; [exact Hwhole|]. by intros r [_ [? _]]. }
  unfold archetype_data, retained. by rewrite Hagg.
Qed.

(** Rounding decides a close call.  Ann and Bob score the same points per
    minute, and in exact arithmetic Ann would sit on the efficiency median;
    the float64 quotients differ in the last digit, the median is Bob's,
    and Ann is below it: with a usage below the median as well she is a
    Low-Impact Bench Player. *)
Example close_call_labels `{GroupSum, !GroupSumLaws} :
  (λ row, (player_of row, Archetype.ARCHETYPE row)) <$> archetype_data close_call
  = [("Ann", "Low-Impact Bench Players"); ("Bob", "High-Usage Stars")]
  ∧ (Qsum (Player.PTS <$> games_of "Ann" close_call)
     / Qsum (Player.MINUTES_PLAYED <$> games_of "Ann" close_call)
     == Qsum (Player.PTS <$> games_of "Bob" close_call)
        / Qsum (Player.MINUTES_PLAYED <$> games_of "Bob" close_call))%Q
  ∧ eff_median (retained close_call)
    = Some (1351079888211149 # 4503599627370496)%Q.
Proof.
  assert (archetype_data close_call = @archetype_data exact_sum close_call)
    as Hdata.
  { apply archetype_data_whole.
    - apply (bool_decide_unpack _). by vm_compute.
    - by vm_compute.
    - by vm_compute. }
  split; [rewrite Hdata; by vm_compute|]. split; [by vm_compute|].
  rewrite <-archetype_data_stats, Hdata, archetype_data_stats. by vm_compute.
Qed.
